(** * hdrmerge: exposure series input (src/input.cpp)

    A shallow embedding of [ExposureSeries::add], [ExposureSeries::check]
    and [ExposureSeries::load], and the properties of the series they
    establish.

    Conventions of the embedding:
    - C [float] and [double] values are IEEE 754 binary32 and binary64
      numbers, given by the Standard Library's [spec_float] with its
      operations at precision 24 and 53;
    - [std::runtime_error] exceptions are the [Throw] outcome of a result
      type and abort the operation; behaviour the C++ standard leaves
      undefined (reading outside a buffer) is the [Undefined] outcome;
    - the libraries the code calls (libc, Exiv2, RawSpeed, libm) are the
      fields of the class [Collaborators];
    - text written to [cout] is diagnostic only and is left out; warnings
      written to [cerr] are collected in a list. *)

From Stdlib Require Import ZArith QArith Lia Ascii String Floats.SpecFloat.
From stdpp Require Import gmap strings list sorting pretty.

Local Open Scope nat_scope.

(** ** Floating point numbers *)

(** C [float]: binary32. *)
Abbreviation float := spec_float.
(** C [double]: binary64. *)
Abbreviation double := spec_float.

Definition f32_mul : float -> float -> float := SFmul 24 128.
Definition f32_div : float -> float -> float := SFdiv 24 128.
(** Conversion of an [int] to [float] (round to nearest even). *)
Definition f32_of_int (z : Z) : float := binary_normalize 24 128 z 0 false.

Definition f64_mul : double -> double -> double := SFmul 53 1024.
Definition f64_div : double -> double -> double := SFdiv 53 1024.
(** Conversion of a [size_t] to [double]. *)
Definition f64_of_int (z : Z) : double := binary_normalize 53 1024 z 0 false.

(** The literal [0.999]: the binary64 number nearest to 999/1000. *)
Definition double_0_999 : double := S754_finite false 8998192055486251 (-53).

(** [(size_t) d]: conversion of a double to an unsigned integer truncates
    towards zero (defined for the non-negative finite values that occur). *)
Definition double_to_size_t (d : double) : Z :=
  match d with
  | S754_finite false m (Zpos e) => Z.pos m * 2 ^ Z.pos e
  | S754_finite false m Z0 => Z.pos m
  | S754_finite false m (Zneg e) => Z.pos m / 2 ^ Z.pos e
  | _ => 0
  end%Z.

(** [a < b], [a == b] and [a != b] on floats. *)
Definition float_lt (a b : float) : bool := SFltb a b.
Definition float_eq (a b : float) : bool := SFeqb a b.
Definition float_ne (a b : float) : bool := negb (float_eq a b).

Definition is_nan (a : float) : bool :=
  match a with S754_nan => true | _ => false end.

(** The exact value of a finite float, as a rational. *)
Definition float_to_Q (a : float) : Q :=
  match a with
  | S754_finite s m e =>
      let v := match e with
               | Zneg p => Z.pos m # (2 ^ p)
               | _ => inject_Z (Z.pos m * 2 ^ e)
               end in
      if s then Qopp v else v
  | _ => 0%Q
  end.

(** [uint16_t x = v]: conversion to a 16-bit unsigned integer. *)
Definition to_uint16 (v : Z) : Z := (v mod 65536)%Z.

(** ** Standard algorithms *)

Section Algorithms.
Context {A : Type}.

(** [std::sort(first, last, comp)], as an insertion sort: the result is a
    permutation of the input in which no element compares less than its
    predecessor.  (Which permutation [std::sort] picks among elements that
    compare equivalent is unspecified; here they keep their order.  When
    [comp] is not a strict weak order on the elements, as [<] on exposure
    times of which some but not all are not numbers, [std::sort] promises
    nothing; the order this function gives there is not the library's, and
    nothing is concluded from it.) *)
Fixpoint sort_insert (comp : A -> A -> bool) (x : A) (l : list A) : list A :=
  match l with
  | [] => [x]
  | y :: l' => if comp y x then y :: sort_insert comp x l' else x :: y :: l'
  end.

Fixpoint std_sort (comp : A -> A -> bool) (l : list A) : list A :=
  match l with
  | [] => []
  | x :: l' => sort_insert comp x (std_sort comp l')
  end.

(** [std::adjacent_find(first, last, pred)]: the first element that is
    followed by one for which [pred] holds, [None] for [last]. *)
Fixpoint std_adjacent_find (pred : A -> A -> bool) (l : list A) : option A :=
  match l with
  | a :: (b :: _) as l' => if pred a b then Some a else std_adjacent_find pred l'
  | _ => None
  end.

(** [std::nth_element(first, nth, last)]: afterwards the element at [nth]
    is the one that a full sort would put there; a full sort is one
    rearrangement that satisfies this. *)
Definition std_nth_element (comp : A -> A -> bool) (l : list A) (nth : nat) : list A :=
  std_sort comp l.
End Algorithms.

(** [s] between double quotes. *)
Definition quoted (s : string) : string :=
  String (ascii_of_nat 34) s +:+ String (ascii_of_nat 34) EmptyString.

(** [strchr(s, c) != NULL] *)
Fixpoint strchr (s : string) (c : ascii) : bool :=
  match s with
  | EmptyString => false
  | String c' s' => if Ascii.eqb c' c then true else strchr s' c
  end.

(** ** Data model *)

(** Modelled from the spec: [struct Exposure] is declared in hdrmerge.h,
    which is not part of the sources.  One frame of the series, with the
    fields input.cpp reads and writes: the file name, the exposure time
    derived from the shutter speed, the exposure time as the camera shows
    it, and the buffer of normalized 32-bit float pixels, once loaded. *)
Record Exposure := mkExposure {
  filename : string;
  exposure : float;
  shown_exposure : float;
  image : option (list float)
}.

(** Modelled from the spec: the constructor [Exposure(filename)] is declared
    in hdrmerge.h, which is not part of the sources; the frame is
    constructed with only a filename, nothing else is set. *)
Definition Exposure_new (fname : string) : Exposure :=
  mkExposure fname (S754_zero false) (S754_zero false) None.

Definition set_exposure (v : float) (e : Exposure) : Exposure :=
  mkExposure (filename e) v (shown_exposure e) (image e).
Definition set_shown_exposure (v : float) (e : Exposure) : Exposure :=
  mkExposure (filename e) (exposure e) v (image e).
Definition set_image (img : list float) (e : Exposure) : Exposure :=
  mkExposure (filename e) (exposure e) (shown_exposure e) (Some img).

(** Modelled from the spec: [struct ExposureSeries] is declared in
    hdrmerge.h as well.  The exposures, in the order of discovery until
    [check] sorts them; the metadata collected from all frames, a map from
    key to text; the dimensions of the frames; the saturation estimate. *)
Record ExposureSeries := mkSeries {
  exposures : list Exposure;
  metadata : gmap string string;
  width : nat;
  height : nat;
  saturation : float
}.

Definition set_exposures (l : list Exposure) (s : ExposureSeries) : ExposureSeries :=
  mkSeries l (metadata s) (width s) (height s) (saturation s).
Definition set_metadata (m : gmap string string) (s : ExposureSeries) : ExposureSeries :=
  mkSeries (exposures s) m (width s) (height s) (saturation s).

(** What can be thrown, after the error taxonomy of the design; every one is
    a [std::runtime_error] in the source.  The code builds all of them but
    [RawSpeedError], which is an exception of RawSpeed's own that [load]
    does not catch: it carries the text of the decoder, not the name of the
    file. *)
Inductive Field := ShutterSpeedValue | ExposureTime | ISOSpeed | FNumber | ExposureMode.

Inductive Unsupported := Subsampled | Not16Bit | NoColorFilterArray.

Inductive error :=
  | DecodeError (fname : string)
  | MissingFieldError (fname : string) (f : Field)
  | InconsistentSettingsError (fname : string) (f : Field)
  | DuplicateExposureError (e : Exposure)
  | UnsupportedFormatError (why : Unsupported)
  | RawSpeedError (what : string).

Inductive result (A : Type) :=
  | Ok (a : A)
  | Throw (e : error)
  | Undefined.
Arguments Ok {A} a.
Arguments Throw {A} e.
Arguments Undefined {A}.

#[global] Instance result_bind : MBind result := fun A B k r =>
  match r with
  | Ok a => k a
  | Throw e => Throw e
  | Undefined => Undefined
  end.

(** [it == exifData.end()] raises the given error. *)
Definition found {A} (o : option A) (e : error) : result A :=
  match o with Some a => Ok a | None => Throw e end.

(** One Exiv2 metadatum, by the observations the code makes of it. *)
Record Exifdatum := mkDatum {
  key : string;        (* it->key() *)
  value_size : Z;      (* it->value().size() *)
  toString : string;   (* it->toString() *)
  toFloat : float;     (* it->toFloat() *)
  print : string       (* it->print(&exifData) *)
}.

(** The Exif data of one image: its entries in iteration order, and the
    answers of Exiv2's easy-access functions for it. *)
Record ExifData := mkExif {
  entries : list Exifdatum;
  Exiv2_exposureTime : option Exifdatum;
  Exiv2_isoSpeed : option Exifdatum;
  Exiv2_fNumber : option Exifdatum;
  Exiv2_exposureMode : option Exifdatum
}.

(** [exifData.findKey(ExifKey(k))] *)
Definition findKey (k : string) (exifData : ExifData) : option Exifdatum :=
  List.find (fun d => bool_decide (key d = k)) (entries exifData).

Inductive RawImageType := TYPE_USHORT16 | TYPE_FLOAT32.

#[global] Instance RawImageType_eq_dec : EqDecision RawImageType.
Proof. solve_decision. Defined.

(** A decoded RawSpeed image ([RawImage], from the RawSpeed headers), by
    the members the code reads. *)
Record RawImage := mkRaw {
  subsampling_x : Z;
  subsampling_y : Z;
  getDataType : RawImageType;
  isCFA : bool;
  dim_x : nat;
  dim_y : nat;
  pitch : nat;          (* bytes per row *)
  blackLevel : Z;
  whitePoint : Z;
  getData : list Z      (* the 16-bit samples from getData(0, 0) on *)
}.

Inductive Decoded :=
  | NoDecoder                 (* parser.getDecoder() is null *)
  | DecoderFailed (what : string)
      (* checkSupport, decodeRaw or decodeMetaData throws, with this text *)
  | DecodedRaw (raw : RawImage).

(** The libraries behind the code. *)
Class Collaborators := {
  (** [access(filename, F_OK) == 0] *)
  access_F_OK : string -> bool;
  (** the buffer [snprintf(filename, sizeof(filename), fmt, exposure)] fills *)
  snprintf : string -> nat -> string;
  (** [Exiv2::ImageFactory::open], [readMetadata] and [exifData] *)
  ImageFactory_open : string -> option ExifData;
  (** [(float) std::pow(2, x)] *)
  std_pow2 : float -> float;
  (** reading, parsing and decoding a RAW file with RawSpeed *)
  RawSpeed_decode : string -> Decoded
}.

(** ** The operations *)

Section Operations.
Context `{Collaborators}.

(** *** [ExposureSeries::add] *)

(** The first loop of [add], entered at index [exposure] with the frames
    [exps] collected so far and the flag [success].  The loop has no bound
    of its own: [fuel] bounds the number of iterations, and [None] means
    that it was not enough. *)
Fixpoint add_scan_from_0 (fuel : nat) (fmt : string) (exposure : nat)
    (exps : list Exposure) (success : bool) : option (list Exposure * bool) :=
  match fuel with
  | O => None
  | S fuel' =>
      let fname := snprintf fmt exposure in
      let exp := Exposure_new fname in
      if negb (access_F_OK fname) then Some (exps, success)
      else if bool_decide (exposure = 1) && negb (strchr fmt "%") then
        Some (exps, success) (* Just one image -- stop *)
      else add_scan_from_0 fuel' fmt (S exposure) (exps ++ [exp]) true
  end.

(** The second loop of [add]. *)
Fixpoint add_scan_from_1 (fuel : nat) (fmt : string) (exposure : nat)
    (exps : list Exposure) : option (list Exposure) :=
  match fuel with
  | O => None
  | S fuel' =>
      let fname := snprintf fmt exposure in
      let exp := Exposure_new fname in
      if negb (access_F_OK fname) then Some exps
      else add_scan_from_1 fuel' fmt (S exposure) (exps ++ [exp])
  end.

Definition ExposureSeries_add (fuel : nat) (fmt : string) (s : ExposureSeries)
    : option ExposureSeries :=
  '(exps, success) ← add_scan_from_0 fuel fmt 0 (exposures s) false;
  if negb success then
    (* Maybe the sequence starts at 1? *)
    exps' ← add_scan_from_1 fuel fmt 1 exps;
    Some (set_exposures exps' s)
  else Some (set_exposures exps s).

(** *** [ExposureSeries::check] *)

(** The body of the loop over the Exif entries of one image. *)
Definition merge_attribute (md : gmap string string) (it : Exifdatum)
    : gmap string string :=
  if bool_decide (100 < value_size it)%Z then md (* Reject huge attributes *)
  else
    let value := toString it in
    match md !! key it with
    | Some current =>
        if bool_decide (value = current) then md
        else <[key it := current +:+ "; " +:+ value]> md
    | None => <[key it := value]> md
    end.

Definition collect_metadata (exifData : ExifData) (md : gmap string string)
    : gmap string string :=
  foldl merge_attribute md (entries exifData).

(** The local variables [isoSpeed] and [aperture] of [check], the
    [metadata] of the series and the warnings written so far. *)
Record CheckState := mkCheckState {
  isoSpeed : float;
  aperture : float;
  collected : gmap string string;
  cerr : list string
}.

Definition warn_exposure_mode (fname : string) : string :=
  "Warning: image " +:+ quoted fname +:+ " was *not* taken in manual exposure mode!".
Definition warn_focus_mode (fname : string) : string :=
  "Warning: image " +:+ quoted fname +:+ " was *not* taken in manual focus mode!".

(** One iteration of the loop over the frames, at index [idx]. *)
Definition check_exposure (idx : nat) (exp : Exposure) (st : CheckState)
    : result (Exposure * CheckState) :=
  exifData ← found (ImageFactory_open (filename exp)) (DecodeError (filename exp));
  let md := collect_metadata exifData (collected st) in
  it ← found (findKey "Exif.Photo.ShutterSpeedValue" exifData)
             (MissingFieldError (filename exp) ShutterSpeedValue);
  let exp := set_exposure (std_pow2 (SFopp (toFloat it))) exp in
  it ← found (Exiv2_exposureTime exifData)
             (MissingFieldError (filename exp) ExposureTime);
  let exp := set_shown_exposure (toFloat it) exp in
  (* Fail if the images use different ISO values *)
  it ← found (Exiv2_isoSpeed exifData) (MissingFieldError (filename exp) ISOSpeed);
  iso ← (if bool_decide (idx = 0) then Ok (toFloat it)
         else if float_ne (isoSpeed st) (toFloat it)
              then Throw (InconsistentSettingsError (filename exp) ISOSpeed)
              else Ok (isoSpeed st));
  (* Fail if the images use different aperture settings *)
  it ← found (Exiv2_fNumber exifData) (MissingFieldError (filename exp) FNumber);
  ap ← (if bool_decide (idx = 0) then Ok (toFloat it)
        else if float_ne (aperture st) (toFloat it)
             then Throw (InconsistentSettingsError (filename exp) FNumber)
             else Ok (aperture st));
  (* Check for exposure mode, possibly warn *)
  it ← found (Exiv2_exposureMode exifData)
             (MissingFieldError (filename exp) ExposureMode);
  let log := if bool_decide (print it = "Manual") then cerr st
             else cerr st ++ [warn_exposure_mode (filename exp)] in
  (* Canon cameras: also check the focus mode and possibly warn *)
  let log := match findKey "Exif.CanonCs.FocusMode" exifData with
             | Some it => if bool_decide (print it = "Manual focus") then log
                          else log ++ [warn_focus_mode (filename exp)]
             | None => log
             end in
  Ok (exp, mkCheckState iso ap md log).

(** The loop over the frames, from index [idx] on. *)
Fixpoint check_loop (idx : nat) (exps : list Exposure) (st : CheckState)
    : result (list Exposure * CheckState) :=
  match exps with
  | [] => Ok ([], st)
  | exp :: rest =>
      '(exp', st') ← check_exposure idx exp st;
      '(rest', st'') ← check_loop (S idx) rest st';
      Ok (exp' :: rest', st'')
  end.

Definition exposure_lt (a b : Exposure) : bool := float_lt (exposure a) (exposure b).
Definition exposure_eq (a b : Exposure) : bool := float_eq (exposure a) (exposure b).

Definition check_init (s : ExposureSeries) : CheckState :=
  mkCheckState (f32_of_int (-1)) (f32_of_int (-1)) (metadata s) [].

(** [check] returns the validated series and the warnings it wrote. *)
Definition ExposureSeries_check (s : ExposureSeries)
    : result (ExposureSeries * list string) :=
  '(exps, st) ← check_loop 0 (exposures s) (check_init s);
  let sorted := std_sort exposure_lt exps in
  match std_adjacent_find exposure_eq sorted with
  | Some it => Throw (DuplicateExposureError it)
  | None => Ok (set_metadata (collected st) (set_exposures sorted s), cerr st)
  end.

(** *** [ExposureSeries::load] *)

(** The sample minus [offset], times [factor]: the difference is taken in
    [int], converted to [float] and multiplied in single precision. *)
Definition normalize_sample (offset : Z) (factor : float) (sample : Z) : float :=
  f32_mul (f32_of_int (sample - offset)) factor.

(** The normalization loops, over the rows and over the pixels of a row:
    [None] when a sample is read outside the decoded data. *)
Definition normalize_row (raw : RawImage) (offset : Z) (factor : float) (y : nat)
    : option (list float) :=
  let pitch := pitch raw / 2 in
  mapM (fun x => normalize_sample offset factor <$> getData raw !! (y * pitch + x))
       (seq 0 (dim_x raw)).

Definition normalize (raw : RawImage) : option (list float) :=
  let offset := to_uint16 (blackLevel raw) in
  let factor := f32_div (f32_of_int 1) (f32_of_int (whitePoint raw - offset)) in
  rows ← mapM (normalize_row raw offset factor) (seq 0 (dim_y raw));
  Some (concat rows).

(** One iteration of the loop over the frames; [dims] is the width and
    height of the series. *)
Definition load_exposure (i : nat) (exp : Exposure) (dims : nat * nat)
    : result (Exposure * (nat * nat)) :=
  match RawSpeed_decode (filename exp) with
  | NoDecoder => Throw (DecodeError (filename exp))
  | DecoderFailed what => Throw (RawSpeedError what) (* not caught, passes through *)
  | DecodedRaw raw =>
      if bool_decide (subsampling_x raw ≠ 1%Z ∨ subsampling_y raw ≠ 1%Z) then
        Throw (UnsupportedFormatError Subsampled)
      else if bool_decide (getDataType raw ≠ TYPE_USHORT16) then
        Throw (UnsupportedFormatError Not16Bit)
      else if negb (isCFA raw) then
        Throw (UnsupportedFormatError NoColorFilterArray)
      else
        let dims := if bool_decide (i = 0) then (dim_x raw, dim_y raw) else dims in
        match normalize raw with
        | Some img => Ok (set_image img exp, dims)
        | None => Undefined
        end
  end.

(** The frames are decoded by a parallel loop whose iterations share
    nothing but the progress output; they are taken in index order.  When
    every frame loads this is exact, whatever the schedule.  When a frame
    fails it is the sequential reading of the loop: the error of the lowest
    failing index comes out.  Run in parallel, which failing iteration
    throws first depends on the schedule, and an exception that leaves the
    parallel region ends the program; what is stated of a failing [load]
    beyond the fact that it does not complete is stated of this reading. *)
Fixpoint load_loop (i : nat) (exps : list Exposure) (dims : nat * nat)
    : result (list Exposure * (nat * nat)) :=
  match exps with
  | [] => Ok ([], dims)
  | exp :: rest =>
      '(exp', dims') ← load_exposure i exp dims;
      '(rest', dims'') ← load_loop (S i) rest dims';
      Ok (exp' :: rest', dims'')
  end.

(** [(size_t) (npix*0.999)] *)
Definition percentile_index (npix : nat) : nat :=
  Z.to_nat (double_to_size_t (f64_mul (f64_of_int (Z.of_nat npix)) double_0_999)).

(** The saturation estimate from the image of the last exposure. *)
Definition estimate_saturation (npix : nat) (img : list float) : result float :=
  if bool_decide (length img < npix) then Undefined (* memcpy reads past the image *)
  else
    let temp := take npix img in
    let percentile := percentile_index npix in
    match std_nth_element float_lt temp percentile !! percentile with
    | Some v => Ok v
    | None => Undefined
    end.

Definition ExposureSeries_load (s : ExposureSeries) : result ExposureSeries :=
  '(exps, (w, h)) ← load_loop 0 (exposures s) (width s, height s);
  let npix := w * h in
  match last exps with
  | None => Undefined (* exposures[size()-1] of an empty series *)
  | Some e =>
      match image e with
      | None => Undefined
      | Some img =>
          sat ← estimate_saturation npix img;
          Ok (mkSeries exps (metadata s) w h sat)
      end
  end.
End Operations.

(** ** Notions the properties are stated with *)

(** The position of a float that is not NaN in the order of [SFcompare]:
    class (infinities, signs, zero), then exponent, then mantissa. *)
Definition float_key (a : float) : Z * Z * Z :=
  match a with
  | S754_infinity true => (-2, 0, 0)
  | S754_finite true m e => (-1, - e, - Z.pos m)
  | S754_zero _ => (0, 0, 0)
  | S754_nan => (0, 0, 0)
  | S754_finite false m e => (1, e, Z.pos m)
  | S754_infinity false => (2, 0, 0)
  end%Z.

Definition key_lt (k1 k2 : Z * Z * Z) : Prop :=
  (k1.1.1 < k2.1.1 ∨
   (k1.1.1 = k2.1.1 ∧ (k1.1.2 < k2.1.2 ∨ (k1.1.2 = k2.1.2 ∧ k1.2 < k2.2))))%Z.

Definition key_eq (k1 k2 : Z * Z * Z) : Prop :=
  (k1.1.1 = k2.1.1 ∧ k1.1.2 = k2.1.2 ∧ k1.2 = k2.2)%Z.

(** What is left of [m] after [k] shifts to the right: the quotient, and
    the remainder in the round and sticky bits. *)
Definition shifted (m : Z) (k : nat) (mrs : shr_record) : Prop :=
  (shr_m mrs = m / 2 ^ Z.of_nat k ∧
   ∃ low, m mod 2 ^ Z.of_nat k = (if shr_r mrs then 2 ^ (Z.of_nat k - 1) else 0) + low ∧
          0 ≤ low ∧ (low < 2 ^ (Z.of_nat k - 1) ∨ (k = 0%nat ∧ shr_r mrs = false)) ∧
          (shr_s mrs = true ↔ 0 < low))%Z.

(** Orders read off a comparison [lt] and an equality test [eq]. *)
Definition not_gt {A} (lt : A → A → bool) (a b : A) : Prop := lt b a = false.
Definition is_lt {A} (lt : A → A → bool) (a b : A) : Prop := lt a b = true.
Definition differ {A} (eq : A → A → bool) (a b : A) : Prop := eq a b = false.

Definition not_nan (a : float) : Prop := is_nan a = false.

(** The black level and the scale factor [load] normalizes a frame with. *)
Definition black_offset (raw : RawImage) : Z := to_uint16 (blackLevel raw).
Definition scale_factor (raw : RawImage) : float :=
  f32_div (f32_of_int 1) (f32_of_int (whitePoint raw - black_offset raw)).

(** The sensor data [load] accepts. *)
Definition supported (raw : RawImage) : Prop :=
  subsampling_x raw = 1%Z ∧ subsampling_y raw = 1%Z ∧
  getDataType raw = TYPE_USHORT16 ∧ isCFA raw = true.

(** The exposure time of the frame is a number. *)
Definition timed (e : Exposure) : Prop := not_nan (exposure e).

Section Notions.
Context `{Collaborators}.

(** The warnings one frame adds to [cerr]. *)
Definition frame_warnings (fname : string) (d : ExifData) (em : Exifdatum) : list string :=
  (if bool_decide (print em = "Manual") then [] else [warn_exposure_mode fname]) ++
  match findKey "Exif.CanonCs.FocusMode" d with
  | Some it => if bool_decide (print it = "Manual focus") then [] else [warn_focus_mode fname]
  | None => []
  end.

(** The metadata a frame must carry for [check_exposure] to examine it
    to the end. *)
Record complete (d : ExifData) (sh et iso fn em : Exifdatum) : Prop := {
  has_shutter : findKey "Exif.Photo.ShutterSpeedValue" d = Some sh;
  has_time : Exiv2_exposureTime d = Some et;
  has_iso : Exiv2_isoSpeed d = Some iso;
  has_fnumber : Exiv2_fNumber d = Some fn;
  has_mode : Exiv2_exposureMode d = Some em
}.

(** The frame as [check_exposure] leaves it. *)
Definition checked (exp : Exposure) (sh et : Exifdatum) : Exposure :=
  mkExposure (filename exp) (std_pow2 (SFopp (toFloat sh))) (toFloat et) (image exp).

(** The frames [add] makes for the indices [k], ..., [k + d - 1]. *)
Definition numbered (fmt : string) (k d : nat) : list Exposure :=
  (λ i, Exposure_new (snprintf fmt i)) <$> seq k d.

(** The exposure time the metadata of a frame gives. *)
Definition derived_time (e : Exposure) : option float :=
  exifData ← ImageFactory_open (filename e);
  it ← findKey "Exif.Photo.ShutterSpeedValue" exifData;
  Some (std_pow2 (SFopp (toFloat it))).
End Notions.

(** ** A studio session, for the examples

    A file system with a few bracketed series, the metadata and the decoded
    sensor data of their frames.  Shutter speeds are whole APEX values, on
    which [exact_pow2] is the power of two. *)
Module Studio.
Fixpoint assoc {V} (k : string) (l : list (string * V)) : option V :=
  match l with
  | [] => None
  | (k', v) :: l' => if bool_decide (k' = k) then Some v else assoc k l'
  end.

(** [fmt] with its first [%d] replaced by [n]. *)
Fixpoint subst_d (fmt : string) (n : string) : string :=
  match fmt with
  | String "%" (String "d" rest) => n +:+ rest
  | String c rest => String c (subst_d rest n)
  | EmptyString => EmptyString
  end.

Definition exact_pow2 (x : float) : float :=
  match x with
  | S754_zero _ => f32_of_int 1
  | S754_finite s m (Zneg e) =>
      if bool_decide (Z.pos m mod 2 ^ Z.pos e = 0)%Z then
        let n := (Z.pos m / 2 ^ Z.pos e)%Z in
        binary_normalize 24 128 1 (if s then - n else n)%Z false
      else S754_nan
  | _ => S754_nan
  end.

(** The metadata of a frame taken at shutter speed [apex], ISO [iso],
    f/8, in exposure mode [mode]. *)
Definition shutter (apex : Z) : Exifdatum :=
  mkDatum "Exif.Photo.ShutterSpeedValue" 8 (pretty apex +:+ "/1") (f32_of_int apex)
          ("1/" +:+ pretty (2 ^ apex)%Z +:+ " s").
Definition time (apex : Z) : Exifdatum :=
  mkDatum "Exif.Photo.ExposureTime" 8 ("1/" +:+ pretty (2 ^ apex)%Z)
          (f32_div (f32_of_int 1) (f32_of_int (2 ^ apex))) ("1/" +:+ pretty (2 ^ apex)%Z +:+ " s").
Definition speed (iso : Z) : Exifdatum :=
  mkDatum "Exif.Photo.ISOSpeedRatings" 2 (pretty iso) (f32_of_int iso) (pretty iso).
Definition fnumber (f : Z) : Exifdatum :=
  mkDatum "Exif.Photo.FNumber" 8 (pretty f +:+ "/1") (f32_of_int f) ("F" +:+ pretty f).
Definition mode (m : string) : Exifdatum :=
  mkDatum "Exif.Photo.ExposureMode" 2 (if bool_decide (m = "Manual") then "1" else "0")
          (f32_of_int (if bool_decide (m = "Manual") then 1 else 0)) m.
(** Six rationals: 48 bytes, a text of more than a hundred characters. *)
Definition chromaticities : Exifdatum :=
  mkDatum "Exif.Image.PrimaryChromaticities" 48
    "64000000/100000000 33000000/100000000 30000000/100000000 60000000/100000000 15000000/100000000 6000000/100000000"
    (f32_div (f32_of_int 64) (f32_of_int 100))
    "64000000/100000000 33000000/100000000 30000000/100000000 60000000/100000000 15000000/100000000 6000000/100000000".
(** A maker note of 4096 bytes. *)
Definition makernote : Exifdatum :=
  mkDatum "Exif.Photo.MakerNote" 4096 "(Binary value suppressed)" (S754_zero false)
          "(Binary value suppressed)".

Definition frame (apex iso : Z) (m : string) : ExifData :=
  mkExif [shutter apex; time apex; speed iso; fnumber 8; mode m; makernote]
         (Some (time apex)) (Some (speed iso)) (Some (fnumber 8)) (Some (mode m)).

Definition without_mode (d : ExifData) : ExifData :=
  mkExif (entries d) (Exiv2_exposureTime d) (Exiv2_isoSpeed d) (Exiv2_fNumber d) None.
Definition without_shutter (d : ExifData) : ExifData :=
  mkExif (List.tail (entries d)) (Exiv2_exposureTime d) (Exiv2_isoSpeed d)
         (Exiv2_fNumber d) (Exiv2_exposureMode d).

Definition files : list (string * ExifData) :=
  [ ("img_0.cr2", frame 5 100 "Manual");
    ("img_1.cr2", frame 7 100 "Manual");
    ("img_2.cr2", frame 3 100 "Manual");
    ("dsc_1.cr2", frame 6 200 "Manual");
    ("dsc_2.cr2", frame 4 200 "Auto");
    ("single.cr2", frame 5 100 "Manual");
    ("iso_0.cr2", frame 5 100 "Manual");
    ("iso_1.cr2", frame 7 200 "Manual");
    ("dup_0.cr2", frame 5 100 "Manual");
    ("dup_1.cr2", frame 7 100 "Manual");
    ("dup_2.cr2", frame 5 100 "Manual");
    ("nomode.cr2", without_mode (frame 5 100 "Manual"));
    ("noshutter.cr2", without_shutter (frame 5 100 "Manual")) ].

(** 2x2 sensor data in rows of four samples: the last two of a row are
    padding. *)
Definition sensor (samples : list Z) : RawImage :=
  mkRaw 1 1 TYPE_USHORT16 true 2 2 8 100 4100 samples.

Definition decoded : list (string * RawImage) :=
  [ ("img_0.cr2", sensor [600; 100; 7; 7; 1100; 350; 7; 7]%Z);
    ("img_1.cr2", sensor [225; 100; 7; 7; 350; 162; 7; 7]%Z);
    ("img_2.cr2", sensor [2100; 100; 7; 7; 4100; 1100; 7; 7]%Z);
    ("single.cr2", sensor [105; 100; 7; 7; 4100; 1100; 7; 7]%Z);
    ("sub.cr2", mkRaw 2 1 TYPE_USHORT16 true 2 2 8 100 4100 [1; 2; 3; 4; 5; 6; 7; 8]%Z);
    ("f32.cr2", mkRaw 1 1 TYPE_FLOAT32 true 2 2 8 100 4100 [1; 2; 3; 4; 5; 6; 7; 8]%Z);
    ("mono.cr2", mkRaw 1 1 TYPE_USHORT16 false 2 2 8 100 4100 [1; 2; 3; 4; 5; 6; 7; 8]%Z) ].

#[export] Instance libs : Collaborators := {|
  access_F_OK f := bool_decide (is_Some (assoc f files));
  snprintf fmt n := subst_d fmt (pretty n);
  ImageFactory_open f := assoc f files;
  std_pow2 := exact_pow2;
  RawSpeed_decode f := match assoc f decoded with
                       | Some raw => DecodedRaw raw
                       | None => NoDecoder
                       end
|}.

Definition series (l : list string) : ExposureSeries :=
  mkSeries (Exposure_new <$> l) ∅ 0 0 (S754_zero false).

Definition names (s : ExposureSeries) : list string := filename <$> exposures s.

(** A bracket of three frames in the order of discovery, and as [check]
    leaves it. *)
Definition bracket : ExposureSeries := series ["img_0.cr2"; "img_1.cr2"; "img_2.cr2"].
Definition validated : ExposureSeries := Eval vm_compute in
  match ExposureSeries_check bracket with Ok (s, _) => s | _ => bracket end.
(** Series that [check] or [load] turn down. *)
Definition two_speeds : ExposureSeries := series ["iso_0.cr2"; "iso_1.cr2"].
Definition twice : ExposureSeries := series ["dup_0.cr2"; "dup_1.cr2"; "dup_2.cr2"].
Definition subsampled : ExposureSeries := series ["img_0.cr2"; "sub.cr2"].
(** A bracket whose second frame was taken in automatic exposure mode. *)
Definition automatic : ExposureSeries := series ["dsc_1.cr2"; "dsc_2.cr2"].
End Studio.

(** ** Notions for the further properties *)

(** The errors one iteration of the loop of [check] can raise: all name the
    file of the frame. *)
Definition frame_error (e : Exposure) (err : error) : Prop :=
  err = DecodeError (filename e) ∨
  ∃ fld, err = MissingFieldError (filename e) fld ∨
         err = InconsistentSettingsError (filename e) fld.

(** The frame was taken in manual exposure mode and, where the camera
    records a focus mode, with manual focus. *)
Definition manual `{Collaborators} (e : Exposure) : Prop :=
  ∃ d em, ImageFactory_open (filename e) = Some d ∧
          Exiv2_exposureMode d = Some em ∧ print em = "Manual" ∧
          ∀ it, findKey "Exif.CanonCs.FocusMode" d = Some it → print it = "Manual focus".

(** The warnings of a frame that [check] can examine. *)
Definition warnings_of `{Collaborators} (e : Exposure) (fw : list string) : Prop :=
  ∃ d em, ImageFactory_open (filename e) = Some d ∧
          Exiv2_exposureMode d = Some em ∧ fw = frame_warnings (filename e) d em.

(** Every sample the normalization loops read lies inside the decoded data. *)
Definition in_bounds (raw : RawImage) : Prop :=
  ∀ y x, y < dim_y raw → x < dim_x raw → y * (pitch raw / 2) + x < length (getData raw).

(** RawSpeed gives no image for the file: it has no decoder for it, or the
    decoder throws. *)
Definition undecodable `{Collaborators} (fname : string) : Prop :=
  RawSpeed_decode fname = NoDecoder ∨ ∃ what, RawSpeed_decode fname = DecoderFailed what.

(** The frame as [load] leaves it. *)
Definition loaded `{Collaborators} (e e' : Exposure) : Prop :=
  ∃ raw img, RawSpeed_decode (filename e) = DecodedRaw raw ∧ supported raw ∧
             normalize raw = Some img ∧ e' = set_image img e.

#[global] Instance spec_float_eq_dec : EqDecision spec_float.
Proof. solve_decision. Defined.

(** [P] holds of the [n] integers from [lo] on. *)
Fixpoint all_from (P : Z → bool) (lo : Z) (n : nat) : bool :=
  match n with
  | O => true
  | S n' => P lo && all_from P (lo + 1)%Z n'
  end.

(** The largest float below one, [1 - 2^-24]. *)
Definition below_one : float := S754_finite false 16777215 (-24).

(** What normalization makes of the black level and of the white point when
    the white point lies [d] above the black level. *)
Definition levels_ok (d : Z) : bool :=
  let factor := f32_div (f32_of_int 1) (f32_of_int d) in
  bool_decide (f32_mul (f32_of_int 0) factor = S754_zero false)
  && (bool_decide (f32_mul (f32_of_int d) factor = f32_of_int 1)
      || bool_decide (f32_mul (f32_of_int d) factor = below_one)).

(** What normalization makes of a sample [d] above, or below, the black
    level when the white point is the black level. *)
Definition overflow_ok (d : Z) : bool :=
  let factor := f32_div (f32_of_int 1) (f32_of_int 0) in
  bool_decide (f32_mul (f32_of_int d) factor = S754_infinity false)
  && bool_decide (f32_mul (f32_of_int (- d)) factor = S754_infinity true).

(** The exposure time the metadata gives for the frame is a number. *)
Definition numeric_time `{Collaborators} (e : Exposure) : Prop :=
  ∀ t, derived_time e = Some t → is_nan t = false.

(** What [check] reads of a frame: the name of its file, and the image it
    carries along. *)
Definition frame_id (e : Exposure) : string * option (list float) :=
  (filename e, image e).

(** The frame as [check] leaves it, read off its file alone. *)
Definition frame_checked `{Collaborators} (id : string * option (list float))
    : option Exposure :=
  d ← ImageFactory_open id.1;
  sh ← findKey "Exif.Photo.ShutterSpeedValue" d;
  et ← Exiv2_exposureTime d;
  Some (mkExposure id.1 (std_pow2 (SFopp (toFloat sh))) (toFloat et) id.2).

(** The file carries the metadata [check] asks for, with the ISO speed
    [iso] and the f-number [fn]. *)
Definition agrees `{Collaborators} (iso fn : float) (fname : string) : Prop :=
  ∃ d sh et iso' fn' em,
    ImageFactory_open fname = Some d ∧ complete d sh et iso' fn' em ∧
    float_eq iso (toFloat iso') = true ∧ float_eq fn (toFloat fn') = true.

(** ** A second session, for further examples

    Frames of a camera that records the focus mode, frames whose shutter
    speed value is not a number, and a file the decoder gives up on. *)
Module Darkroom.
Definition focus (m : string) : Exifdatum :=
  mkDatum "Exif.CanonCs.FocusMode" 2 (if bool_decide (m = "Manual focus") then "3" else "0")
          (f32_of_int (if bool_decide (m = "Manual focus") then 3 else 0)) m.

(** The metadata of a frame taken at shutter speed [apex], ISO 100, f/8, in
    exposure mode [m] and focus mode [f]. *)
Definition canon (apex : Z) (m f : string) : ExifData :=
  mkExif [Studio.shutter apex; Studio.time apex; Studio.speed 100; Studio.fnumber 8;
          Studio.mode m; focus f]
         (Some (Studio.time apex)) (Some (Studio.speed 100)) (Some (Studio.fnumber 8))
         (Some (Studio.mode m)).

(** A shutter speed value without denominator. *)
Definition unset_shutter : Exifdatum :=
  mkDatum "Exif.Photo.ShutterSpeedValue" 8 "0/0" S754_nan "0/0".
Definition bulb : ExifData :=
  mkExif [unset_shutter; Studio.time 5; Studio.speed 100; Studio.fnumber 8;
          Studio.mode "Manual"]
         (Some (Studio.time 5)) (Some (Studio.speed 100)) (Some (Studio.fnumber 8))
         (Some (Studio.mode "Manual")).

Definition files : list (string * ExifData) :=
  [ ("eos_0.cr2", canon 5 "Manual" "One-shot AF");
    ("eos_1.cr2", canon 7 "Auto" "Manual focus");
    ("eos_2.cr2", canon 3 "Auto" "AI Servo AF");
    ("bulb_0.cr2", bulb);
    ("bulb_1.cr2", bulb) ].

Definition decoded : list (string * Decoded) :=
  [ ("eos_0.cr2", DecodedRaw (Studio.sensor [600; 100; 7; 7; 1100; 350; 7; 7]%Z));
    ("eos_1.cr2", DecoderFailed "Camera not supported (explicit). Sorry.") ].

#[export] Instance libs : Collaborators := {|
  access_F_OK f := bool_decide (is_Some (Studio.assoc f files));
  snprintf fmt n := Studio.subst_d fmt (pretty n);
  ImageFactory_open f := Studio.assoc f files;
  std_pow2 := Studio.exact_pow2;
  RawSpeed_decode f := default NoDecoder (Studio.assoc f decoded)
|}.

Definition series (l : list string) : ExposureSeries :=
  mkSeries (Exposure_new <$> l) ∅ 0 0 (S754_zero false).

(** A one-frame series that comes with a note of the f-number. *)
Definition annotated : ExposureSeries :=
  mkSeries [Exposure_new "img_0.cr2"] {["Exif.Photo.FNumber" := "4/1"]} 0 0 (S754_zero false).

(** Sensor data whose white point is the black level, and sensor data with
    the black level 0 and the white point 41. *)
Definition flat : RawImage :=
  mkRaw 1 1 TYPE_USHORT16 true 3 1 6 100 100 [100; 200; 50]%Z.
Definition narrow : RawImage :=
  mkRaw 1 1 TYPE_USHORT16 true 2 1 4 0 41 [0; 41]%Z.
End Darkroom.

(** ** Facts about the model *)

Lemma SFcompare_key a b :
  is_nan a = false → is_nan b = false →
  ∃ c, SFcompare a b = Some c ∧
       (c = Lt ↔ key_lt (float_key a) (float_key b)) ∧
       (c = Eq ↔ key_eq (float_key a) (float_key b)) ∧
       (c = Gt ↔ key_lt (float_key b) (float_key a)).
Proof.
  intros Ha Hb.
  destruct a as [sa|sa| |sa ma ea], b as [sb|sb| |sb mb eb]; try discriminate;
    try destruct sa; try destruct sb; simpl;
    try (eexists; split; [reflexivity|]; unfold key_lt, key_eq; simpl;
         repeat split; intros; try discriminate; try lia; congruence).
  - change (Pos.compare_cont Eq ma mb) with (Pos.compare ma mb).
    eexists; split; [reflexivity|]. unfold key_lt, key_eq; simpl.
    destruct (Z.compare_spec ea eb), (Pos.compare_spec ma mb); simpl;
      repeat split; intros; try discriminate; simplify_eq; try lia; try reflexivity.
  - change (Pos.compare_cont Eq ma mb) with (Pos.compare ma mb).
    eexists; split; [reflexivity|]. unfold key_lt, key_eq; simpl.
    destruct (Z.compare_spec ea eb), (Pos.compare_spec ma mb); simpl;
      repeat split; intros; try discriminate; simplify_eq; try lia; try reflexivity.
Qed.

(** [float_lt] and [float_eq] through the keys. *)
Lemma float_lt_key a b :
  is_nan a = false → is_nan b = false →
  float_lt a b = true ↔ key_lt (float_key a) (float_key b).
Proof.
  intros Ha Hb. destruct (SFcompare_key a b Ha Hb) as (c & Hc & Hlt & _ & _).
  unfold float_lt, SFltb. rewrite Hc, <- Hlt. destruct c; split; congruence.
Qed.

Lemma float_eq_key a b :
  is_nan a = false → is_nan b = false →
  float_eq a b = true ↔ key_eq (float_key a) (float_key b).
Proof.
  intros Ha Hb. destruct (SFcompare_key a b Ha Hb) as (c & Hc & _ & Heq & _).
  unfold float_eq, SFeqb. rewrite Hc, <- Heq. destruct c; split; congruence.
Qed.

Ltac float_keys :=
  repeat match goal with
    | H : float_lt ?a ?b = true |- _ => apply float_lt_key in H; [|assumption..]
    | H : float_eq ?a ?b = true |- _ => apply float_eq_key in H; [|assumption..]
    | H : float_lt ?a ?b = false |- _ =>
        apply not_true_iff_false in H; rewrite float_lt_key in H by assumption
    | H : float_eq ?a ?b = false |- _ =>
        apply not_true_iff_false in H; rewrite float_eq_key in H by assumption
    | |- float_lt ?a ?b = true => apply float_lt_key; [assumption..|]
    | |- float_eq ?a ?b = true => apply float_eq_key; [assumption..|]
    | |- float_lt ?a ?b = false =>
        apply not_true_iff_false; rewrite float_lt_key by assumption
    | |- float_eq ?a ?b = false =>
        apply not_true_iff_false; rewrite float_eq_key by assumption
    end;
  unfold key_lt, key_eq in *; lia.

Section FloatOrder.
Variables a b c : float.
Hypothesis Ha : is_nan a = false.
Hypothesis Hb : is_nan b = false.
Hypothesis Hc : is_nan c = false.

Lemma float_lt_asym : float_lt a b = true → float_lt b a = false.
Proof using Ha Hb. intros. float_keys. Qed.

Lemma float_le_trans :
  float_lt b a = false → float_lt c b = false → float_lt c a = false.
Proof using Ha Hb Hc. intros. float_keys. Qed.

Lemma float_le_neq_lt :
  float_lt b a = false → float_eq a b = false → float_lt a b = true.
Proof using Ha Hb. intros. float_keys. Qed.

Lemma float_lt_le_trans :
  float_lt a b = true → float_lt c b = false → float_lt a c = true.
Proof using Ha Hb Hc. intros. float_keys. Qed.

Lemma float_lt_neq : float_lt a b = true → float_eq a b = false.
Proof using Ha Hb. intros. float_keys. Qed.

End FloatOrder.


Section SortFacts.
Context {A : Type} (lt eq : A → A → bool) (P : A → Prop).

Lemma sort_insert_perm x l : sort_insert lt x l ≡ₚ x :: l.
Proof.
  induction l as [|y l IH]; simpl; [done|].
  destruct (lt y x); [|done]. rewrite IH. apply perm_swap.
Qed.

Lemma std_sort_perm l : std_sort lt l ≡ₚ l.
Proof.
  induction l as [|x l IH]; simpl; [done|].
  rewrite sort_insert_perm. by rewrite IH.
Qed.

Lemma std_adjacent_find_Some l a :
  std_adjacent_find eq l = Some a →
  ∃ l1 b l2, l = l1 ++ a :: b :: l2 ∧ eq a b = true.
Proof.
  induction l as [|x [|y l] IH]; simpl; try done.
  destruct (eq x y) eqn:E.
  - intros [= ->]. by exists [], y, l.
  - intros Hf. destruct (IH Hf) as (l1 & b & l2 & -> & Hb).
    by exists (x :: l1), b, l2.
Qed.

Lemma distinct_adjacent_find l :
  ForallOrdPairs (differ eq) l → std_adjacent_find eq l = None.
Proof.
  induction 1 as [|a l Ha _ IH]; [done|].
  destruct l as [|b l]; [done|]. simpl.
  apply Forall_cons in Ha as [Hab _]. unfold differ in Hab. by rewrite Hab.
Qed.

Lemma ForallOrdPairs_lookup (R : A → A → Prop) l i j a b :
  ForallOrdPairs R l → i < j → l !! i = Some a → l !! j = Some b → R a b.
Proof.
  intros HR. revert i j. induction HR as [|x l Hx _ IH]; intros i j Hij Hi Hj.
  - done.
  - destruct j as [|j]; [lia|]. destruct i as [|i]; simpl in *.
    + injection Hi as ->. rewrite Forall_forall in Hx. apply Hx.
      eapply list_elem_of_lookup_2, Hj.
    + apply (IH i j); [lia|done..].
Qed.

Lemma ForallOrdPairs_perm (R : A → A → Prop) l l' :
  (∀ a b, R a b → R b a) → l ≡ₚ l' → ForallOrdPairs R l → ForallOrdPairs R l'.
Proof.
  intros Hsym Hp. induction Hp as [|x l l' Hp IH|x y l|l l' l'' _ IH1 _ IH2]; intros HR.
  - done.
  - inversion_clear HR as [|? ? Hx Hl]. constructor; [|by apply IH].
    by rewrite <- Hp.
  - inversion_clear HR as [|? ? Hy Hl]. inversion_clear Hl as [|? ? Hx Hl'].
    apply Forall_cons in Hy as [Hyx Hy].
    constructor; [|by constructor]. constructor; [by apply Hsym|done].
  - auto.
Qed.

Hypothesis lt_asym : ∀ a b, P a → P b → lt a b = true → lt b a = false.
Hypothesis le_trans :
  ∀ a b c, P a → P b → P c → lt b a = false → lt c b = false → lt c a = false.

Lemma sort_insert_sorted x l :
  P x → Forall P l → StronglySorted (not_gt lt) l →
  StronglySorted (not_gt lt) (sort_insert lt x l).
Proof.
  intros Hx HP Hs. induction Hs as [|y l Hs IH Hy]; simpl.
  - repeat constructor.
  - apply Forall_cons in HP as [HPy HP]. destruct (lt y x) eqn:E.
    + constructor; [by apply IH|].
      rewrite sort_insert_perm. constructor; [|done]. by apply lt_asym.
    + constructor; [by constructor|]. constructor; [done|].
      rewrite Forall_forall in Hy, HP. apply Forall_forall. intros z Hz.
      apply (le_trans x y z); auto. by apply Hy.
Qed.

Lemma std_sort_sorted l : Forall P l → StronglySorted (not_gt lt) (std_sort lt l).
Proof.
  induction l as [|x l IH]; simpl; [constructor|].
  intros [Hx HP]%Forall_cons. apply sort_insert_sorted; auto.
  by rewrite std_sort_perm.
Qed.

Hypothesis le_neq_lt :
  ∀ a b, P a → P b → lt b a = false → eq a b = false → lt a b = true.
Hypothesis lt_le_trans :
  ∀ a b c, P a → P b → P c → lt a b = true → lt c b = false → lt a c = true.
Hypothesis lt_neq : ∀ a b, P a → P b → lt a b = true → eq a b = false.

Lemma sorted_adjacent_find_None l :
  Forall P l → StronglySorted (not_gt lt) l → std_adjacent_find eq l = None →
  StronglySorted (is_lt lt) l.
Proof.
  intros HP Hs. induction Hs as [|a l Hs IH Ha]; [constructor|].
  apply Forall_cons in HP as [HPa HP]. destruct l as [|b l]; [by repeat constructor|].
  simpl. destruct (eq a b) eqn:E; [done|]. intros Hf.
  constructor; [by apply IH|].
  apply Forall_cons in Ha as [Hab Ha]. apply Forall_cons in HP as [HPb HP].
  assert (Hlt : lt a b = true) by by apply le_neq_lt.
  constructor; [done|].
  inversion_clear Hs as [|? ? _ Hb].
  rewrite Forall_forall in Hb, HP. apply Forall_forall. intros z Hz.
  apply (lt_le_trans a b z); auto. by apply Hb.
Qed.

Lemma strictly_sorted_distinct l :
  Forall P l → StronglySorted (is_lt lt) l → ForallOrdPairs (differ eq) l.
Proof.
  intros HP Hs. induction Hs as [|a l Hs IH Ha]; [constructor|].
  apply Forall_cons in HP as [HPa HP]. constructor; [|by apply IH].
  rewrite Forall_forall in Ha, HP. apply Forall_forall. intros z Hz.
  apply lt_neq; auto. by apply Ha.
Qed.
End SortFacts.

Section CheckFacts.
Context `{Collaborators}.

Lemma check_exposure_first exp st d sh et iso fn em :
  ImageFactory_open (filename exp) = Some d →
  complete d sh et iso fn em →
  check_exposure 0 exp st =
    Ok (checked exp sh et,
        mkCheckState (toFloat iso) (toFloat fn) (collect_metadata d (collected st))
                     (cerr st ++ frame_warnings (filename exp) d em)).
Proof.
  intros Hopen [Hsh Het Hiso Hfn Hem]. unfold check_exposure, frame_warnings.
  rewrite Hopen; simpl. rewrite Hsh; simpl. rewrite Het; simpl.
  rewrite Hiso; simpl. rewrite Hfn; simpl. rewrite Hem; simpl.
  unfold checked. do 3 f_equal.
  destruct (bool_decide (print em = "Manual")), (findKey "Exif.CanonCs.FocusMode" d) as [it|];
    try destruct (bool_decide (print it = "Manual focus"));
    simpl; rewrite ?app_nil_r, <- ?app_assoc; reflexivity.
Qed.

Lemma check_exposure_next idx exp st d sh et iso fn em :
  idx ≠ 0 →
  ImageFactory_open (filename exp) = Some d →
  complete d sh et iso fn em →
  float_eq (isoSpeed st) (toFloat iso) = true →
  float_eq (aperture st) (toFloat fn) = true →
  check_exposure idx exp st =
    Ok (checked exp sh et,
        mkCheckState (isoSpeed st) (aperture st) (collect_metadata d (collected st))
                     (cerr st ++ frame_warnings (filename exp) d em)).
Proof.
  intros Hidx Hopen [Hsh Het Hiso Hfn Hem] Hi Ha. unfold check_exposure, frame_warnings.
  rewrite Hopen; simpl. rewrite Hsh; simpl. rewrite Het; simpl.
  rewrite Hiso; simpl. rewrite Hfn; simpl. rewrite Hem; simpl.
  rewrite (bool_decide_eq_false_2 _ Hidx). unfold float_ne. rewrite Hi; simpl. rewrite Ha; simpl.
  unfold checked. do 3 f_equal.
  destruct (bool_decide (print em = "Manual")), (findKey "Exif.CanonCs.FocusMode" d) as [it|];
    try destruct (bool_decide (print it = "Manual focus"));
    simpl; rewrite ?app_nil_r, <- ?app_assoc; reflexivity.
Qed.

Lemma check_exposure_Ok idx exp st exp' st' :
  check_exposure idx exp st = Ok (exp', st') →
  ∃ d sh et iso fn em,
    ImageFactory_open (filename exp) = Some d ∧
    complete d sh et iso fn em ∧
    (idx ≠ 0 → float_eq (isoSpeed st) (toFloat iso) = true ∧
               float_eq (aperture st) (toFloat fn) = true) ∧
    exp' = checked exp sh et ∧
    st' = mkCheckState
            (if bool_decide (idx = 0) then toFloat iso else isoSpeed st)
            (if bool_decide (idx = 0) then toFloat fn else aperture st)
            (collect_metadata d (collected st))
            (cerr st ++ frame_warnings (filename exp) d em).
Proof.
  intros Hok. pose proof Hok as Hok'. unfold check_exposure in Hok'.
  destruct (ImageFactory_open (filename exp)) as [d|] eqn:Hopen; simpl in Hok'; [|discriminate].
  destruct (findKey "Exif.Photo.ShutterSpeedValue" d) as [sh|] eqn:Hsh; simpl in Hok'; [|discriminate].
  destruct (Exiv2_exposureTime d) as [et|] eqn:Het; simpl in Hok'; [|discriminate].
  destruct (Exiv2_isoSpeed d) as [iso|] eqn:Hiso; simpl in Hok'; [|discriminate].
  destruct (Exiv2_fNumber d) as [fn|] eqn:Hfn.
  2:{ destruct (bool_decide (idx = 0)); simpl in Hok'; [discriminate|].
      destruct (float_ne (isoSpeed st) (toFloat iso)); simpl in Hok'; discriminate. }
  destruct (Exiv2_exposureMode d) as [em|] eqn:Hem.
  2:{ destruct (bool_decide (idx = 0)); simpl in Hok'; [discriminate|].
      destruct (float_ne (isoSpeed st) (toFloat iso)); simpl in Hok'; [discriminate|].
      destruct (float_ne (aperture st) (toFloat fn)); simpl in Hok'; discriminate. }
  exists d, sh, et, iso, fn, em.
  assert (Hc : complete d sh et iso fn em) by (constructor; assumption).
  destruct (decide (idx = 0)) as [->|Hidx].
  - rewrite (check_exposure_first exp st d sh et iso fn em Hopen Hc) in Hok.
    inversion Hok; subst. repeat split; try done.
  - rewrite (bool_decide_eq_false_2 _ Hidx) in *. unfold float_ne in Hok'.
    destruct (float_eq (isoSpeed st) (toFloat iso)) eqn:Hi; simpl in Hok'; [|discriminate].
    destruct (float_eq (aperture st) (toFloat fn)) eqn:Ha; simpl in Hok'; [|discriminate].
    rewrite (check_exposure_next idx exp st d sh et iso fn em Hidx Hopen Hc Hi Ha) in Hok.
    inversion Hok; subst. repeat split; try done.
Qed.
End CheckFacts.

#[global] Arguments check_exposure : simpl never.

Section CheckLoopFacts.
Context `{Collaborators}.

Lemma check_exposure_derived idx e st e' st' :
  check_exposure idx e st = Ok (e', st') →
  filename e' = filename e ∧ derived_time e = Some (exposure e') ∧ image e' = image e.
Proof.
  intros (d & sh & et & iso & fn & em & Hopen & [Hsh _ _ _ _] & _ & -> & _)%check_exposure_Ok.
  unfold derived_time. rewrite Hopen; simpl. rewrite Hsh; simpl. done.
Qed.

Lemma check_loop_cons idx e rest st exps' st' :
  check_loop idx (e :: rest) st = Ok (exps', st') →
  ∃ e' st1 rest', check_exposure idx e st = Ok (e', st1) ∧
                  check_loop (S idx) rest st1 = Ok (rest', st') ∧ exps' = e' :: rest'.
Proof.
  simpl. destruct (check_exposure idx e st) as [[e' st1]| |]; simpl; try done.
  destruct (check_loop (S idx) rest st1) as [[rest' st2]| |] eqn:E; simpl; try done.
  intros [= <- <-]. by exists e', st1, rest'.
Qed.

Lemma check_loop_derived idx exps st exps' st' :
  check_loop idx exps st = Ok (exps', st') →
  Forall2 (λ e e', filename e' = filename e ∧ derived_time e = Some (exposure e')
                   ∧ image e' = image e) exps exps'.
Proof.
  revert idx st exps' st'. induction exps as [|e rest IH]; intros idx st exps' st'.
  - simpl. intros [= <- _]. constructor.
  - intros (e' & st1 & rest' & He & Hrest & ->)%check_loop_cons.
    constructor; [by eapply check_exposure_derived|by eapply IH].
Qed.

Lemma check_loop_app idx l1 l2 st :
  check_loop idx (l1 ++ l2) st =
    '(l1', st1) ← check_loop idx l1 st;
    '(l2', st2) ← check_loop (idx + length l1) l2 st1;
    Ok (l1' ++ l2', st2).
Proof.
  revert idx st. induction l1 as [|e l1 IH]; intros idx st; simpl.
  - rewrite Nat.add_0_r. destruct (check_loop idx l2 st) as [[l2' st2]| |]; done.
  - destruct (check_exposure idx e st) as [[e' st1]| |]; simpl; try done.
    rewrite IH. replace (S idx + length l1) with (idx + S (length l1)) by lia.
    destruct (check_loop (S idx) l1 st1) as [[l1' st2]| |]; simpl; try done.
    destruct (check_loop _ l2 st2) as [[l2' st3]| |]; simpl; done.
Qed.

(** Past the first frame the references stay as they are, and every frame
    that passes agrees with them. *)
Lemma check_loop_refs idx exps st exps' st' :
  idx ≠ 0 →
  check_loop idx exps st = Ok (exps', st') →
  isoSpeed st' = isoSpeed st ∧ aperture st' = aperture st ∧
  Forall (λ e, ∃ d sh et iso fn em,
              ImageFactory_open (filename e) = Some d ∧ complete d sh et iso fn em ∧
              float_eq (isoSpeed st) (toFloat iso) = true ∧
              float_eq (aperture st) (toFloat fn) = true) exps.
Proof.
  revert idx st exps' st'. induction exps as [|e rest IH]; intros idx st exps' st' Hidx.
  - simpl. intros [= _ <-]. by repeat split.
  - intros (e' & st1 & rest' & He & Hrest & ->)%check_loop_cons.
    apply check_exposure_Ok in He
      as (d & sh & et & iso & fn & em & Hopen & Hc & Href & _ & ->).
    rewrite (bool_decide_eq_false_2 _ Hidx) in Hrest.
    apply IH in Hrest as (Hi & Ha & Hall); [|lia]. simpl in *.
    repeat split; try done. constructor; [|done].
    exists d, sh, et, iso, fn, em. destruct (Href Hidx). done.
Qed.

(** Enough for the loop to pass. *)
Lemma check_loop_pass idx exps st :
  idx ≠ 0 →
  Forall (λ e, ∃ d sh et iso fn em,
              ImageFactory_open (filename e) = Some d ∧ complete d sh et iso fn em ∧
              float_eq (isoSpeed st) (toFloat iso) = true ∧
              float_eq (aperture st) (toFloat fn) = true) exps →
  ∃ exps' st', check_loop idx exps st = Ok (exps', st').
Proof.
  intros Hidx Hall. revert idx st Hidx Hall.
  induction exps as [|e rest IH]; intros idx st Hidx Hall.
  - by eexists _, _.
  - apply Forall_cons in Hall as [(d & sh & et & iso & fn & em & Hopen & Hc & Hi & Ha) Hall].
    simpl. rewrite (check_exposure_next idx e st d sh et iso fn em); try done. simpl.
    edestruct (IH (S idx)) as (rest' & st' & ->); [lia|exact Hall|].
    by eexists _, _.
Qed.

End CheckLoopFacts.

Section ExposureOrder.
Context `{Collaborators}.

Lemma exposure_sort_perm exps : std_sort exposure_lt exps ≡ₚ exps.
Proof. apply std_sort_perm. Qed.

Lemma exposure_sort_sorted exps :
  Forall timed exps → StronglySorted (not_gt exposure_lt) (std_sort exposure_lt exps).
Proof.
  apply std_sort_sorted; unfold timed, exposure_lt.
  - intros a b Ha Hb. by apply float_lt_asym.
  - intros a b c Ha Hb Hc. by apply float_le_trans.
Qed.

Lemma exposure_strictly_sorted l :
  Forall timed l → StronglySorted (not_gt exposure_lt) l →
  std_adjacent_find exposure_eq l = None → StronglySorted (is_lt exposure_lt) l.
Proof.
  apply sorted_adjacent_find_None; unfold timed, exposure_lt, exposure_eq.
  - intros a b Ha Hb. by apply float_le_neq_lt.
  - intros a b c Ha Hb Hc. by apply float_lt_le_trans.
Qed.

Lemma exposure_distinct l :
  Forall timed l → StronglySorted (is_lt exposure_lt) l →
  ForallOrdPairs (differ exposure_eq) l.
Proof.
  apply strictly_sorted_distinct; unfold timed, exposure_lt, exposure_eq.
  intros a b Ha Hb. by apply float_lt_neq.
Qed.

Lemma float_eq_sym (a b : float) : float_eq a b = float_eq b a.
Proof.
  unfold float_eq, SFeqb.
  destruct a as [[]|[]| |[] ma ea], b as [[]|[]| |[] mb eb]; simpl; try done;
    change (Pos.compare_cont Eq ?x ?y) with (Pos.compare x y);
    destruct (Z.compare_spec ea eb), (Z.compare_spec eb ea); try lia; simpl; try done;
    destruct (Pos.compare_spec ma mb), (Pos.compare_spec mb ma); try lia; done.
Qed.

Lemma exposure_eq_sym a b : exposure_eq a b = exposure_eq b a.
Proof. apply float_eq_sym. Qed.

Lemma differ_sym a b : differ exposure_eq a b → differ exposure_eq b a.
Proof. unfold differ. by rewrite exposure_eq_sym. Qed.

(** What [check] does after the loop over the frames. *)
Lemma check_unfold s exps st :
  check_loop 0 (exposures s) (check_init s) = Ok (exps, st) →
  ExposureSeries_check s =
    match std_adjacent_find exposure_eq (std_sort exposure_lt exps) with
    | Some it => Throw (DuplicateExposureError it)
    | None => Ok (set_metadata (collected st)
                    (set_exposures (std_sort exposure_lt exps) s), cerr st)
    end.
Proof. intros Hloop. unfold ExposureSeries_check. by rewrite Hloop. Qed.

Lemma check_Ok s s' w :
  ExposureSeries_check s = Ok (s', w) →
  ∃ exps st, check_loop 0 (exposures s) (check_init s) = Ok (exps, st) ∧
             std_adjacent_find exposure_eq (std_sort exposure_lt exps) = None ∧
             exposures s' = std_sort exposure_lt exps ∧
             metadata s' = collected st ∧ w = cerr st.
Proof.
  unfold ExposureSeries_check.
  destruct (check_loop 0 (exposures s) (check_init s)) as [[exps st]| |]; simpl; try done.
  destruct (std_adjacent_find _ _) eqn:E; [done|].
  intros [= <- <-]. by exists exps, st.
Qed.
End ExposureOrder.

Section CheckSeriesFacts.
Context `{Collaborators}.

Lemma check_exposure_defined idx e st : check_exposure idx e st ≠ Undefined.
Proof.
  unfold check_exposure.
  destruct (ImageFactory_open (filename e)) as [d|]; simpl; [|done].
  destruct (findKey "Exif.Photo.ShutterSpeedValue" d); simpl; [|done].
  destruct (Exiv2_exposureTime d); simpl; [|done].
  destruct (Exiv2_isoSpeed d) as [iso|]; simpl; [|done].
  destruct (bool_decide (idx = 0)); simpl.
  - destruct (Exiv2_fNumber d); simpl; [|done].
    destruct (Exiv2_exposureMode d); simpl; done.
  - destruct (float_ne (isoSpeed st) (toFloat iso)); simpl; [done|].
    destruct (Exiv2_fNumber d) as [fn|]; simpl; [|done].
    destruct (float_ne (aperture st) (toFloat fn)); simpl; [done|].
    destruct (Exiv2_exposureMode d); simpl; done.
Qed.

(** A frame that passes carries all the required metadata. *)
Lemma check_loop_complete idx exps st exps' st' :
  check_loop idx exps st = Ok (exps', st') →
  Forall (λ e, ∃ d sh et iso fn em,
              ImageFactory_open (filename e) = Some d ∧ complete d sh et iso fn em) exps.
Proof.
  revert idx st exps' st'. induction exps as [|e rest IH]; intros idx st exps' st'.
  - constructor.
  - intros (e' & st1 & rest' & He & Hrest & ->)%check_loop_cons.
    constructor; [|by eapply IH].
    apply check_exposure_Ok in He as (d & sh & et & iso & fn & em & Hopen & Hc & _).
    by exists d, sh, et, iso, fn, em.
Qed.

(** Warnings are only ever added, and every frame adds its own. *)
Lemma check_loop_cerr idx exps st exps' st' :
  check_loop idx exps st = Ok (exps', st') →
  (∀ w, w ∈ cerr st → w ∈ cerr st') ∧
  Forall (λ e, ∀ d em, ImageFactory_open (filename e) = Some d →
                       Exiv2_exposureMode d = Some em →
                       ∀ w, w ∈ frame_warnings (filename e) d em → w ∈ cerr st') exps.
Proof.
  revert idx st exps' st'. induction exps as [|e rest IH]; intros idx st exps' st'.
  - simpl. intros [= _ <-]. split; [done|constructor].
  - intros (e' & st1 & rest' & He & Hrest & ->)%check_loop_cons.
    apply check_exposure_Ok in He
      as (d & sh & et & iso & fn & em & Hopen & [_ _ _ _ Hem] & _ & _ & ->).
    apply IH in Hrest as [Hmono Hall]. simpl in Hmono. split.
    + intros w Hw. apply Hmono, elem_of_app. by left.
    + constructor; [|done]. intros d' em' Hopen' Hem' w Hw.
      rewrite Hopen in Hopen'. injection Hopen' as <-.
      rewrite Hem in Hem'. injection Hem' as <-.
      apply Hmono, elem_of_app. by right.
Qed.

Lemma check_loop_collected idx exps st exps' st' :
  check_loop idx exps st = Ok (exps', st') →
  ∃ ds, Forall2 (λ e d, ImageFactory_open (filename e) = Some d) exps ds ∧
        collected st' = foldl (λ md d, collect_metadata d md) (collected st) ds.
Proof.
  revert idx st exps' st'. induction exps as [|e rest IH]; intros idx st exps' st'.
  - simpl. intros [= _ <-]. exists []. split; [constructor|done].
  - intros (e' & st1 & rest' & He & Hrest & ->)%check_loop_cons.
    apply check_exposure_Ok in He
      as (d & sh & et & iso & fn & em & Hopen & _ & _ & _ & ->).
    apply IH in Hrest as (ds & Hds & ->). exists (d :: ds).
    split; [by constructor|done].
Qed.

Lemma check_loop_defined idx exps st : check_loop idx exps st ≠ Undefined.
Proof.
  revert idx st. induction exps as [|e rest IH]; intros idx st; simpl; [done|].
  destruct (check_exposure idx e st) as [[e' st']| |] eqn:E; simpl; try done.
  - specialize (IH (S idx) st').
    by destruct (check_loop (S idx) rest st') as [[]| |].
  - by apply check_exposure_defined in E.
Qed.

(** [check] either completes or throws. *)
Lemma check_defined s : ExposureSeries_check s ≠ Undefined.
Proof.
  unfold ExposureSeries_check.
  pose proof (check_loop_defined 0 (exposures s) (check_init s)) as Hd.
  destruct (check_loop 0 (exposures s) (check_init s)) as [[exps st]| |]; simpl; try done.
  by destruct (std_adjacent_find _ _).
Qed.

Lemma frame_warnings_mode fname d em :
  print em ≠ "Manual" → warn_exposure_mode fname ∈ frame_warnings fname d em.
Proof.
  intros Hprint. unfold frame_warnings. rewrite (bool_decide_eq_false_2 _ Hprint).
  apply elem_of_app. left. apply list_elem_of_singleton. done.
Qed.
End CheckSeriesFacts.


Lemma ForallOrdPairs_from_lookup {A} (R : A → A → Prop) (l : list A) :
  (∀ i j a b, i < j → l !! i = Some a → l !! j = Some b → R a b) → ForallOrdPairs R l.
Proof.
  induction l as [|x l IH]; intros HR; constructor.
  - apply Forall_forall. intros y Hy. apply list_elem_of_lookup in Hy as [j Hj].
    apply (HR 0 (S j)); [lia|done..].
  - apply IH. intros i j a b Hij Hi Hj. apply (HR (S i) (S j)); [lia|done..].
Qed.


Section AddFacts.
Context `{Collaborators}.

Lemma numbered_S fmt k d :
  numbered fmt k (S d) = Exposure_new (snprintf fmt k) :: numbered fmt (S k) d.
Proof. done. Qed.

Lemma add_scan_from_1_run fmt d k fuel exps :
  (∀ i, k ≤ i < k + d → access_F_OK (snprintf fmt i) = true) →
  access_F_OK (snprintf fmt (k + d)) = false →
  d < fuel →
  add_scan_from_1 fuel fmt k exps = Some (exps ++ numbered fmt k d).
Proof.
  revert k fuel exps. induction d as [|d IH]; intros k fuel exps Hex Hmiss Hfuel;
    (destruct fuel as [|fuel]; [lia|]); simpl.
  - rewrite Nat.add_0_r in Hmiss. rewrite Hmiss. simpl. by rewrite app_nil_r.
  - rewrite Hex by lia. simpl. rewrite (IH (S k)).
    + by rewrite numbered_S, <- app_assoc.
    + intros i Hi. apply Hex. lia.
    + by replace (S k + d) with (k + S d) by lia.
    + lia.
Qed.

Lemma add_scan_from_0_run fmt d k fuel exps success :
  strchr fmt "%" = true ∨ 1 < k →
  (∀ i, k ≤ i < k + d → access_F_OK (snprintf fmt i) = true) →
  access_F_OK (snprintf fmt (k + d)) = false →
  d < fuel →
  add_scan_from_0 fuel fmt k exps success =
    Some (exps ++ numbered fmt k d, success || bool_decide (0 < d)).
Proof.
  revert k fuel exps success.
  induction d as [|d IH]; intros k fuel exps success Hfmt Hex Hmiss Hfuel;
    (destruct fuel as [|fuel]; [lia|]); simpl.
  - rewrite Nat.add_0_r in Hmiss. rewrite Hmiss. simpl.
    by rewrite app_nil_r, orb_false_r.
  - rewrite Hex by lia. simpl.
    assert (bool_decide (k = 1) && negb (strchr fmt "%") = false) as ->.
    { destruct Hfmt as [->|Hk]; [by rewrite andb_false_r|].
      rewrite bool_decide_eq_false_2; [done|lia]. }
    rewrite (IH (S k)).
    + rewrite numbered_S, <- app_assoc. simpl. by rewrite orb_true_r.
    + destruct Hfmt; [by left|right; lia].
    + intros i Hi. apply Hex. lia.
    + by replace (S k + d) with (k + S d) by lia.
    + lia.
Qed.
End AddFacts.


Section Rounding.
Local Open Scope Z_scope.

(** The number of binary digits of a positive number. *)
Lemma digits2_pos_bounds (p : positive) :
  2 ^ (Z.pos (digits2_pos p) - 1) ≤ Z.pos p < 2 ^ Z.pos (digits2_pos p).
Proof.
  induction p as [p IH|p IH|]; simpl digits2_pos; rewrite ?Pos2Z.inj_succ.
  - replace (Z.succ (Z.pos (digits2_pos p)) - 1) with (Z.succ (Z.pos (digits2_pos p) - 1)) by lia.
    rewrite !Z.pow_succ_r by lia. lia.
  - replace (Z.succ (Z.pos (digits2_pos p)) - 1) with (Z.succ (Z.pos (digits2_pos p) - 1)) by lia.
    rewrite !Z.pow_succ_r by lia. lia.
  - simpl. lia.
Qed.

Lemma digits2_pos_unique (p : positive) (d : Z) :
  2 ^ (d - 1) ≤ Z.pos p < 2 ^ d → Z.pos (digits2_pos p) = d.
Proof.
  intros [Hlo Hhi]. pose proof (digits2_pos_bounds p) as [Hlo' Hhi'].
  assert (0 < d).
  { destruct (Z.lt_trichotomy d 0) as [?|[->|?]]; [|simpl in Hhi; lia|done].
    rewrite Z.pow_neg_r in Hhi by done. lia. }
  assert (d - 1 < Z.pos (digits2_pos p)).
  { apply (Z.pow_lt_mono_r_iff 2); lia. }
  assert (Z.pos (digits2_pos p) - 1 < d).
  { apply (Z.pow_lt_mono_r_iff 2); lia. }
  lia.
Qed.

Lemma iter_pos_nat {A} (f : A → A) (n : positive) (x : A) :
  SpecFloat.iter_pos f n x = Nat.iter (Pos.to_nat n) f x.
Proof.
  revert x. induction n as [n IH|n IH|]; intros x; cbn [SpecFloat.iter_pos].
  - rewrite !IH, Pos2Nat.inj_xI, Nat.iter_succ_r.
    replace (2 * Pos.to_nat n)%nat with (Pos.to_nat n + Pos.to_nat n)%nat by lia.
    by rewrite Nat.iter_add.
  - rewrite !IH, Pos2Nat.inj_xO.
    replace (2 * Pos.to_nat n)%nat with (Pos.to_nat n + Pos.to_nat n)%nat by lia.
    by rewrite Nat.iter_add.
  - done.
Qed.

Lemma Pos_iter_xO (p q : positive) : Z.pos (Pos.iter xO p q) = Z.pos p * 2 ^ Z.pos q.
Proof.
  induction q as [|q IH] using Pos.peano_ind.
  - simpl. lia.
  - rewrite Pos.iter_succ, Pos2Z.inj_succ, Z.pow_succ_r by lia.
    rewrite Pos2Z.inj_xO, IH. lia.
Qed.

Lemma shr_1_facts (mrs : shr_record) :
  0 ≤ shr_m mrs →
  shr_m (shr_1 mrs) = shr_m mrs / 2 ∧
  shr_r (shr_1 mrs) = Z.odd (shr_m mrs) ∧
  shr_s (shr_1 mrs) = shr_r mrs || shr_s mrs.
Proof.
  destruct mrs as [m r s]. simpl. intros Hm.
  destruct m as [|[p|p|]|p]; simpl; try lia; repeat split;
    try reflexivity.
  - rewrite Pos2Z.inj_xI. apply (Z.div_unique _ _ _ 1); lia.
  - rewrite Pos2Z.inj_xO. apply (Z.div_unique _ _ _ 0); lia.
Qed.

Lemma shifted_iter (m : Z) (k : nat) :
  0 ≤ m → shifted m k (Nat.iter k shr_1 (Build_shr_record m false false)).
Proof.
  intros Hm. unfold shifted. induction k as [|k IH].
  - simpl. split; [by rewrite Z.div_1_r|]. exists 0. rewrite Z.mod_1_r.
    repeat split; try lia; auto; simpl; intros; by try lia.
  - rewrite Nat.iter_succ. set (mrs := Nat.iter k shr_1 _) in *.
    destruct IH as (Hq & low & Hlow & Hlow0 & Hlow1 & Hs).
    assert (Hpos : 0 < 2 ^ Z.of_nat k) by (apply Z.pow_pos_nonneg; lia).
    assert (0 ≤ shr_m mrs) by (rewrite Hq; apply Z.div_pos; lia).
    destruct (shr_1_facts mrs) as (Hm' & Hr' & Hs'); [done|].
    rewrite Nat2Z.inj_succ, Z.pow_succ_r by lia.
    replace (Z.succ (Z.of_nat k) - 1) with (Z.of_nat k) by lia.
    split.
    + rewrite Hm', Hq, Z.div_div by lia. f_equal. lia.
    + exists (m mod 2 ^ Z.of_nat k).
      pose proof (Z.mod_pos_bound m (2 ^ Z.of_nat k) Hpos).
      repeat split; try lia.
      * rewrite Hr', Hq. rewrite (Z.mul_comm 2), Z.rem_mul_r by lia.
        rewrite Zodd_mod. destruct (Z.eqb_spec ((m / 2 ^ Z.of_nat k) mod 2) 1) as [->| Hne].
        -- lia.
        -- pose proof (Z.mod_pos_bound (m / 2 ^ Z.of_nat k) 2). lia.
      * rewrite Hs', Hlow. intros Hrs. apply orb_true_iff in Hrs as [Hr|Hs1].
        -- rewrite Hr. destruct Hlow1 as [Hlow1|[_ Hr0]]; [|congruence].
           destruct k; [simpl in Hlow1; lia|].
           assert (0 < 2 ^ (Z.of_nat (S k) - 1)) by (apply Z.pow_pos_nonneg; lia). lia.
        -- apply Hs in Hs1. destruct (shr_r mrs); [|lia].
           assert (0 ≤ 2 ^ (Z.of_nat k - 1)) by (apply Z.pow_nonneg; lia). lia.
      * rewrite Hs', Hlow. intros Hgt. apply orb_true_iff.
        destruct (shr_r mrs); [by left|right]. apply Hs. lia.
Qed.

Lemma round_shifted (m : Z) (k : nat) (mrs : shr_record) :
  shifted m k mrs →
  let rn := round_nearest_even (shr_m mrs) (loc_of_shr_record mrs) in
  (rn = m / 2 ^ Z.of_nat k ∨ rn = m / 2 ^ Z.of_nat k + 1) ∧
  (2 ^ Z.of_nat k < 2 * (m mod 2 ^ Z.of_nat k) → rn = m / 2 ^ Z.of_nat k + 1).
Proof.
  intros (Hq & low & Hlow & Hlow0 & Hlow1 & Hs).
  assert (Hpos : 0 < 2 ^ Z.of_nat k) by (apply Z.pow_pos_nonneg; lia).
  pose proof (Z.mod_pos_bound m _ Hpos) as Hrem.
  rewrite Hlow in Hrem. rewrite Hlow, <- Hq. clear Hlow.
  assert (Hhalf : k ≠ 0%nat → 2 ^ Z.of_nat k = 2 * 2 ^ (Z.of_nat k - 1)).
  { intros Hk. rewrite <- Z.pow_succ_r by lia. f_equal. lia. }
  assert (Hzero : k = 0%nat → 2 ^ Z.of_nat k = 1 ∧ 2 ^ (Z.of_nat k - 1) = 0).
  { by intros ->. }
  assert (Hlow2 : shr_s mrs = false → low = 0).
  { intros Hf. destruct (Z.eq_dec low 0) as [|Hne]; [done|].
    assert (Hl : 0 < low) by lia. apply Hs in Hl. congruence. }
  destruct (decide (k = 0%nat)) as [Hk|Hk];
    [destruct (Hzero Hk) as [H1 H2]; rewrite H1, H2 in *
    |specialize (Hhalf Hk); rewrite Hhalf in *];
    destruct mrs as [q [] []]; simpl in *;
    try specialize (Hlow2 eq_refl);
    (split; [try destruct (Z.even q); lia|intros Hgt; try destruct (Z.even q); lia]).
Qed.

(** [binary_round_aux] leaves a 53-digit mantissa as it is. *)
Lemma binary_round_aux_exact (m : positive) (e : Z) :
  Z.pos (digits2_pos m) = 53 → -1074 ≤ e ≤ 971 →
  binary_round_aux 53 1024 false (Z.pos m) e loc_Exact = S754_finite false m e.
Proof.
  intros Hd He. unfold binary_round_aux, shr_fexp, Zdigits2.
  rewrite Hd. unfold fexp, emin.
  replace (Z.max (53 + e - 53) (3 - 1024 - 53) - e) with 0 by lia.
  simpl. rewrite Hd.
  replace (Z.max (53 + e - 53) (3 - 1024 - 53) - e) with 0 by lia.
  simpl. replace (e <=? 1024 - 53) with true; [done|].
  symmetry. apply Z.leb_le. lia.
Qed.

(** The conversion of a positive integer of at most 53 digits is exact. *)
Lemma f64_of_int_exact (N d : Z) :
  1 ≤ d ≤ 53 → 2 ^ (d - 1) ≤ N < 2 ^ d →
  f64_of_int N = S754_finite false (Z.to_pos (N * 2 ^ (53 - d))) (d - 53).
Proof.
  intros Hd HN.
  assert (0 < 2 ^ (d - 1)) by (apply Z.pow_pos_nonneg; lia).
  destruct N as [|p|p]; try lia.
  unfold f64_of_int, binary_normalize, binary_round.
  rewrite (digits2_pos_unique p d HN). unfold fexp, emin, shl_align.
  replace (Z.max (d + 0 - 53) (3 - 1024 - 53) - 0) with (d - 53) by lia.
  replace (Z.max (d + 0 - 53) (3 - 1024 - 53)) with (d - 53) by lia.
  destruct (d - 53) as [|q|q] eqn:Hq; try lia.
  - replace (53 - d) with 0 by lia. rewrite Z.mul_1_r. simpl Z.to_pos.
    apply binary_round_aux_exact; [|lia]. apply digits2_pos_unique. by replace d with 53 in HN by lia.
  - replace (53 - d) with (Z.pos q) by lia. rewrite <- Pos_iter_xO. simpl Z.to_pos.
    apply binary_round_aux_exact; [|lia]. apply digits2_pos_unique.
    rewrite Pos_iter_xO. replace 53 with (d + Z.pos q) at 2 by lia.
    replace (53 - 1) with (d - 1 + Z.pos q) by lia.
    rewrite !Z.pow_add_r by lia.
    assert (0 < 2 ^ Z.pos q) by (apply Z.pow_pos_nonneg; lia). nia.
Qed.

(** The second normalization of [binary_round_aux], after rounding may
    have carried into a 54th digit, and the truncation of the result. *)
Lemma renormalize_trunc (r e : Z) :
  2 ^ 52 ≤ r ≤ 2 ^ 53 → -1074 ≤ e < 0 →
  double_to_size_t
    (let '(mrs, e') := shr_fexp 53 1024 r e loc_Exact in
     match shr_m mrs with
     | Z0 => S754_zero false
     | Z.pos m => if e' <=? 1024 - 53 then S754_finite false m e' else S754_infinity false
     | Z.neg _ => S754_nan
     end) = r / 2 ^ (- e).
Proof.
  intros Hr He. destruct (Z.eq_dec r (2 ^ 53)) as [->|Hne].
  - unfold shr_fexp, fexp, emin. change (Zdigits2 (2 ^ 53)) with 54.
    replace (Z.max (54 + e - 53) (3 - 1024 - 53) - e) with 1 by lia.
    simpl. replace (e + 1 <=? 1024 - 53) with true by (symmetry; apply Z.leb_le; lia).
    destruct (e + 1) as [|q|q] eqn:Hq; try lia.
    + replace (- e) with 1 by lia. reflexivity.
    + replace (- e) with (Z.succ (Z.pos q)) by lia.
      rewrite Z.pow_succ_r by lia. simpl double_to_size_t.
      change (2 ^ 53) with (2 * 4503599627370496).
      rewrite Z.div_mul_cancel_l; [done| |lia].
      apply Z.pow_nonzero; lia.
  - destruct r as [|p|p]; try lia.
    assert (Hd : Z.pos (digits2_pos p) = 53) by (apply digits2_pos_unique; lia).
    unfold shr_fexp, fexp, emin, Zdigits2. rewrite Hd.
    replace (Z.max (53 + e - 53) (3 - 1024 - 53) - e) with 0 by lia.
    simpl. replace (e <=? 1024 - 53) with true by (symmetry; apply Z.leb_le; lia).
    destruct e as [|q|q]; try lia. done.
Qed.

(** Rounding a product of more than 53 digits to 53 digits, and
    truncating the result to an integer. *)
Lemma binary_round_aux_trunc (m : positive) (e n : Z) :
  Z.pos (digits2_pos m) = 53 + n → 0 < n → -1074 ≤ e + n < 0 →
  ∃ r, (r = Z.pos m / 2 ^ n ∨ r = Z.pos m / 2 ^ n + 1) ∧
       (2 ^ n < 2 * (Z.pos m mod 2 ^ n) → r = Z.pos m / 2 ^ n + 1) ∧
       double_to_size_t (binary_round_aux 53 1024 false (Z.pos m) e loc_Exact)
         = r / 2 ^ (- (e + n)).
Proof.
  intros Hd Hn He. pose proof (digits2_pos_bounds m) as [Hlo Hhi].
  rewrite Hd in Hlo, Hhi.
  assert (Hpow : 0 < 2 ^ n) by (apply Z.pow_pos_nonneg; lia).
  assert (Hq : 2 ^ 52 ≤ Z.pos m / 2 ^ n < 2 ^ 53).
  { replace (53 + n - 1) with (52 + n) in Hlo by lia.
    rewrite Z.pow_add_r in Hlo, Hhi by lia. split.
    - apply Z.div_le_lower_bound; lia.
    - apply Z.div_lt_upper_bound; lia. }
  unfold binary_round_aux.
  unfold shr_fexp at 1. unfold fexp at 1. unfold emin, Zdigits2. rewrite Hd.
  replace (Z.max (53 + n + e - 53) (3 - 1024 - 53) - e) with n by lia.
  destruct n as [|pn|pn]; try lia. unfold shr. simpl shr_record_of_loc.
  rewrite iter_pos_nat.
  pose proof (shifted_iter (Z.pos m) (Pos.to_nat pn) ltac:(lia)) as Hsh.
  apply round_shifted in Hsh. rewrite positive_nat_Z in Hsh.
  destruct Hsh as [Hr Hup].
  set (r := round_nearest_even _ _) in *.
  exists r. split; [done|]. split; [done|].
  destruct (shr_fexp 53 1024 r (e + Z.pos pn) loc_Exact) as [mrs e'] eqn:Hshr.
  pose proof (renormalize_trunc r (e + Z.pos pn) ltac:(lia) ltac:(lia)) as Ht.
  by rewrite Hshr in Ht.
Qed.

Lemma percentile_arith (N s A B T P X r : Z) :
  0 < N < 2 ^ 31 -> 0 < s -> T = N * s -> T < 2 ^ 53 ->
  2 ^ 52 <= A -> 2000 <= B -> A * B = 2 ^ 53 * s ->
  P = T * 8998192055486251 -> X = P / A ->
  (r = X \/ r = X + 1) -> (A < 2 * (P mod A) -> r = X + 1) ->
  r / B = 999 * N / 1000.
Proof.
  intros HN Hs HT HT53 HA HB HW HP HX Hr Hup.
  change (2 ^ 31) with 2147483648 in *.
  change (2 ^ 52) with 4503599627370496 in *.
  change (2 ^ 53) with 9007199254740992 in *.
  pose proof (Z.div_mod (999 * N) 1000 ltac:(lia)) as Hq.
  pose proof (Z.mod_pos_bound (999 * N) 1000 ltac:(lia)) as Hrho.
  set (q := 999 * N / 1000) in *. set (rho := (999 * N) mod 1000) in *.
  pose proof (Z.div_mod P A ltac:(lia)) as HPA.
  pose proof (Z.mod_pos_bound P A ltac:(lia)) as Hrem.
  rewrite <- HX in HPA. set (rem := P mod A) in *.
  set (W := A * B) in *.
  assert (HNW : N * W = 9007199254740992 * T) by (rewrite HW, HT; ring).
  assert (F1 : 1000 * (q * W) + rho * W = 1000 * P + 8 * T).
  { transitivity (999 * (N * W)); [|rewrite HNW, HP; ring].
    replace (999 * (N * W)) with ((999 * N) * W) by ring. rewrite Hq. ring. }
  assert (F2 : 8 * T < W) by nia.
  assert (HW0 : 2000 * A <= W) by (unfold W; nia).
  assert (Hup' : r < (q + 1) * B).
  { assert (A * (X + 2) <= (q + 1) * W).
    { assert (rho * W <= 999 * W) by nia. nia. }
    assert (X + 2 <= (q + 1) * B); [|lia].
    apply Z.nlt_ge. intros Hlt.
    assert (A * ((q + 1) * B + 1) <= A * (X + 2)) by (apply Z.mul_le_mono_nonneg_l; lia).
    unfold W in *. nia. }
  assert (Hlow : q * B <= r).
  { destruct (Z.eq_dec rho 0) as [H0|H0].
    - rewrite H0 in F1.
      assert (HX' : X = q * B - 1).
      { rewrite HX. symmetry. apply (Z.div_unique P A (q * B - 1) (A - (q * W - P))); [|].
        - left. nia.
        - unfold W. ring. }
      assert (rem = A - (q * W - P)).
      { rewrite HX' in HPA. unfold W. nia. }
      rewrite Hup; [lia|]. nia.
    - assert (q * W <= P).
      { assert (W <= rho * W) by nia. nia. }
      assert (q * B <= X); [|lia].
      rewrite HX. apply Z.div_le_lower_bound; [lia|]. unfold W in *. nia. }
  symmetry. apply (Z.div_unique r B q (r - q * B)); [left; lia|ring].
Qed.
End Rounding.

Section Percentile.
Local Open Scope Z_scope.

Lemma double_0_999_nearest :
  double_0_999 = f64_div (f64_of_int 999) (f64_of_int 1000).
Proof. vm_compute. reflexivity. Qed.

(** [(size_t) (npix*0.999)] in integers: the rounding of the product does
    not reach the next integer. *)
Lemma percentile_index_Z (N : Z) :
  0 ≤ N < 2 ^ 31 →
  double_to_size_t (f64_mul (f64_of_int N) double_0_999) = 999 * N / 1000.
Proof.
  intros HN. destruct (Z.eq_dec N 0) as [->|HN0]; [done|].
  set (d := Z.log2 N + 1).
  assert (Hlog : 2 ^ (d - 1) ≤ N < 2 ^ d).
  { unfold d. replace (Z.log2 N + 1 - 1) with (Z.log2 N) by lia.
    rewrite Z.add_1_r. apply Z.log2_spec. lia. }
  assert (Hd : 1 ≤ d ≤ 31).
  { split; [pose proof (Z.log2_nonneg N); lia|].
    assert (d - 1 < 31); [|lia]. apply (Z.pow_lt_mono_r_iff 2); lia. }
  rewrite (f64_of_int_exact N d) by lia.
  assert (Hs : 0 < 2 ^ (53 - d)) by (apply Z.pow_pos_nonneg; lia).
  set (s := 2 ^ (53 - d)) in *.
  assert (HT : 2 ^ 52 ≤ N * s < 2 ^ 53).
  { assert (E1 : 2 ^ 52 = 2 ^ (d - 1) * s)
      by (unfold s; rewrite <- Z.pow_add_r by lia; f_equal; lia).
    assert (E2 : 2 ^ 53 = 2 ^ d * s)
      by (unfold s; rewrite <- Z.pow_add_r by lia; f_equal; lia).
    rewrite E1, E2. nia. }
  destruct (N * s) as [|mN|mN] eqn:HmN; try lia.
  unfold f64_mul, double_0_999, SFmul. simpl Z.to_pos. simpl xorb.
  set (M := 8998192055486251%positive).
  pose proof (digits2_pos_bounds (mN * M)) as Hdig.
  set (dP := Z.pos (digits2_pos (mN * M))) in *.
  rewrite Pos2Z.inj_mul in Hdig.
  assert (HP : 2 ^ 104 ≤ Z.pos mN * Z.pos M < 2 ^ 106).
  { change (2 ^ 52) with 4503599627370496 in HT.
    change (2 ^ 53) with 9007199254740992 in HT. unfold M. split.
    - change (2 ^ 104) with (4503599627370496 * 4503599627370496). nia.
    - change (2 ^ 106) with (9007199254740992 * 9007199254740992). nia. }
  assert (HdP : 105 ≤ dP ≤ 106).
  { split.
    - assert (104 < dP); [|lia]. apply (Z.pow_lt_mono_r_iff 2); lia.
    - assert (dP - 1 < 106); [|lia]. apply (Z.pow_lt_mono_r_iff 2); lia. }
  destruct (binary_round_aux_trunc (mN * M) (d - 53 + -53) (dP - 53))
    as (r & Hr & Hup & ->); [unfold dP; lia|lia|lia|].
  rewrite Pos2Z.inj_mul in Hr, Hup.
  assert (HA : 0 < 2 ^ (dP - 53)) by (apply Z.pow_pos_nonneg; lia).
  apply (percentile_arith N s (2 ^ (dP - 53)) _ (Z.pos mN) (Z.pos mN * Z.pos M)
           (Z.pos mN * Z.pos M / 2 ^ (dP - 53))); try done; try lia.
  - apply (Z.pow_le_mono_r 2 52); lia.
  - transitivity (2 ^ 11); [done|]. apply Z.pow_le_mono_r; lia.
  - rewrite <- Z.pow_add_r by lia. unfold s. rewrite <- Z.pow_add_r by lia.
    f_equal. lia.
Qed.
End Percentile.

(** The percentile index is the floor of 99.9% of the pixel count. *)
Lemma percentile_index_floor (npix : nat) :
  (Z.of_nat npix < 2 ^ 31)%Z → percentile_index npix = npix * 999 / 1000.
Proof.
  intros Hn. unfold percentile_index. rewrite percentile_index_Z.
  - apply Nat2Z.inj. rewrite Z2Nat.id by (apply Z.div_pos; lia).
    rewrite Nat2Z.inj_div, Nat2Z.inj_mul. f_equal. lia.
  - lia.
Qed.

Lemma concat_uniform_length {A} (rows : list (list A)) (w : nat) :
  Forall (λ r, length r = w) rows → length (concat rows) = length rows * w.
Proof.
  induction 1 as [|r rows Hr _ IH]; simpl; [done|].
  rewrite length_app, Hr, IH. done.
Qed.

Lemma concat_uniform_lookup {A} (rows : list (list A)) (w y x : nat) (row : list A) :
  Forall (λ r, length r = w) rows → rows !! y = Some row → x < w →
  concat rows !! (y * w + x) = row !! x.
Proof.
  intros Hrows. revert y. induction Hrows as [|r rows Hr _ IH]; intros y Hy Hx; [done|].
  destruct y as [|y]; simpl in *.
  - injection Hy as ->. apply lookup_app_l. lia.
  - rewrite lookup_app_r by lia. rewrite <- (IH y Hy Hx). f_equal. lia.
Qed.

#[global] Arguments load_exposure : simpl never.
#[global] Arguments normalize : simpl never.

Section LoadFacts.
Context `{Collaborators}.

Lemma normalize_row_Some raw offset factor y row :
  normalize_row raw offset factor y = Some row →
  length row = dim_x raw ∧
  ∀ x, x < dim_x raw →
    ∃ v, getData raw !! (y * (pitch raw / 2) + x) = Some v ∧
         row !! x = Some (normalize_sample offset factor v).
Proof.
  unfold normalize_row. intros Hrow%mapM_Some. split.
  - apply Forall2_length in Hrow. by rewrite length_seq in Hrow.
  - intros x Hx.
    destruct (Forall2_lookup_l _ _ _ x x Hrow) as (p & Hp & Hv).
    { by apply lookup_seq_lt. }
    apply fmap_Some in Hv as (v & Hv & ->). by exists v.
Qed.

Lemma normalize_Some raw img :
  normalize raw = Some img →
  length img = dim_x raw * dim_y raw ∧
  ∀ y x, y < dim_y raw → x < dim_x raw →
    ∃ v, getData raw !! (y * (pitch raw / 2) + x) = Some v ∧
         img !! (y * dim_x raw + x)
           = Some (normalize_sample (black_offset raw) (scale_factor raw) v).
Proof.
  unfold normalize. intros Himg.
  apply bind_Some in Himg as (rows & Hrows%mapM_Some & [= <-]).
  fold (black_offset raw) in Hrows. fold (scale_factor raw) in Hrows.
  assert (Hlen : Forall (λ r, length r = dim_x raw) rows).
  { apply Forall_forall. intros row Hrow.
    apply list_elem_of_lookup in Hrow as [y Hy].
    destruct (Forall2_lookup_r _ _ _ _ _ Hrows Hy) as (y' & _ & Hr).
    by apply normalize_row_Some in Hr as [? _]. }
  split.
  - rewrite (concat_uniform_length rows (dim_x raw) Hlen).
    apply Forall2_length in Hrows. rewrite length_seq in Hrows. lia.
  - intros y x Hy Hx.
    destruct (Forall2_lookup_l _ _ _ y y Hrows) as (row & Hrow & Hr).
    { by apply lookup_seq_lt. }
    apply normalize_row_Some in Hr as [_ Hr]. destruct (Hr x Hx) as (v & Hv & Hp).
    exists v. split; [done|].
    by rewrite (concat_uniform_lookup rows (dim_x raw) y x row).
Qed.

Lemma load_exposure_Ok i e dims e' dims' :
  load_exposure i e dims = Ok (e', dims') →
  ∃ raw img, RawSpeed_decode (filename e) = DecodedRaw raw ∧ supported raw ∧
             normalize raw = Some img ∧ e' = set_image img e ∧
             dims' = if bool_decide (i = 0) then (dim_x raw, dim_y raw) else dims.
Proof.
  unfold load_exposure.
  destruct (RawSpeed_decode (filename e)) as [|what|raw]; try done.
  case_bool_decide as Hsub; [done|].
  case_bool_decide as Htype; [done|].
  destruct (isCFA raw) eqn:Hcfa; [|done]. simpl.
  destruct (normalize raw) as [img|] eqn:Himg; [|done].
  intros [= <- <-]. exists raw, img.
  assert (Hx : subsampling_x raw = 1%Z).
  { destruct (decide (subsampling_x raw = 1%Z)); [done|]. destruct Hsub. by left. }
  assert (Hy : subsampling_y raw = 1%Z).
  { destruct (decide (subsampling_y raw = 1%Z)); [done|]. destruct Hsub. by right. }
  done.
Qed.

Lemma load_loop_cons i e rest dims exps' dims' :
  load_loop i (e :: rest) dims = Ok (exps', dims') →
  ∃ e' dims1 rest', load_exposure i e dims = Ok (e', dims1) ∧
                    load_loop (S i) rest dims1 = Ok (rest', dims') ∧ exps' = e' :: rest'.
Proof.
  simpl. destruct (load_exposure i e dims) as [[e' dims1]| |]; simpl; try done.
  destruct (load_loop (S i) rest dims1) as [[rest' dims2]| |] eqn:E; simpl; try done.
  intros [= <- <-]. by exists e', dims1, rest'.
Qed.

Lemma load_loop_app i l1 l2 dims :
  load_loop i (l1 ++ l2) dims =
    '(l1', dims1) ← load_loop i l1 dims;
    '(l2', dims2) ← load_loop (i + length l1) l2 dims1;
    Ok (l1' ++ l2', dims2).
Proof.
  revert i dims. induction l1 as [|e l1 IH]; intros i dims; simpl.
  - rewrite Nat.add_0_r. destruct (load_loop i l2 dims) as [[l2' dims2]| |]; done.
  - destruct (load_exposure i e dims) as [[e' dims1]| |]; simpl; try done.
    rewrite IH. replace (S i + length l1) with (i + S (length l1)) by lia.
    destruct (load_loop (S i) l1 dims1) as [[l1' dims2]| |]; simpl; try done.
    destruct (load_loop _ l2 dims2) as [[l2' dims3]| |]; simpl; done.
Qed.

(** Every frame the loop gets through was decoded and normalized. *)
Lemma load_loop_frames i exps dims exps' dims' :
  load_loop i exps dims = Ok (exps', dims') →
  Forall2 (λ e e', ∃ raw img, RawSpeed_decode (filename e) = DecodedRaw raw ∧
                              supported raw ∧ normalize raw = Some img ∧
                              e' = set_image img e) exps exps'.
Proof.
  revert i dims exps' dims'. induction exps as [|e rest IH]; intros i dims exps' dims'.
  - simpl. intros [= <- _]. constructor.
  - intros (e' & dims1 & rest' & He & Hrest & ->)%load_loop_cons.
    constructor; [|by eapply IH].
    apply load_exposure_Ok in He as (raw & img & ? & ? & ? & ? & _).
    by exists raw, img.
Qed.

(** Only the frame at index 0 sets the dimensions of the series. *)
Lemma load_loop_dims_later i exps dims exps' dims' :
  i ≠ 0 → load_loop i exps dims = Ok (exps', dims') → dims' = dims.
Proof.
  revert i dims exps' dims'. induction exps as [|e rest IH]; intros i dims exps' dims' Hi.
  - simpl. by intros [= _ <-].
  - intros (e' & dims1 & rest' & He & Hrest & ->)%load_loop_cons.
    apply load_exposure_Ok in He as (raw & img & _ & _ & _ & _ & ->).
    rewrite (bool_decide_eq_false_2 _ Hi) in Hrest. by apply IH in Hrest.
Qed.

Lemma load_loop_dims_first e rest dims exps' dims' :
  load_loop 0 (e :: rest) dims = Ok (exps', dims') →
  ∃ raw, RawSpeed_decode (filename e) = DecodedRaw raw ∧ dims' = (dim_x raw, dim_y raw).
Proof.
  intros (e' & dims1 & rest' & He & Hrest & ->)%load_loop_cons.
  apply load_exposure_Ok in He as (raw & img & Hraw & _ & _ & _ & ->).
  apply load_loop_dims_later in Hrest; [|done]. by exists raw.
Qed.

Lemma load_Ok s s' :
  ExposureSeries_load s = Ok s' →
  ∃ exps e img,
    load_loop 0 (exposures s) (width s, height s) = Ok (exps, (width s', height s')) ∧
    exposures s' = exps ∧ metadata s' = metadata s ∧
    last exps = Some e ∧ image e = Some img ∧
    estimate_saturation (width s' * height s') img = Ok (saturation s').
Proof.
  unfold ExposureSeries_load.
  destruct (load_loop 0 (exposures s) (width s, height s)) as [[exps [w h]]| |];
    simpl; try done.
  destruct (last exps) as [e|] eqn:Hlast; [|done].
  destruct (image e) as [img|] eqn:Himg; [|done].
  destruct (estimate_saturation (w * h) img) as [sat| |] eqn:Hsat; simpl; try done.
  intros [= <-]. by exists exps, e, img.
Qed.
End LoadFacts.

Section LoadSeriesFacts.
Context `{Collaborators}.

Lemma load_exposure_unsupported i e dims raw :
  RawSpeed_decode (filename e) = DecodedRaw raw → ¬ supported raw →
  ∃ why, load_exposure i e dims = Throw (UnsupportedFormatError why).
Proof.
  intros Hraw Hns. unfold load_exposure. rewrite Hraw.
  case_bool_decide as Hsub; [by eexists|].
  case_bool_decide as Htype; [by eexists|].
  destruct (isCFA raw) eqn:Hcfa; [|by eexists]. destruct Hns.
  repeat split; try done.
  - destruct (decide (subsampling_x raw = 1%Z)); [done|]. destruct Hsub. by left.
  - destruct (decide (subsampling_y raw = 1%Z)); [done|]. destruct Hsub. by right.
Qed.

Lemma float_sort_sorted (l : list float) :
  Forall not_nan l → StronglySorted (not_gt float_lt) (std_sort float_lt l).
Proof.
  apply std_sort_sorted; unfold not_nan.
  - intros a b Ha Hb. by apply float_lt_asym.
  - intros a b c Ha Hb Hc. by apply float_le_trans.
Qed.

Lemma strongly_sorted_last {A} (R : A → A → Prop) (l : list A) (z a : A) (i : nat) :
  StronglySorted R l → last l = Some z → l !! i = Some a → S i < length l → R a z.
Proof.
  intros Hs. revert i. induction Hs as [|x l Hs IH Hx]; intros i Hlast Hi Hlen; [done|].
  destruct l as [|y l]; [simpl in Hlen; lia|].
  change (last (x :: y :: l)) with (last (y :: l)) in Hlast.
  destruct i as [|i]; simpl in Hi.
  - injection Hi as ->. rewrite Forall_forall in Hx. apply Hx.
    apply last_Some_elem_of in Hlast. done.
  - apply (IH i); [done|done|simpl in *; lia].
Qed.

(** The estimate on an image of exactly [npix] pixels: the element of rank
    [floor (npix * 0.999)] of the ascending order. *)
Lemma estimate_saturation_rank (img : list float) (sat : float) :
  estimate_saturation (length img) img = Ok sat →
  (Z.of_nat (length img) < 2 ^ 31)%Z → Forall not_nan img →
  ∃ sorted, sorted ≡ₚ img ∧ StronglySorted (not_gt float_lt) sorted ∧
            sorted !! (length img * 999 / 1000) = Some sat.
Proof.
  unfold estimate_saturation, std_nth_element. intros Hsat Hlen Hnan.
  rewrite bool_decide_eq_false_2 in Hsat by lia.
  rewrite firstn_all, (percentile_index_floor _ Hlen) in Hsat.
  destruct (std_sort float_lt img !! (length img * 999 / 1000)) as [v|] eqn:Hv; [|done].
  injection Hsat as <-. exists (std_sort float_lt img).
  split; [apply std_sort_perm|]. split; [by apply float_sort_sorted|done].
Qed.
End LoadSeriesFacts.


(** ** The properties of the series *)

(** Claim C1, amended.  When the loop over the frames has passed and every
    derived exposure time is a number: if [check] completes, the exposures
    it leaves are the examined frames, rearranged so that the exposure time
    strictly increases along the sequence; and if two frames at different
    positions of the series have equal derived exposure times, wherever
    they stand, [check] fails with a duplicate-exposure error. *)
Theorem check_strictly_increasing `{Collaborators} (s : ExposureSeries) exps st :
  check_loop 0 (exposures s) (check_init s) = Ok (exps, st) →
  Forall timed exps →
  (∀ s' w, ExposureSeries_check s = Ok (s', w) →
     exposures s' ≡ₚ exps ∧ StronglySorted (is_lt exposure_lt) (exposures s'))
  ∧ (∀ i j a b ta tb,
       i ≠ j → exposures s !! i = Some a → exposures s !! j = Some b →
       derived_time a = Some ta → derived_time b = Some tb → float_eq ta tb = true →
       ∃ it, ExposureSeries_check s = Throw (DuplicateExposureError it)).
Proof.
  intros Hloop Htimed.
  assert (Hsorted : Forall timed (std_sort exposure_lt exps))
    by by rewrite exposure_sort_perm.
  pose proof (exposure_sort_sorted exps Htimed) as Hle.
  rewrite (check_unfold s exps st Hloop).
  destruct (std_adjacent_find exposure_eq (std_sort exposure_lt exps)) as [it|] eqn:Hfind.
  - split; [done|]. intros. by exists it.
  - pose proof (exposure_strictly_sorted _ Hsorted Hle Hfind) as Hlt. split.
    + intros s' w [= <- _]. simpl. split; [apply exposure_sort_perm|done].
    + intros i j a b ta tb Hij Hi Hj Ha Hb Heq. exfalso.
      pose proof (exposure_distinct _ Hsorted Hlt) as Hd.
      apply (ForallOrdPairs_perm _ _ exps differ_sym) in Hd; [|apply exposure_sort_perm].
      pose proof (check_loop_derived _ _ _ _ _ Hloop) as H2.
      destruct (Forall2_lookup_l _ _ _ _ _ H2 Hi) as (a' & Hi' & _ & Ha' & _).
      destruct (Forall2_lookup_l _ _ _ _ _ H2 Hj) as (b' & Hj' & _ & Hb' & _).
      assert (Hab : exposure_eq a' b' = true).
      { unfold exposure_eq. rewrite Ha in Ha'. rewrite Hb in Hb'.
        by injection Ha' as <-; injection Hb' as <-. }
      destruct (decide (i < j)) as [Hlt'|Hge].
      * pose proof (ForallOrdPairs_lookup _ _ _ _ _ _ Hd Hlt' Hi' Hj') as Hne.
        unfold differ in Hne. congruence.
      * assert (Hlt' : j < i) by lia.
        pose proof (ForallOrdPairs_lookup _ _ _ _ _ _ Hd Hlt' Hj' Hi') as Hne.
        unfold differ in Hne. rewrite exposure_eq_sym in Hne. congruence.
Qed.

(** The studio bracket, discovered as 1/32, 1/128, 1/8, comes out ordered
    1/128, 1/32, 1/8; the series with 1/32 at both ends is turned down. *)
Lemma check_strictly_increasing_witness :
  (∃ s' w, ExposureSeries_check (H := Studio.libs) Studio.bracket = Ok (s', w) ∧
           filename <$> exposures s' = ["img_1.cr2"; "img_0.cr2"; "img_2.cr2"] ∧
           StronglySorted (is_lt exposure_lt) (exposures s')) ∧
  (∃ it, ExposureSeries_check (H := Studio.libs) Studio.twice
           = Throw (DuplicateExposureError it)).
Proof.
  split.
  - destruct (check_loop (H := Studio.libs) 0 (exposures Studio.bracket)
                (check_init Studio.bracket)) as [[exps st]| |] eqn:Hloop;
      [|vm_compute in Hloop; discriminate..].
    assert (Htimed : Forall timed exps).
    { vm_compute in Hloop. injection Hloop as <- _. repeat constructor. }
    destruct (check_strictly_increasing Studio.bracket exps st Hloop Htimed) as [Hok _].
    eexists _, _. split; [vm_compute; reflexivity|]. split; [reflexivity|].
    eapply Hok. vm_compute. reflexivity.
  - destruct (check_loop (H := Studio.libs) 0 (exposures Studio.twice)
                (check_init Studio.twice)) as [[exps st]| |] eqn:Hloop;
      [|vm_compute in Hloop; discriminate..].
    assert (Htimed : Forall timed exps).
    { vm_compute in Hloop. injection Hloop as <- _. repeat constructor. }
    destruct (check_strictly_increasing Studio.twice exps st Hloop Htimed) as [_ Hdup].
    apply (Hdup 0 2 (Exposure_new "dup_0.cr2") (Exposure_new "dup_2.cr2")
             (f32_div (f32_of_int 1) (f32_of_int 32))
             (f32_div (f32_of_int 1) (f32_of_int 32)));
      [lia|reflexivity..].
Defined.

(** Claim C1 as stated fails: two frames whose shutter speed value is not a
    number pass [check], and the exposures it leaves are not strictly
    increasing: neither exposure time is below the other, in either order. *)
Lemma nan_times_pass_unordered :
  ∃ s' a b,
    ExposureSeries_check (H := Darkroom.libs)
      (Darkroom.series ["bulb_0.cr2"; "bulb_1.cr2"]) = Ok (s', []) ∧
    exposures s' = [a; b] ∧
    exposure_lt a b = false ∧ exposure_lt b a = false ∧
    ¬ StronglySorted (is_lt exposure_lt) (exposures s').
Proof.
  eexists _, _, _. split; [vm_compute; reflexivity|]. split; [reflexivity|].
  split; [reflexivity|]. split; [reflexivity|].
  simpl. intros [_ Hlt%Forall_cons_1]%StronglySorted_inv. by destruct Hlt.
Qed.

(** Claim C2, amended.  After [load], the image of every frame has
    [dim_x * dim_y] pixels, and the pixel at row [y] and column [x] is
    computed from the raw sample at [y * (pitch / 2) + x] (the row stride of
    the decoder is used to read and then dropped) as the single-precision
    product of [sample - offset] and the reciprocal [1.0f / (whitePoint -
    offset)], where [offset] is the black level as a 16-bit unsigned
    integer.  With black level 100 and white point 4100 the sample 2100
    gives exactly one half. *)
Theorem load_normalizes_pixels `{Collaborators} (s s' : ExposureSeries) i e raw y x :
  ExposureSeries_load s = Ok s' →
  exposures s !! i = Some e →
  RawSpeed_decode (filename e) = DecodedRaw raw →
  y < dim_y raw → x < dim_x raw →
  ∃ e' img sample,
    exposures s' !! i = Some e' ∧ filename e' = filename e ∧ image e' = Some img ∧
    length img = dim_x raw * dim_y raw ∧
    getData raw !! (y * (pitch raw / 2) + x) = Some sample ∧
    img !! (y * dim_x raw + x) =
      Some (f32_mul (f32_of_int (sample - to_uint16 (blackLevel raw)))
                    (f32_div (f32_of_int 1)
                             (f32_of_int (whitePoint raw - to_uint16 (blackLevel raw))))) ∧
    (blackLevel raw = 100%Z → whitePoint raw = 4100%Z → sample = 2100%Z →
     img !! (y * dim_x raw + x) = Some (f32_div (f32_of_int 1) (f32_of_int 2))).
Proof.
  intros (exps & ? & ? & Hloop & <- & _)%load_Ok Hi Hraw Hy Hx.
  apply load_loop_frames in Hloop.
  destruct (Forall2_lookup_l _ _ _ _ _ Hloop Hi) as (e' & Hi' & raw' & img & Hraw' & _ & Himg & ->).
  rewrite Hraw in Hraw'. injection Hraw' as <-.
  apply normalize_Some in Himg as [Hlen Hpix].
  destruct (Hpix y x Hy Hx) as (v & Hv & Hp).
  exists (set_image img e), img, v. repeat split; try done.
  intros Hb Hw ->. rewrite Hp. unfold normalize_sample, scale_factor, black_offset.
  rewrite Hb, Hw. vm_compute. reflexivity.
Qed.

(** The first pixel of the longest studio exposure: the sample 2100 becomes
    one half. *)
Lemma load_normalizes_pixels_witness :
  ∃ s' e' img,
    ExposureSeries_load (H := Studio.libs) (Studio.series ["img_2.cr2"]) = Ok s' ∧
    exposures s' !! 0 = Some e' ∧ image e' = Some img ∧ length img = 4 ∧
    img !! 0 = Some (f32_div (f32_of_int 1) (f32_of_int 2)).
Proof.
  destruct (ExposureSeries_load (H := Studio.libs) (Studio.series ["img_2.cr2"]))
    as [s'| |] eqn:Hload; [|vm_compute in Hload; discriminate..].
  destruct (load_normalizes_pixels (Studio.series ["img_2.cr2"]) s' 0
              (Exposure_new "img_2.cr2")
              (Studio.sensor [2100; 100; 7; 7; 4100; 1100; 7; 7]%Z) 0 0
              Hload eq_refl eq_refl)
    as (e' & img & sample & He' & _ & Himg & Hlen & Hsample & _ & Hhalf);
    [simpl; lia..|].
  exists s', e', img. repeat split; try done.
  apply Hhalf; [reflexivity..|]. vm_compute in Hsample. by injection Hsample as <-.
Defined.

(** Claim C2 as stated fails: with black level 100 and white point 4100 the
    sample 105 is normalized to a float that is neither the single-precision
    quotient 5 / 4000 nor, exactly, the rational 5/4000 (multiplying by the
    rounded reciprocal is one unit in the last place above the quotient). *)
Lemma reciprocal_is_not_quotient :
  ∃ s' e' p rest,
    ExposureSeries_load (H := Studio.libs) (Studio.series ["single.cr2"]) = Ok s' ∧
    RawSpeed_decode (Collaborators := Studio.libs) "single.cr2"
      = DecodedRaw (Studio.sensor [105; 100; 7; 7; 4100; 1100; 7; 7]%Z) ∧
    exposures s' = [e'] ∧ image e' = Some (p :: rest) ∧
    p ≠ f32_div (f32_of_int (105 - 100)) (f32_of_int (4100 - 100)) ∧
    ¬ (float_to_Q p == (105 - 100) # (4100 - 100))%Q.
Proof.
  eexists _, _, _, _. split; [vm_compute; reflexivity|]. split; [reflexivity|].
  split; [reflexivity|]. split; [reflexivity|]. split.
  - vm_compute. discriminate.
  - vm_compute. discriminate.
Qed.

(** Claim C3.  After [load] the last frame of the series holds the
    normalized image of its own file, unchanged, and the saturation is the
    estimate computed from that image alone.  When that frame has the
    dimensions of the series, fewer than 2^31 pixels and no pixel that is
    not a number, the saturation is the element at index
    [floor (N * 999 / 1000)] of the ascending rearrangement of its
    [N = width * height] pixels.  In a series that is strictly increasing in
    exposure time, as [check] leaves it, every other frame has a shorter
    exposure time than that last frame. *)
Theorem load_estimates_saturation `{Collaborators} (s s' : ExposureSeries) :
  ExposureSeries_load s = Ok s' →
  ∃ e0 e raw img,
    (* the last frame of the series, decoded and normalized *)
    last (exposures s) = Some e0 ∧ last (exposures s') = Some e ∧
    filename e = filename e0 ∧ exposure e = exposure e0 ∧
    RawSpeed_decode (filename e) = DecodedRaw raw ∧
    normalize raw = Some img ∧ image e = Some img ∧
    (* nothing but its pixels goes into the estimate *)
    estimate_saturation (width s' * height s') img = Ok (saturation s') ∧
    (* the estimate is the pixel of rank floor(N * 0.999) *)
    (dim_x raw = width s' → dim_y raw = height s' →
     (Z.of_nat (width s' * height s') < 2 ^ 31)%Z → Forall not_nan img →
     ∃ sorted, sorted ≡ₚ img ∧ StronglySorted (not_gt float_lt) sorted ∧
               sorted !! (width s' * height s' * 999 / 1000) = Some (saturation s')) ∧
    (* in a series sorted by [check] it is the longest exposure *)
    (StronglySorted (is_lt exposure_lt) (exposures s) →
     ∀ i e1, exposures s' !! i = Some e1 → S i < length (exposures s') →
             exposure_lt e1 e = true).
Proof.
  intros (exps & e & img & Hloop & Hexps & _ & Hlast & Himg & Hsat)%load_Ok.
  apply load_loop_frames in Hloop.
  pose proof (Forall2_length _ _ _ Hloop) as Hlen.
  assert (Hi : exps !! (length exps - 1) = Some e).
  { rewrite last_lookup in Hlast. by replace (length exps - 1) with (pred (length exps)) by lia. }
  destruct (Forall2_lookup_r _ _ _ _ _ Hloop Hi) as (e0 & Hi0 & raw & img' & Hraw & _ & Hnorm & ->).
  simpl in Himg. injection Himg as ->.
  exists e0, (set_image img e0), raw, img. rewrite Hexps.
  split. { rewrite last_lookup, <- Hi0. f_equal. lia. }
  repeat split; try done.
  - intros Hw Hh Hn Hnan. apply normalize_Some in Hnorm as [Himglen _].
    rewrite Hw, Hh in Himglen. rewrite <- Himglen in *.
    by apply estimate_saturation_rank.
  - intros Hsorted i e1 Hi1 Hlt.
    destruct (Forall2_lookup_r _ _ _ _ _ Hloop Hi1) as (e1' & Hi1' & ? & ? & _ & _ & _ & ->).
    change (exposure_lt e1' e0 = true).
    apply (strongly_sorted_last (is_lt exposure_lt) (exposures s) e0 e1' i); try done.
    + rewrite last_lookup, <- Hi0. f_equal. lia.
    + lia.
Qed.

(** The validated studio bracket: the saturation 1.0 is the pixel of rank
    3 of the four pixels of the 1/8 s frame. *)
Lemma load_estimates_saturation_witness :
  ∃ s' e,
    ExposureSeries_load (H := Studio.libs) Studio.validated = Ok s' ∧
    last (exposures s') = Some e ∧ filename e = "img_2.cr2" ∧
    saturation s' = f32_of_int 1 ∧
    (∃ img sorted, image e = Some img ∧ sorted ≡ₚ img ∧
                   StronglySorted (not_gt float_lt) sorted ∧
                   sorted !! (4 * 999 / 1000) = Some (saturation s')) ∧
    (∀ i e1, exposures s' !! i = Some e1 → S i < 3 → exposure_lt e1 e = true).
Proof.
  destruct (ExposureSeries_load (H := Studio.libs) Studio.validated)
    as [s'| |] eqn:Hload; [|vm_compute in Hload; discriminate..].
  destruct (load_estimates_saturation Studio.validated s' Hload)
    as (e0 & e & raw & img & He0 & He & Hname & _ & Hraw & Hnorm & Himg & Hsat & Hrank & Hlong).
  vm_compute in He0. injection He0 as <-. simpl in Hname.
  rewrite Hname in Hraw. vm_compute in Hraw. injection Hraw as <-.
  vm_compute in Hnorm. injection Hnorm as <-.
  vm_compute in Hload. injection Hload as <-.
  eexists _, e. split; [reflexivity|]. split; [exact He|]. split; [exact Hname|].
  split; [reflexivity|]. split.
  - destruct (Hrank eq_refl eq_refl ltac:(vm_compute; reflexivity) ltac:(repeat constructor))
      as (sorted & Hperm & Hsorted & Hnth).
    eexists _, sorted. split; [exact Himg|]. split; [exact Hperm|].
    split; [exact Hsorted|exact Hnth].
  - intros i e1 Hi Hlt. apply (Hlong ltac:(repeat constructor) i e1 Hi Hlt).
Defined.

(** Claim C4.  For a series whose first frame carries the required
    metadata: the first frame sets the ISO and f-number references; a later
    frame whose ISO, or else whose f-number, differs from them makes [check]
    fail with an inconsistent-settings error naming that frame, once the
    frames before it have passed, and makes [check] fail in any case; and a
    series whose frames all carry the required metadata, with the ISO and
    f-number of the first frame and pairwise different exposure times,
    passes. *)
Theorem check_iso_aperture_consistency `{Collaborators}
    (s : ExposureSeries) e0 rest d0 sh0 et0 iso0 fn0 em0 :
  exposures s = e0 :: rest →
  ImageFactory_open (filename e0) = Some d0 →
  complete d0 sh0 et0 iso0 fn0 em0 →
  (* the first frame sets the references *)
  (∃ e0' st1, check_exposure 0 e0 (check_init s) = Ok (e0', st1) ∧
              isoSpeed st1 = toFloat iso0 ∧ aperture st1 = toFloat fn0)
  (* a later frame that differs from them is rejected *)
  ∧ (∀ pre e post exps st d sh et iso,
       rest = pre ++ e :: post →
       check_loop 0 (e0 :: pre) (check_init s) = Ok (exps, st) →
       ImageFactory_open (filename e) = Some d →
       findKey "Exif.Photo.ShutterSpeedValue" d = Some sh →
       Exiv2_exposureTime d = Some et → Exiv2_isoSpeed d = Some iso →
       (float_ne (toFloat iso0) (toFloat iso) = true →
        ExposureSeries_check s = Throw (InconsistentSettingsError (filename e) ISOSpeed))
       ∧ (∀ fn, float_eq (toFloat iso0) (toFloat iso) = true →
                Exiv2_fNumber d = Some fn →
                float_ne (toFloat fn0) (toFloat fn) = true →
                ExposureSeries_check s =
                  Throw (InconsistentSettingsError (filename e) FNumber)))
  ∧ (∀ e d iso fn,
       e ∈ rest → ImageFactory_open (filename e) = Some d →
       Exiv2_isoSpeed d = Some iso → Exiv2_fNumber d = Some fn →
       float_ne (toFloat iso0) (toFloat iso) = true ∨
       float_ne (toFloat fn0) (toFloat fn) = true →
       ∃ err, ExposureSeries_check s = Throw err)
  (* a consistent series with distinct exposure times passes *)
  ∧ (Forall (λ e, ∃ d sh et iso fn em,
                ImageFactory_open (filename e) = Some d ∧ complete d sh et iso fn em ∧
                float_eq (toFloat iso0) (toFloat iso) = true ∧
                float_eq (toFloat fn0) (toFloat fn) = true) rest →
     (∀ i j a b ta tb,
        i < j → exposures s !! i = Some a → exposures s !! j = Some b →
        derived_time a = Some ta → derived_time b = Some tb → float_eq ta tb = false) →
     ∃ s' w, ExposureSeries_check s = Ok (s', w)).
Proof.
  intros Hs Hopen0 Hc0.
  pose proof (check_exposure_first e0 (check_init s) d0 sh0 et0 iso0 fn0 em0 Hopen0 Hc0) as H0.
  set (st1 := mkCheckState (toFloat iso0) (toFloat fn0)
                (collect_metadata d0 (collected (check_init s)))
                (cerr (check_init s) ++ frame_warnings (filename e0) d0 em0)) in *.
  split; [|split; [|split]].
  - by exists (checked e0 sh0 et0), st1.
  - intros pre e post exps st d sh et iso -> Hpre Hopen Hsh Het Hiso.
    apply check_loop_cons in Hpre as (e0' & st1' & pre' & He0 & Hpre & ->).
    rewrite H0 in He0. injection He0 as <- <-.
    destruct (check_loop_refs _ _ _ _ _ (Nat.neq_succ_0 0) Hpre) as (Hi & Ha & _).
    simpl in Hi, Ha.
    assert (Hloop : ∀ err, check_exposure (S (length pre)) e st = Throw err →
              ExposureSeries_check s = Throw err).
    { intros err He. unfold ExposureSeries_check. rewrite Hs. simpl. rewrite H0. simpl.
      rewrite check_loop_app, Hpre. simpl. replace (1 + length pre) with (S (length pre)) by done. by rewrite He. }
    split.
    + intros Hne. apply Hloop. unfold check_exposure.
      rewrite Hopen; simpl. rewrite Hsh; simpl. rewrite Het; simpl. rewrite Hiso; simpl.
      by rewrite Hi, Hne.
    + intros fn Heq Hfn Hne. apply Hloop. unfold check_exposure.
      rewrite Hopen; simpl. rewrite Hsh; simpl. rewrite Het; simpl. rewrite Hiso; simpl.
      unfold float_ne in *. rewrite Hi, Heq; simpl. rewrite Hfn; simpl.
      by rewrite Ha, Hne.
  - intros e d iso fn He Hopen Hiso Hfn Hne.
    destruct (ExposureSeries_check s) as [[s' w]|err|] eqn:E.
    + apply check_Ok in E as (exps & st & Hloop & _). rewrite Hs in Hloop.
      apply check_loop_cons in Hloop as (e0' & st1' & rest' & He0 & Hrest & ->).
      rewrite H0 in He0. injection He0 as <- <-.
      apply check_loop_refs in Hrest as (_ & _ & Hall); [|done].
      rewrite Forall_forall in Hall.
      destruct (Hall e He) as (d' & ? & ? & iso' & fn' & ? & Hopen' & [_ _ Hiso' Hfn' _] & Hi & Ha).
      simpl in Hi, Ha. simplify_eq. unfold float_ne in Hne. rewrite Hi, Ha in Hne.
      by destruct Hne.
    + by exists err.
    + by apply check_defined in E.
  - intros Hall Hdistinct.
    destruct (check_loop_pass 1 rest st1) as (rest' & st' & Hrest); [done|done|].
    assert (Hloop : check_loop 0 (exposures s) (check_init s) =
                      Ok (checked e0 sh0 et0 :: rest', st')).
    { rewrite Hs. simpl. rewrite H0. simpl. by rewrite Hrest. }
    rewrite (check_unfold s _ _ Hloop).
    rewrite distinct_adjacent_find; [by eexists _, _|].
    apply (ForallOrdPairs_perm _ (checked e0 sh0 et0 :: rest') _ differ_sym);
      [by rewrite exposure_sort_perm|].
    pose proof (check_loop_derived _ _ _ _ _ Hloop) as H2.
    apply ForallOrdPairs_from_lookup. intros i j a' b' Hij Hi Hj.
    destruct (Forall2_lookup_r _ _ _ _ _ H2 Hi) as (a & Ha & _ & Hta & _).
    destruct (Forall2_lookup_r _ _ _ _ _ H2 Hj) as (b & Hb & _ & Htb & _).
    apply (Hdistinct i j a b _ _ Hij Ha Hb Hta Htb).
Qed.

(** Two studio frames at ISO 100 and ISO 200 are turned down; the bracket
    at ISO 100 and f/8 passes. *)
Lemma check_iso_aperture_consistency_witness :
  ExposureSeries_check (H := Studio.libs) Studio.two_speeds
    = Throw (InconsistentSettingsError "iso_1.cr2" ISOSpeed) ∧
  ∃ s' w, ExposureSeries_check (H := Studio.libs) Studio.bracket = Ok (s', w).
Proof.
  assert (Hc : ∀ apex iso m,
            complete (Studio.frame apex iso m) (Studio.shutter apex) (Studio.time apex)
                     (Studio.speed iso) (Studio.fnumber 8) (Studio.mode m)).
  { intros. constructor; reflexivity. }
  split.
  - destruct (check_iso_aperture_consistency (H := Studio.libs) Studio.two_speeds
                (Exposure_new "iso_0.cr2") [Exposure_new "iso_1.cr2"]
                _ _ _ _ _ _ eq_refl eq_refl (Hc 5%Z 100%Z "Manual"))
      as (_ & Hne & _).
    edestruct (Hne [] (Exposure_new "iso_1.cr2") []) as [Hiso _];
      [reflexivity|vm_compute; reflexivity|reflexivity..|].
    apply Hiso. vm_compute. reflexivity.
  - destruct (check_iso_aperture_consistency (H := Studio.libs) Studio.bracket
                (Exposure_new "img_0.cr2")
                [Exposure_new "img_1.cr2"; Exposure_new "img_2.cr2"]
                _ _ _ _ _ _ eq_refl eq_refl (Hc 5%Z 100%Z "Manual"))
      as (_ & _ & _ & Hpass).
    apply Hpass.
    + repeat constructor.
      * eexists _, _, _, _, _, _. split; [reflexivity|]. split; [apply (Hc 7%Z 100%Z "Manual")|].
        split; vm_compute; reflexivity.
      * eexists _, _, _, _, _, _. split; [reflexivity|]. split; [apply (Hc 3%Z 100%Z "Manual")|].
        split; vm_compute; reflexivity.
    + intros i j a b ta tb Hij Hi Hj Ha Hb.
      destruct i as [|[|[|i]]], j as [|[|[|j]]]; try lia; try discriminate;
        injection Hi as <-; injection Hj as <-;
        vm_compute in Ha, Hb; injection Ha as <-; injection Hb as <-; reflexivity.
Defined.

(** Claim C5, amended.  An attribute whose value size, as
    [value().size()] reports it, exceeds 100 leaves the dictionary as it is;
    the length of its text is not looked at.  Otherwise a new key stores the
    text, a text equal to the stored one leaves the dictionary as it is, a
    different text replaces the entry by the stored text, a semicolon and a
    space, and the new text; merging the same key from two frames gives the
    one text, or the first and the second joined that way.  The metadata
    after [check] is this merge over the entries of all frames in the order
    of discovery. *)
Theorem metadata_merge `{Collaborators} (md : gmap string string) (it : Exifdatum) :
  ((100 < value_size it)%Z → merge_attribute md it = md)
  ∧ ((value_size it ≤ 100)%Z →
     (md !! key it = None → merge_attribute md it = <[key it := toString it]> md)
     ∧ (md !! key it = Some (toString it) → merge_attribute md it = md)
     ∧ (∀ current, md !! key it = Some current → current ≠ toString it →
          merge_attribute md it = <[key it := current +:+ "; " +:+ toString it]> md)
     ∧ (∀ it', key it' = key it → (value_size it' ≤ 100)%Z → md !! key it = None →
          merge_attribute (merge_attribute md it) it' !! key it =
            Some (if bool_decide (toString it' = toString it) then toString it
                  else toString it +:+ "; " +:+ toString it')))
  ∧ (∀ s s' w, ExposureSeries_check s = Ok (s', w) →
       ∃ ds, Forall2 (λ e d, ImageFactory_open (filename e) = Some d) (exposures s) ds ∧
             metadata s' = foldl (λ m d, foldl merge_attribute m (entries d)) (metadata s) ds).
Proof.
  split; [|split].
  - intros Hsize. unfold merge_attribute. by rewrite bool_decide_eq_true_2.
  - intros Hsize.
    assert (Hmerge : ∀ m i, (value_size i ≤ 100)%Z → merge_attribute m i =
              match m !! key i with
              | Some current => if bool_decide (toString i = current) then m
                                else <[key i := current +:+ "; " +:+ toString i]> m
              | None => <[key i := toString i]> m
              end).
    { intros m i Hi. unfold merge_attribute. rewrite bool_decide_eq_false_2; [done|lia]. }
    rewrite (Hmerge md it Hsize). repeat split.
    + by intros ->.
    + intros ->. by rewrite bool_decide_eq_true_2.
    + intros current -> Hne. by rewrite bool_decide_eq_false_2.
    + intros it' Hkey Hsize' ->. rewrite (Hmerge _ it' Hsize'), Hkey, lookup_insert_eq.
      case_bool_decide as Heq.
      * by rewrite lookup_insert_eq.
      * by rewrite lookup_insert_eq.
  - intros s s' w (exps & st & Hloop & _ & _ & -> & _)%check_Ok.
    by apply check_loop_collected in Hloop.
Qed.

(** Merging the exposure time of a second frame, and a maker note of 4096
    bytes. *)
Lemma metadata_merge_witness :
  merge_attribute {[ "Exif.Photo.ExposureTime" := "1/32" ]} (Studio.time 7)
    = {[ "Exif.Photo.ExposureTime" := "1/32; 1/128" ]} ∧
  merge_attribute {[ "Exif.Photo.ExposureTime" := "1/32" ]} Studio.makernote
    = {[ "Exif.Photo.ExposureTime" := "1/32" ]}.
Proof.
  pose proof (metadata_merge (H := Studio.libs)
                {[ "Exif.Photo.ExposureTime" := "1/32" ]} (Studio.time 7)) as (_ & Hsmall & _).
  pose proof (metadata_merge (H := Studio.libs)
                {[ "Exif.Photo.ExposureTime" := "1/32" ]} Studio.makernote) as (Hbig & _).
  split.
  - destruct Hsmall as (_ & _ & Hdiff & _); [simpl; lia|].
    rewrite (Hdiff "1/32"); [|reflexivity|discriminate].
    apply map_eq. intros k. vm_compute (key _). 
    rewrite insert_singleton_eq. reflexivity.
  - apply Hbig. simpl. lia.
Defined.

(** Claim C5 as stated fails: six rationals take 48 bytes and print as a
    text of 112 characters, which is merged, not skipped. *)
Lemma long_text_is_merged :
  100 < String.length (toString Studio.chromaticities) ∧
  merge_attribute ∅ Studio.chromaticities !! key Studio.chromaticities
    = Some (toString Studio.chromaticities).
Proof. split; [vm_compute; lia|reflexivity]. Qed.

(** Claim C6.  A frame that can be opened and has no shutter speed value
    makes [check_exposure] throw a missing-field error, and makes [check]
    fail for any series that contains it; a frame that passes gets the
    exposure time [pow (2, - apex)] of its shutter speed value, and so does
    every frame of a series that [check] accepts. *)
Theorem check_derives_exposure_time `{Collaborators} (s : ExposureSeries) :
  (∀ idx e st d,
     ImageFactory_open (filename e) = Some d →
     findKey "Exif.Photo.ShutterSpeedValue" d = None →
     check_exposure idx e st = Throw (MissingFieldError (filename e) ShutterSpeedValue))
  ∧ (∀ idx e st e' st',
       check_exposure idx e st = Ok (e', st') →
       ∃ d it, ImageFactory_open (filename e) = Some d ∧
               findKey "Exif.Photo.ShutterSpeedValue" d = Some it ∧
               exposure e' = std_pow2 (SFopp (toFloat it)))
  ∧ (∀ e d, e ∈ exposures s → ImageFactory_open (filename e) = Some d →
            findKey "Exif.Photo.ShutterSpeedValue" d = None →
            ∃ err, ExposureSeries_check s = Throw err)
  ∧ (∀ s' w, ExposureSeries_check s = Ok (s', w) →
       Forall (λ e', ∃ d it, ImageFactory_open (filename e') = Some d ∧
                             findKey "Exif.Photo.ShutterSpeedValue" d = Some it ∧
                             exposure e' = std_pow2 (SFopp (toFloat it)))
              (exposures s')).
Proof.
  assert (Hderived : ∀ e t, derived_time e = Some t →
            ∃ d it, ImageFactory_open (filename e) = Some d ∧
                    findKey "Exif.Photo.ShutterSpeedValue" d = Some it ∧
                    t = std_pow2 (SFopp (toFloat it))).
  { intros e t. unfold derived_time.
    destruct (ImageFactory_open (filename e)) as [d|] eqn:Hopen; simpl; [|done].
    destruct (findKey _ d) as [it|] eqn:Hit; simpl; [|done].
    intros [= <-]. by exists d, it. }
  split; [|split; [|split]].
  - intros idx e st d Hopen Hsh. unfold check_exposure.
    rewrite Hopen; simpl. by rewrite Hsh.
  - intros idx e st e' st' (_ & Ht & _)%check_exposure_derived. by apply Hderived.
  - intros e d He Hopen Hsh.
    destruct (ExposureSeries_check s) as [[s' w]|err|] eqn:E.
    + apply check_Ok in E as (exps & st & Hloop & _).
      apply check_loop_complete in Hloop. rewrite Forall_forall in Hloop.
      destruct (Hloop e He) as (d' & sh & ? & ? & ? & ? & Hopen' & [Hsh' _ _ _ _]).
      congruence.
    + by exists err.
    + by apply check_defined in E.
  - intros s' w (exps & st & Hloop & _ & -> & _)%check_Ok.
    rewrite exposure_sort_perm.
    apply check_loop_derived in Hloop.
    apply Forall_forall. intros e' He'.
    apply list_elem_of_lookup in He' as [i Hi].
    destruct (Forall2_lookup_r _ _ _ _ _ Hloop Hi) as (e & _ & Hf & Ht & _).
    rewrite Hf. by apply Hderived.
Qed.

(** A studio frame without shutter speed value is turned down; the bracket
    gets the exposure times 2^-7, 2^-5 and 2^-3. *)
Lemma check_derives_exposure_time_witness :
  ExposureSeries_check (H := Studio.libs) (Studio.series ["noshutter.cr2"])
    = Throw (MissingFieldError "noshutter.cr2" ShutterSpeedValue) ∧
  ∃ s' w, ExposureSeries_check (H := Studio.libs) Studio.bracket = Ok (s', w) ∧
          exposure <$> exposures s' =
            [Studio.exact_pow2 (f32_of_int (-7)); Studio.exact_pow2 (f32_of_int (-5));
             Studio.exact_pow2 (f32_of_int (-3))].
Proof.
  split.
  - destruct (check_derives_exposure_time (H := Studio.libs)
                (Studio.series ["noshutter.cr2"])) as (Hmissing & _).
    unfold ExposureSeries_check. simpl exposures. unfold check_loop.
    rewrite (Hmissing 0 (Exposure_new "noshutter.cr2") _
               (Studio.without_shutter (Studio.frame 5 100 "Manual")));
      reflexivity.
  - destruct (ExposureSeries_check (H := Studio.libs) Studio.bracket)
      as [[s' w]| |] eqn:Hcheck; [|vm_compute in Hcheck; discriminate..].
    destruct (check_derives_exposure_time (H := Studio.libs) Studio.bracket)
      as (_ & _ & _ & Hall).
    specialize (Hall s' w Hcheck).
    exists s', w. split; [done|].
    vm_compute in Hcheck. injection Hcheck as <- _. reflexivity.
Defined.

(** Claim C7.  A decoded frame that is subsampled in either direction, or
    else is not in 16-bit unsigned samples, or else has no color filter
    array, makes [load_exposure] throw an unsupported-format error, each
    condition on its own; [load] then throws that error once the frames
    before it have been loaded, and never completes for a series that
    contains such a frame. *)
Theorem load_rejects_unsupported `{Collaborators} (s : ExposureSeries) :
  (∀ i e dims raw,
     RawSpeed_decode (filename e) = DecodedRaw raw →
     (subsampling_x raw ≠ 1%Z ∨ subsampling_y raw ≠ 1%Z →
      load_exposure i e dims = Throw (UnsupportedFormatError Subsampled))
     ∧ (subsampling_x raw = 1%Z → subsampling_y raw = 1%Z →
        getDataType raw ≠ TYPE_USHORT16 →
        load_exposure i e dims = Throw (UnsupportedFormatError Not16Bit))
     ∧ (subsampling_x raw = 1%Z → subsampling_y raw = 1%Z →
        getDataType raw = TYPE_USHORT16 → isCFA raw = false →
        load_exposure i e dims = Throw (UnsupportedFormatError NoColorFilterArray)))
  ∧ (∀ pre e post exps dims raw,
       exposures s = pre ++ e :: post →
       load_loop 0 pre (width s, height s) = Ok (exps, dims) →
       RawSpeed_decode (filename e) = DecodedRaw raw → ¬ supported raw →
       ∃ why, ExposureSeries_load s = Throw (UnsupportedFormatError why))
  ∧ (∀ e raw s',
       e ∈ exposures s → RawSpeed_decode (filename e) = DecodedRaw raw →
       ¬ supported raw → ExposureSeries_load s ≠ Ok s').
Proof.
  split; [|split].
  - intros i e dims raw Hraw. unfold load_exposure. rewrite Hraw. repeat split.
    + intros Hsub. by rewrite bool_decide_eq_true_2.
    + intros Hx Hy Htype. rewrite bool_decide_eq_false_2 by (intros [?|?]; done).
      by rewrite bool_decide_eq_true_2.
    + intros Hx Hy Htype Hcfa. rewrite bool_decide_eq_false_2 by (intros [?|?]; done).
      rewrite bool_decide_eq_false_2 by (intros ?; done). by rewrite Hcfa.
  - intros pre e post exps dims raw Hs Hpre Hraw Hns.
    destruct (load_exposure_unsupported (length pre) e dims raw Hraw Hns) as [why Hwhy].
    exists why. unfold ExposureSeries_load. rewrite Hs, load_loop_app, Hpre. simpl.
    by rewrite Hwhy.
  - intros e raw s' He Hraw Hns (exps & ? & ? & Hloop & _)%load_Ok.
    apply load_loop_frames in Hloop.
    apply list_elem_of_lookup in He as [i Hi].
    destruct (Forall2_lookup_l _ _ _ _ _ Hloop Hi) as (e' & _ & raw' & img & Hraw' & Hsup & _).
    congruence.
Qed.

(** Studio files subsampled (2, 1), in 32-bit floats and without a color
    filter array. *)
Lemma load_rejects_unsupported_witness :
  ExposureSeries_load (H := Studio.libs) Studio.subsampled
    = Throw (UnsupportedFormatError Subsampled) ∧
  load_exposure (H := Studio.libs) 0 (Exposure_new "f32.cr2") (0, 0)
    = Throw (UnsupportedFormatError Not16Bit) ∧
  load_exposure (H := Studio.libs) 0 (Exposure_new "mono.cr2") (0, 0)
    = Throw (UnsupportedFormatError NoColorFilterArray).
Proof.
  destruct (load_rejects_unsupported (H := Studio.libs) Studio.subsampled)
    as (Hframe & Hseries & _).
  split; [|split].
  - edestruct (Hseries [Exposure_new "img_0.cr2"] (Exposure_new "sub.cr2") [])
      as [why Hwhy]; [reflexivity|vm_compute; reflexivity|reflexivity| |].
    + intros (Hx & _). vm_compute in Hx. discriminate.
    + rewrite Hwhy. vm_compute in Hwhy. by injection Hwhy as <-.
  - edestruct (Hframe 0 (Exposure_new "f32.cr2") (0, 0)) as (_ & H16 & _);
      [reflexivity|]. apply H16; [reflexivity..|discriminate].
  - edestruct (Hframe 0 (Exposure_new "mono.cr2") (0, 0)) as (_ & _ & Hcfa);
      [reflexivity|]. apply Hcfa; reflexivity.
Defined.



(** Claim C9, amended.  On a series without exposures [check] examines no
    frame, raises no error and completes, leaving the series as it is and
    writing no warning; and whenever [check] completes, the series has as
    many exposures as before: [check] does not establish that there is an
    exposure, the series is non-empty afterwards exactly when it was
    before. *)
Theorem check_empty_series_passes `{Collaborators} (s : ExposureSeries) :
  (exposures s = [] → ExposureSeries_check s = Ok (s, []))
  ∧ (∀ s' w, ExposureSeries_check s = Ok (s', w) →
       length (exposures s') = length (exposures s)).
Proof.
  split.
  - intros Hnil. destruct s as [exps md w h sat]. simpl in Hnil. subst exps.
    reflexivity.
  - intros s' w (exps & st & Hloop & _ & -> & _)%check_Ok.
    rewrite exposure_sort_perm.
    apply check_loop_derived, Forall2_length in Hloop. done.
Qed.

(** The empty studio series passes. *)
Lemma check_empty_series_passes_witness :
  ExposureSeries_check (H := Studio.libs) (Studio.series []) = Ok (Studio.series [], []).
Proof.
  apply (proj1 (check_empty_series_passes (H := Studio.libs) (Studio.series []))).
  reflexivity.
Defined.

(** Claim C9 as stated fails: [check] completes on the empty series. *)
Lemma check_accepts_empty_series :
  exposures (Studio.series []) = [] ∧
  ExposureSeries_check (H := Studio.libs) (Studio.series []) = Ok (Studio.series [], []).
Proof. split; reflexivity. Qed.

(** Claim C10.  A frame that can be opened and has no exposure mode makes
    [check_exposure] throw, a missing-field error for the exposure mode when
    the frame is otherwise in order, and makes [check] fail for any series
    that contains it; a frame that is in order and whose exposure mode is
    not printed as Manual passes with a warning on [cerr], which is among
    the warnings of a series that [check] accepts. *)
Theorem exposure_mode_required `{Collaborators} (s : ExposureSeries) :
  (∀ idx e st d,
     ImageFactory_open (filename e) = Some d → Exiv2_exposureMode d = None →
     (∃ err, check_exposure idx e st = Throw err) ∧
     (∀ sh et iso fn,
        findKey "Exif.Photo.ShutterSpeedValue" d = Some sh →
        Exiv2_exposureTime d = Some et → Exiv2_isoSpeed d = Some iso →
        Exiv2_fNumber d = Some fn →
        (idx ≠ 0 → float_eq (isoSpeed st) (toFloat iso) = true ∧
                   float_eq (aperture st) (toFloat fn) = true) →
        check_exposure idx e st = Throw (MissingFieldError (filename e) ExposureMode)))
  ∧ (∀ e d, e ∈ exposures s → ImageFactory_open (filename e) = Some d →
            Exiv2_exposureMode d = None →
            ∃ err, ExposureSeries_check s = Throw err)
  ∧ (∀ idx e st d sh et iso fn em,
       ImageFactory_open (filename e) = Some d → complete d sh et iso fn em →
       print em ≠ "Manual" →
       (idx ≠ 0 → float_eq (isoSpeed st) (toFloat iso) = true ∧
                  float_eq (aperture st) (toFloat fn) = true) →
       ∃ e' st', check_exposure idx e st = Ok (e', st') ∧
                 warn_exposure_mode (filename e) ∈ cerr st')
  ∧ (∀ s' w e d em,
       ExposureSeries_check s = Ok (s', w) → e ∈ exposures s →
       ImageFactory_open (filename e) = Some d → Exiv2_exposureMode d = Some em →
       print em ≠ "Manual" → warn_exposure_mode (filename e) ∈ w).
Proof.
  split; [|split; [|split]].
  - intros idx e st d Hopen Hem. split.
    + destruct (check_exposure idx e st) as [[e' st']|err|] eqn:E.
      * apply check_exposure_Ok in E as (d' & ? & ? & ? & ? & em & Hopen' & [_ _ _ _ Hem'] & _).
        congruence.
      * by exists err.
      * by apply check_exposure_defined in E.
    + intros sh et iso fn Hsh Het Hiso Hfn Href. unfold check_exposure.
      rewrite Hopen; simpl. rewrite Hsh; simpl. rewrite Het; simpl. rewrite Hiso; simpl.
      destruct (bool_decide (idx = 0)) eqn:Hidx; simpl.
      * rewrite Hfn; simpl. by rewrite Hem.
      * apply bool_decide_eq_false in Hidx. destruct (Href Hidx) as [Hi Ha].
        unfold float_ne. rewrite Hi; simpl. rewrite Hfn; simpl. rewrite Ha; simpl.
        by rewrite Hem.
  - intros e d He Hopen Hem.
    destruct (ExposureSeries_check s) as [[s' w]|err|] eqn:E.
    + apply check_Ok in E as (exps & st & Hloop & _).
      apply check_loop_complete in Hloop. rewrite Forall_forall in Hloop.
      destruct (Hloop e He) as (d' & ? & ? & ? & ? & em & Hopen' & [_ _ _ _ Hem']).
      congruence.
    + by exists err.
    + by apply check_defined in E.
  - intros idx e st d sh et iso fn em Hopen Hc Hprint Href.
    pose proof (frame_warnings_mode (filename e) d em Hprint) as Hw.
    destruct (decide (idx = 0)) as [->|Hidx].
    + rewrite (check_exposure_first e st d sh et iso fn em Hopen Hc).
      eexists _, _. split; [done|]. simpl. apply elem_of_app. by right.
    + destruct (Href Hidx) as [Hi Ha].
      rewrite (check_exposure_next idx e st d sh et iso fn em Hidx Hopen Hc Hi Ha).
      eexists _, _. split; [done|]. simpl. apply elem_of_app. by right.
  - intros s' w e d em (exps & st & Hloop & _ & _ & _ & ->)%check_Ok He Hopen Hem Hprint.
    apply check_loop_cerr in Hloop as [_ Hall]. rewrite Forall_forall in Hall.
    apply (Hall e He d em Hopen Hem). by apply frame_warnings_mode.
Qed.

(** A studio frame without exposure mode is turned down; the series with a
    frame in automatic mode passes with a warning for it. *)
Lemma exposure_mode_required_witness :
  ExposureSeries_check (H := Studio.libs) (Studio.series ["nomode.cr2"])
    = Throw (MissingFieldError "nomode.cr2" ExposureMode) ∧
  ∃ s' w, ExposureSeries_check (H := Studio.libs) Studio.automatic = Ok (s', w) ∧
          warn_exposure_mode "dsc_2.cr2" ∈ w.
Proof.
  split.
  - destruct (exposure_mode_required (H := Studio.libs) (Studio.series ["nomode.cr2"]))
      as (Habsent & _).
    edestruct (Habsent 0 (Exposure_new "nomode.cr2")
                 (check_init (Studio.series ["nomode.cr2"]))) as [_ Hthrow];
      [reflexivity..|].
    unfold ExposureSeries_check. simpl exposures. unfold check_loop.
    rewrite (Hthrow (Studio.shutter 5) (Studio.time 5) (Studio.speed 100) (Studio.fnumber 8));
      [reflexivity|reflexivity..|done].
  - destruct (ExposureSeries_check (H := Studio.libs) Studio.automatic)
      as [[s' w]| |] eqn:Hcheck; [|vm_compute in Hcheck; discriminate..].
    destruct (exposure_mode_required (H := Studio.libs) Studio.automatic)
      as (_ & _ & _ & Hwarn).
    exists s', w. split; [done|].
    apply (Hwarn s' w (Exposure_new "dsc_2.cr2") (Studio.frame 4 200 "Auto")
             (Studio.mode "Auto") Hcheck).
    + apply list_elem_of_In. simpl. auto.
    + reflexivity.
    + reflexivity.
    + discriminate.
Defined.

(** * Further properties of [add], [check] and [load]

    What the three functions do beyond the statements of the design
    document: what their errors and results imply, what they leave alone,
    and how they compose. *)

Section AddInversion.
Context `{Collaborators}.

Lemma numbered_snoc fmt k n :
  numbered fmt k (S n) = numbered fmt k n ++ [Exposure_new (snprintf fmt (k + n))].
Proof.
  unfold numbered. rewrite seq_S, fmap_app. done.
Qed.

Lemma add_scan_from_1_inv fuel fmt k exps r :
  add_scan_from_1 fuel fmt k exps = Some r →
  ∃ n, r = exps ++ numbered fmt k n ∧
       (∀ i, k ≤ i < k + n → access_F_OK (snprintf fmt i) = true) ∧
       access_F_OK (snprintf fmt (k + n)) = false.
Proof.
  revert k exps. induction fuel as [|fuel IH]; intros k exps; simpl; [done|].
  destruct (access_F_OK (snprintf fmt k)) eqn:Hk; simpl.
  - intros (n & -> & Hex & Hmiss)%IH. exists (S n).
    rewrite numbered_S, <- app_assoc. split; [done|]. split.
    + intros i Hi. destruct (decide (i = k)) as [->|]; [done|]. apply Hex. lia.
    + by replace (k + S n) with (S k + n) by lia.
  - intros [= <-]. exists 0. rewrite Nat.add_0_r, app_nil_r. split; [done|].
    split; [intros; lia|done].
Qed.

Lemma add_scan_from_0_inv fuel fmt k exps success r b :
  add_scan_from_0 fuel fmt k exps success = Some (r, b) →
  ∃ n, r = exps ++ numbered fmt k n ∧ b = success || bool_decide (0 < n) ∧
       (∀ i, k ≤ i < k + n → access_F_OK (snprintf fmt i) = true) ∧
       (access_F_OK (snprintf fmt (k + n)) = false ∨
        (k + n = 1 ∧ strchr fmt "%" = false)).
Proof.
  revert k exps success. induction fuel as [|fuel IH]; intros k exps success; simpl; [done|].
  destruct (access_F_OK (snprintf fmt k)) eqn:Hk; simpl.
  - destruct (bool_decide (k = 1) && negb (strchr fmt "%")) eqn:Hstop.
    + intros [= <- <-]. exists 0. rewrite Nat.add_0_r, app_nil_r, orb_false_r.
      apply andb_true_iff in Hstop as [Hk1%bool_decide_eq_true Hfmt%negb_true_iff].
      repeat split; try done; [intros; lia|by right].
    + intros (n & -> & -> & Hex & Hstop')%IH. exists (S n).
      rewrite numbered_S, <- app_assoc. simpl. rewrite orb_true_r.
      repeat split; try done.
      * intros i Hi. destruct (decide (i = k)) as [->|]; [done|]. apply Hex. lia.
      * by replace (k + S n) with (S k + n) by lia.
  - intros [= <- <-]. exists 0. rewrite Nat.add_0_r, app_nil_r, orb_false_r.
    repeat split; try done; [intros; lia|by left].
Qed.
End AddInversion.

(** Extra X1.  Whatever [add] returns, it has appended one run of
    consecutively numbered frames to the exposures and changed nothing else.
    Every file of the run exists.  Either the run starts at 0, is not empty
    and stops at the first missing file or, for a template without
    placeholder, after its one file; or the file for 0 is missing, and the
    run starts at 1 and stops at the first missing file. *)
Theorem add_appends_a_run `{Collaborators} (fuel : nat) (fmt : string)
    (s s' : ExposureSeries) :
  ExposureSeries_add fuel fmt s = Some s' →
  metadata s' = metadata s ∧ width s' = width s ∧ height s' = height s ∧
  saturation s' = saturation s ∧
  ∃ k n, exposures s' = exposures s ++ numbered fmt k n ∧
         (∀ i, k ≤ i < k + n → access_F_OK (snprintf fmt i) = true) ∧
         ((k = 0 ∧ 0 < n ∧
           (access_F_OK (snprintf fmt n) = false ∨ (n = 1 ∧ strchr fmt "%" = false)))
          ∨ (k = 1 ∧ access_F_OK (snprintf fmt 0) = false ∧
             access_F_OK (snprintf fmt (1 + n)) = false)).
Proof.
  unfold ExposureSeries_add. intros Hadd.
  destruct (add_scan_from_0 fuel fmt 0 (exposures s) false) as [[exps success]|] eqn:H0;
    [|done]. simpl in Hadd.
  apply add_scan_from_0_inv in H0 as (n & -> & -> & Hex & Hstop). simpl in Hadd.
  case_bool_decide as Hn; simpl in Hadd.
  - injection Hadd as <-. repeat split; try done.
    exists 0, n. repeat split; try done. left. done.
  - assert (n = 0) as -> by lia. rewrite app_nil_r in Hadd.
    destruct (add_scan_from_1 fuel fmt 1 (exposures s)) as [exps'|] eqn:H1; [|done].
    simpl in Hadd. injection Hadd as <-.
    apply add_scan_from_1_inv in H1 as (m & -> & Hex1 & Hmiss).
    repeat split; try done. exists 1, m. repeat split; try done. right.
    destruct Hstop as [?|[? _]]; [done|lia].
Qed.

(** The template [dsc_%d.cr2] of the studio has files for 1 and 2 only: the
    scan from 0 appends nothing, the scan from 1 appends the two frames. *)
Lemma add_appends_a_run_witness :
  ∃ s', ExposureSeries_add (H := Studio.libs) 4 "dsc_%d.cr2" (Studio.series []) = Some s' ∧
        Studio.names s' = ["dsc_1.cr2"; "dsc_2.cr2"] ∧
        metadata s' = ∅ ∧
        ∃ k n, exposures s' = [] ++ numbered (H := Studio.libs) "dsc_%d.cr2" k n ∧
               (∀ i, k ≤ i < k + n →
                     access_F_OK (Collaborators := Studio.libs)
                       (snprintf (Collaborators := Studio.libs) "dsc_%d.cr2" i) = true).
Proof.
  destruct (ExposureSeries_add (H := Studio.libs) 4 "dsc_%d.cr2" (Studio.series []))
    as [s'|] eqn:Hadd; [|vm_compute in Hadd; discriminate].
  destruct (add_appends_a_run (H := Studio.libs) 4 "dsc_%d.cr2" (Studio.series []) s' Hadd)
    as (Hmeta & _ & _ & _ & k & n & Hexps & Hfiles & _).
  exists s'. split; [reflexivity|]. split.
  - vm_compute in Hadd. injection Hadd as <-. reflexivity.
  - split; [exact Hmeta|]. exists k, n. split; [exact Hexps|exact Hfiles].
Defined.

Lemma string_app_assoc (a b c : string) : (a +:+ b) +:+ c = a +:+ (b +:+ c).
Proof.
  induction a as [|x a IH]; [done|].
  change (String x ((a +:+ b) +:+ c) = String x (a +:+ (b +:+ c))). by rewrite IH.
Qed.

Lemma string_app_length (a b : string) :
  String.length (a +:+ b) = String.length a + String.length b.
Proof.
  induction a as [|x a IH]; [done|].
  change (S (String.length (a +:+ b)) = S (String.length a + String.length b)).
  by rewrite IH.
Qed.

Lemma string_app_nil_r (a : string) : a +:+ EmptyString = a.
Proof.
  induction a as [|x a IH]; [done|].
  change (String x (a +:+ EmptyString) = String x a). by rewrite IH.
Qed.

Section MergeFacts.
Context `{Collaborators}.

(** An entry is never removed and its text is only ever extended. *)
Lemma merge_attribute_extends md it k v :
  md !! k = Some v → ∃ rest, merge_attribute md it !! k = Some (v +:+ rest).
Proof.
  intros Hk. unfold merge_attribute.
  case_bool_decide; [exists EmptyString; by rewrite string_app_nil_r|].
  destruct (md !! key it) as [current|] eqn:Hit.
  - case_bool_decide; [exists EmptyString; by rewrite string_app_nil_r|].
    destruct (decide (key it = k)) as [<-|Hne].
    + rewrite lookup_insert_eq. rewrite Hit in Hk. injection Hk as ->. by eexists.
    + rewrite lookup_insert_ne by done. exists EmptyString. by rewrite string_app_nil_r.
  - destruct (decide (key it = k)) as [<-|Hne]; [congruence|].
    rewrite lookup_insert_ne by done. exists EmptyString. by rewrite string_app_nil_r.
Qed.

Lemma foldl_merge_extends l md k v :
  md !! k = Some v → ∃ rest, foldl merge_attribute md l !! k = Some (v +:+ rest).
Proof.
  revert md v. induction l as [|it l IH]; intros md v Hk; simpl.
  - exists EmptyString. by rewrite string_app_nil_r.
  - destruct (merge_attribute_extends md it k v Hk) as [r1 H1].
    destruct (IH _ _ H1) as [r2 H2]. exists (r1 +:+ r2). by rewrite <- string_app_assoc.
Qed.

Lemma foldl_collect_extends ds md k v :
  md !! k = Some v →
  ∃ rest, foldl (λ m d, collect_metadata d m) md ds !! k = Some (v +:+ rest).
Proof.
  revert md v. induction ds as [|d ds IH]; intros md v Hk; simpl.
  - exists EmptyString. by rewrite string_app_nil_r.
  - destruct (foldl_merge_extends (entries d) md k v Hk) as [r1 H1].
    destruct (IH _ _ H1) as [r2 H2]. exists (r1 +:+ r2). by rewrite <- string_app_assoc.
Qed.

(** [check], when it completes: the series it returns. *)
Lemma check_Ok_series s s' w :
  ExposureSeries_check s = Ok (s', w) →
  ∃ exps st, check_loop 0 (exposures s) (check_init s) = Ok (exps, st) ∧
             s' = set_metadata (collected st) (set_exposures (std_sort exposure_lt exps) s).
Proof.
  intros Hok. pose proof Hok as (exps & st & Hloop & Hfind & _)%check_Ok.
  rewrite (check_unfold s exps st Hloop), Hfind in Hok. injection Hok as <- _.
  by exists exps, st.
Qed.

Lemma check_loop_shown idx exps st exps' st' :
  check_loop idx exps st = Ok (exps', st') →
  Forall (λ e', ∃ d et, ImageFactory_open (filename e') = Some d ∧
                        Exiv2_exposureTime d = Some et ∧
                        shown_exposure e' = toFloat et) exps'.
Proof.
  revert idx st exps' st'. induction exps as [|e rest IH]; intros idx st exps' st'.
  - simpl. intros [= <- _]. constructor.
  - intros (e' & st1 & rest' & He & Hrest & ->)%check_loop_cons.
    constructor; [|by eapply IH].
    apply check_exposure_Ok in He as (d & sh & et & ? & ? & ? & Hopen & [_ Het _ _ _] & _ & -> & _).
    by exists d, et.
Qed.
End MergeFacts.

(** Extra X2.  [check], when it completes, keeps the frames: the file
    names, with the images they carry, are those of the series, rearranged;
    width, height and saturation are untouched; and every frame shows the
    Exif exposure time of its file. *)
Theorem check_keeps_frames `{Collaborators} (s s' : ExposureSeries) (w : list string) :
  ExposureSeries_check s = Ok (s', w) →
  (λ e, (filename e, image e)) <$> exposures s'
    ≡ₚ (λ e, (filename e, image e)) <$> exposures s
  ∧ width s' = width s ∧ height s' = height s ∧ saturation s' = saturation s
  ∧ Forall (λ e', ∃ d et, ImageFactory_open (filename e') = Some d ∧
                          Exiv2_exposureTime d = Some et ∧
                          shown_exposure e' = toFloat et) (exposures s').
Proof.
  intros (exps & st & Hloop & ->)%check_Ok_series. simpl.
  pose proof Hloop as Hd. apply check_loop_derived in Hd.
  assert (Hsame : (λ e, (filename e, image e)) <$> exps
                  = (λ e, (filename e, image e)) <$> exposures s).
  { clear Hloop. induction Hd as [|e e' l l' (Hf & _ & Hi) _ IH]; [done|].
    rewrite !fmap_cons. f_equal; [by rewrite Hf, Hi|exact IH]. }
  split; [by rewrite exposure_sort_perm, Hsame|]. repeat split; try done.
  rewrite exposure_sort_perm. by eapply check_loop_shown.
Qed.

(** Extra X3.  [check] never drops what the metadata held before: the
    text stored under a key is the beginning of the text stored under it
    afterwards. *)
Theorem check_only_extends_metadata `{Collaborators} (s s' : ExposureSeries)
    (w : list string) (k v : string) :
  ExposureSeries_check s = Ok (s', w) → metadata s !! k = Some v →
  ∃ rest, metadata s' !! k = Some (v +:+ rest).
Proof.
  intros (exps & st & Hloop & ->)%check_Ok_series Hk. simpl.
  apply check_loop_collected in Hloop as (ds & _ & ->).
  by apply foldl_collect_extends.
Qed.

(** Extra X4.  Merging is not idempotent once two texts differ: an
    attribute whose text differs from the stored one is appended to it, and
    merged a second time it is appended again, since it differs from the
    joined text. *)
Theorem merge_repeats_second_value `{Collaborators} (md : gmap string string)
    (it : Exifdatum) (current : string) :
  (value_size it ≤ 100)%Z → md !! key it = Some current → current ≠ toString it →
  merge_attribute md it !! key it = Some (current +:+ "; " +:+ toString it) ∧
  merge_attribute (merge_attribute md it) it !! key it
    = Some (current +:+ "; " +:+ toString it +:+ "; " +:+ toString it).
Proof.
  intros Hsize Hk Hne.
  assert (Hmerge : ∀ m cur, m !! key it = Some cur → cur ≠ toString it →
            merge_attribute m it = <[key it := cur +:+ "; " +:+ toString it]> m).
  { intros m cur Hm Hc. unfold merge_attribute.
    rewrite bool_decide_eq_false_2 by lia. rewrite Hm.
    by rewrite bool_decide_eq_false_2. }
  rewrite (Hmerge md current Hk Hne), lookup_insert_eq. split; [done|].
  rewrite (Hmerge _ (current +:+ "; " +:+ toString it)).
  - rewrite lookup_insert_eq. f_equal. by rewrite !string_app_assoc.
  - apply lookup_insert_eq.
  - intros Heq. apply (f_equal String.length) in Heq.
    rewrite !string_app_length in Heq. simpl in Heq. lia.
Qed.

(** The bracket of the studio keeps its three files, and the shown exposure
    times are those of the Exif exposure time. *)
Lemma check_keeps_frames_witness :
  ∃ s' w,
    ExposureSeries_check (H := Studio.libs) Studio.bracket = Ok (s', w) ∧
    (λ e, (filename e, image e)) <$> exposures s'
      ≡ₚ (λ e, (filename e, image e)) <$> exposures Studio.bracket ∧
    width s' = 0 ∧ height s' = 0.
Proof.
  destruct (ExposureSeries_check (H := Studio.libs) Studio.bracket)
    as [[s' w]| |] eqn:Hcheck; [|vm_compute in Hcheck; discriminate..].
  destruct (check_keeps_frames (H := Studio.libs) Studio.bracket s' w Hcheck)
    as (Hperm & Hw & Hh & _).
  exists s', w. split; [reflexivity|]. split; [exact Hperm|]. split; [exact Hw|exact Hh].
Defined.

(** A series that comes with an f-number note keeps it: the f-number of the
    frame is appended to it. *)
Lemma check_only_extends_metadata_witness :
  ∃ s' w rest,
    ExposureSeries_check (H := Studio.libs) Darkroom.annotated = Ok (s', w) ∧
    metadata s' !! "Exif.Photo.FNumber" = Some ("4/1" +:+ rest).
Proof.
  destruct (ExposureSeries_check (H := Studio.libs) Darkroom.annotated)
    as [[s' w]| |] eqn:Hcheck; [|vm_compute in Hcheck; discriminate..].
  destruct (check_only_extends_metadata (H := Studio.libs) Darkroom.annotated s' w
              "Exif.Photo.FNumber" "4/1" Hcheck)
    as [rest Hrest]; [vm_compute; reflexivity|].
  exists s', w, rest. split; [reflexivity|exact Hrest].
Defined.

(** The note f/4, merged twice with the f-number f/8 of a frame. *)
Lemma merge_repeats_second_value_witness :
  merge_attribute (merge_attribute {["Exif.Photo.FNumber" := "4/1"]} (Studio.fnumber 8))
                  (Studio.fnumber 8) !! "Exif.Photo.FNumber"
    = Some "4/1; 8/1; 8/1".
Proof.
  apply (merge_repeats_second_value (H := Studio.libs) {["Exif.Photo.FNumber" := "4/1"]}
           (Studio.fnumber 8) "4/1").
  - simpl. lia.
  - vm_compute. reflexivity.
  - discriminate.
Defined.

Section CheckErrors.
Context `{Collaborators}.

Lemma check_exposure_Throw idx e st err :
  check_exposure idx e st = Throw err → frame_error e err.
Proof.
  unfold check_exposure, frame_error.
  destruct (ImageFactory_open (filename e)) as [d|]; simpl; [|intros [= <-]; by left].
  destruct (findKey "Exif.Photo.ShutterSpeedValue" d) as [sh|]; simpl;
    [|intros [= <-]; right; eexists; by left].
  destruct (Exiv2_exposureTime d) as [et|]; simpl; [|intros [= <-]; right; eexists; by left].
  destruct (Exiv2_isoSpeed d) as [iso|]; simpl; [|intros [= <-]; right; eexists; by left].
  destruct (bool_decide (idx = 0)); simpl.
  - destruct (Exiv2_fNumber d) as [fn|]; simpl; [|intros [= <-]; right; eexists; by left].
    destruct (Exiv2_exposureMode d) as [em|]; simpl; [done|].
    intros [= <-]; right; eexists; by left.
  - destruct (float_ne (isoSpeed st) (toFloat iso)); simpl;
      [intros [= <-]; right; eexists; by right|].
    destruct (Exiv2_fNumber d) as [fn|]; simpl; [|intros [= <-]; right; eexists; by left].
    destruct (float_ne (aperture st) (toFloat fn)); simpl;
      [intros [= <-]; right; eexists; by right|].
    destruct (Exiv2_exposureMode d) as [em|]; simpl; [done|].
    intros [= <-]; right; eexists; by left.
Qed.

Lemma check_loop_Throw idx exps st err :
  check_loop idx exps st = Throw err →
  ∃ pre e post exps' st',
    exps = pre ++ e :: post ∧ check_loop idx pre st = Ok (exps', st') ∧
    check_exposure (idx + length pre) e st' = Throw err.
Proof.
  revert idx st. induction exps as [|e rest IH]; intros idx st; [done|].
  simpl. destruct (check_exposure idx e st) as [[e1 st1]|err1|] eqn:He; simpl.
  - destruct (check_loop (S idx) rest st1) as [[r1 st2]|err2|] eqn:Hr; simpl; try done.
    intros [= <-]. destruct (IH _ _ Hr) as (pre & f & post & exps' & st' & -> & Hpre & Hf).
    exists (e :: pre), f, post, (e1 :: exps'), st'. split; [done|]. split.
    + simpl. rewrite He. simpl. by rewrite Hpre.
    + simpl. by rewrite <- Nat.add_succ_comm.
  - intros [= <-]. exists [], e, rest, [], st. repeat split.
    simpl. by rewrite Nat.add_0_r.
  - done.
Qed.

Lemma check_loop_first_failure idx pre e post st exps st' err :
  check_loop idx pre st = Ok (exps, st') →
  check_exposure (idx + length pre) e st' = Throw err →
  check_loop idx (pre ++ e :: post) st = Throw err.
Proof.
  intros Hpre He. rewrite check_loop_app, Hpre. simpl. by rewrite He.
Qed.

Lemma check_Throw s err :
  ExposureSeries_check s = Throw err →
  check_loop 0 (exposures s) (check_init s) = Throw err
  ∨ ∃ exps st it, check_loop 0 (exposures s) (check_init s) = Ok (exps, st) ∧
                  std_adjacent_find exposure_eq (std_sort exposure_lt exps) = Some it ∧
                  err = DuplicateExposureError it.
Proof.
  unfold ExposureSeries_check.
  destruct (check_loop 0 (exposures s) (check_init s)) as [[exps st]|err1|] eqn:Hloop;
    simpl; [|intros [= <-]; by left|done].
  destruct (std_adjacent_find _ _) as [it|] eqn:Hfind; [|done].
  intros [= <-]. right. by exists exps, st, it.
Qed.

(** A frame on which the loop body fails whatever came before makes [check] fail. *)
Lemma check_frame_fails s e :
  e ∈ exposures s →
  (∀ idx st, ∃ err, check_exposure idx e st = Throw err) →
  ∃ err, ExposureSeries_check s = Throw err.
Proof.
  intros He Hfail.
  destruct (ExposureSeries_check s) as [[s' w]|err|] eqn:E.
  - apply check_Ok in E as (exps & st & Hloop & _).
    apply list_elem_of_split in He as (pre & post & Hs). rewrite Hs in Hloop.
    rewrite check_loop_app in Hloop.
    destruct (check_loop 0 pre (check_init s)) as [[l1 st1]| |]; simpl in Hloop; try done.
    destruct (Hfail (length pre) st1) as [err Herr].
    simpl in Hloop. by rewrite Herr in Hloop.
  - by exists err.
  - by apply check_defined in E.
Qed.
End CheckErrors.

(** Extra X5.  When the frames before it pass and the loop body fails on a
    frame, [check] fails with that error, whatever comes after the frame;
    and the error names the file of the frame, as an unreadable file, a
    missing field or an inconsistent setting. *)
Theorem check_reports_first_failure `{Collaborators} (s : ExposureSeries)
    (pre post exps : list Exposure) (e : Exposure) (st : CheckState) (err : error) :
  exposures s = pre ++ e :: post →
  check_loop 0 pre (check_init s) = Ok (exps, st) →
  check_exposure (length pre) e st = Throw err →
  ExposureSeries_check s = Throw err ∧
  (err = DecodeError (filename e) ∨
   ∃ fld, err = MissingFieldError (filename e) fld ∨
          err = InconsistentSettingsError (filename e) fld).
Proof.
  intros Hs Hpre He. split; [|by eapply check_exposure_Throw].
  unfold ExposureSeries_check. rewrite Hs.
  by rewrite (check_loop_first_failure 0 pre e post _ exps st err).
Qed.

(** Extra X6.  Every error of [check] is explained.  Either it is the
    error of the first frame on which the loop body fails, and names its
    file; or it is a duplicate-exposure error for a frame [it], and then two
    frames at different positions of the series have equal exposure times,
    the first of them with the file and the time of [it]. *)
Theorem check_error_is_explained `{Collaborators} (s : ExposureSeries) (err : error) :
  ExposureSeries_check s = Throw err →
  (∃ pre e post exps st,
     exposures s = pre ++ e :: post ∧
     check_loop 0 pre (check_init s) = Ok (exps, st) ∧
     check_exposure (length pre) e st = Throw err ∧
     (err = DecodeError (filename e) ∨
      ∃ fld, err = MissingFieldError (filename e) fld ∨
             err = InconsistentSettingsError (filename e) fld))
  ∨ (∃ it i j a b tb,
       err = DuplicateExposureError it ∧ i ≠ j ∧
       exposures s !! i = Some a ∧ exposures s !! j = Some b ∧
       filename it = filename a ∧
       derived_time a = Some (exposure it) ∧ derived_time b = Some tb ∧
       float_eq (exposure it) tb = true).
Proof.
  intros [Hloop|(exps & st & it & Hloop & Hfind & ->)]%check_Throw.
  - left. apply check_loop_Throw in Hloop as (pre & e & post & exps & st & Hs & Hpre & He).
    exists pre, e, post, exps, st. repeat split; try done.
    by eapply check_exposure_Throw.
  - right. apply std_adjacent_find_Some in Hfind as (l1 & b' & l2 & Hsorted & Heq).
    pose proof (exposure_sort_perm exps) as Hperm. rewrite Hsorted in Hperm.
    apply Permutation_inj in Hperm as (_ & f & Hinj & Hf).
    pose proof (Hf (length l1)) as Hi. pose proof (Hf (S (length l1))) as Hj.
    rewrite list_lookup_middle in Hi by done.
    rewrite (lookup_app_r l1) in Hj by lia.
    replace (S (length l1) - length l1) with 1 in Hj by lia. simpl in Hj.
    apply check_loop_derived in Hloop.
    symmetry in Hi, Hj.
    destruct (Forall2_lookup_r _ _ _ _ _ Hloop Hi) as (a & Ha & Hfa & Hta & _).
    destruct (Forall2_lookup_r _ _ _ _ _ Hloop Hj) as (b & Hb & _ & Htb & _).
    exists it, (f (length l1)), (f (S (length l1))), a, b, (exposure b').
    repeat split; try done.
    intros Heqf. apply Hinj in Heqf. lia.
Qed.

(** A series whose second file cannot be read: the decode error names it. *)
Lemma check_reports_first_failure_witness :
  ExposureSeries_check (H := Darkroom.libs) (Darkroom.series ["eos_0.cr2"; "gone.cr2"])
    = Throw (DecodeError "gone.cr2").
Proof.
  destruct (check_loop (H := Darkroom.libs) 0 [Exposure_new "eos_0.cr2"]
              (check_init (Darkroom.series ["eos_0.cr2"; "gone.cr2"])))
    as [[exps st]| |] eqn:Hpre; [|vm_compute in Hpre; discriminate..].
  apply (check_reports_first_failure (H := Darkroom.libs)
           (Darkroom.series ["eos_0.cr2"; "gone.cr2"])
           [Exposure_new "eos_0.cr2"] [] exps (Exposure_new "gone.cr2") st
           (DecodeError "gone.cr2")).
  - reflexivity.
  - exact Hpre.
  - reflexivity.
Defined.

(** The series of the studio that repeats a shutter speed: the error names
    a frame that has the exposure time of a frame at another position. *)
Lemma check_error_is_explained_witness :
  ∃ it i j a b tb,
    ExposureSeries_check (H := Studio.libs) Studio.twice
      = Throw (DuplicateExposureError it) ∧ i ≠ j ∧
    exposures Studio.twice !! i = Some a ∧ exposures Studio.twice !! j = Some b ∧
    derived_time (H := Studio.libs) a = Some (exposure it) ∧
    derived_time (H := Studio.libs) b = Some tb ∧
    float_eq (exposure it) tb = true.
Proof.
  destruct (ExposureSeries_check (H := Studio.libs) Studio.twice)
    as [[s' w]|err|] eqn:Hcheck; [vm_compute in Hcheck; discriminate| |
                                  vm_compute in Hcheck; discriminate].
  destruct (check_error_is_explained (H := Studio.libs) Studio.twice err Hcheck)
    as [(pre & e & post & exps & st & _ & _ & _ & Herr)
       |(it & i & j & a & b & tb & -> & Hij & Hi & Hj & _ & Ha & Hb & Heq)].
  - exfalso. vm_compute in Hcheck. injection Hcheck as <-.
    destruct Herr as [Herr|(fld & [Herr|Herr])]; discriminate Herr.
  - exists it, i, j, a, b, tb. split; [reflexivity|]. split; [exact Hij|].
    split; [exact Hi|]. split; [exact Hj|]. split; [exact Ha|]. split; [exact Hb|exact Heq].
Defined.

Section Warnings.
Context `{Collaborators}.

Lemma check_loop_warnings idx exps st exps' st' :
  check_loop idx exps st = Ok (exps', st') →
  ∃ ws, Forall2 warnings_of exps ws ∧ cerr st' = cerr st ++ concat ws.
Proof.
  revert idx st exps' st'. induction exps as [|e rest IH]; intros idx st exps' st'.
  - simpl. intros [= _ <-]. exists []. split; [constructor|]. by rewrite app_nil_r.
  - intros (e' & st1 & rest' & He & Hrest & ->)%check_loop_cons.
    apply check_exposure_Ok in He as (d & sh & et & iso & fn & em & Hopen & Hc & _ & _ & ->).
    destruct (IH _ _ _ _ Hrest) as (ws & Hws & Hcerr). simpl in Hcerr.
    exists (frame_warnings (filename e) d em :: ws). split.
    + constructor; [|done]. exists d, em. by destruct Hc.
    + by rewrite Hcerr, <- app_assoc.
Qed.

Lemma frame_warnings_nil e d em :
  ImageFactory_open (filename e) = Some d → Exiv2_exposureMode d = Some em →
  frame_warnings (filename e) d em = [] ↔ manual e.
Proof.
  intros Hopen Hem. unfold frame_warnings, manual. split.
  - intros Hnil. exists d, em. repeat split; try done.
    + by destruct (bool_decide_reflect (print em = "Manual")).
    + intros it Hit. rewrite Hit in Hnil.
      destruct (bool_decide_reflect (print em = "Manual")); [|done].
      by destruct (bool_decide_reflect (print it = "Manual focus")).
  - intros (d' & em' & Hopen' & Hem' & Hprint & Hfocus).
    assert (d' = d) as -> by congruence. assert (em' = em) as -> by congruence.
    rewrite bool_decide_eq_true_2 by done.
    destruct (findKey "Exif.CanonCs.FocusMode" d) as [it|]; [|done].
    by rewrite bool_decide_eq_true_2 by by apply Hfocus.
Qed.

Lemma frame_warnings_length fname d em : length (frame_warnings fname d em) ≤ 2.
Proof.
  unfold frame_warnings. rewrite length_app.
  destruct (bool_decide _); destruct (findKey _ d) as [it|]; simpl; try lia;
    destruct (bool_decide _); simpl; lia.
Qed.

Lemma warnings_quiet exps ws :
  Forall2 warnings_of exps ws → concat ws = [] ↔ Forall manual exps.
Proof.
  induction 1 as [|e fw exps ws (d & em & Hopen & Hem & ->) _ IH]; simpl.
  - split; [constructor|done].
  - rewrite Forall_cons, <- IH, <- (frame_warnings_nil e d em Hopen Hem).
    split; [by intros [-> ->]%app_eq_nil|by intros [-> ->]].
Qed.

Lemma warnings_length exps ws :
  Forall2 warnings_of exps ws → length (concat ws) ≤ 2 * length exps.
Proof.
  induction 1 as [|e fw exps ws (d & em & _ & _ & ->) _ IH]; simpl; [lia|].
  rewrite length_app. pose proof (frame_warnings_length (filename e) d em). lia.
Qed.

End Warnings.

(** Extra X7.  The warnings [check] writes are exactly those of the
    frames, frame by frame in the order of discovery and not in the order of
    the exposure times: for each frame the exposure-mode warning, if any,
    then the focus-mode warning, if any; at most two for a frame. *)
Theorem check_warnings_in_frame_order `{Collaborators} (s s' : ExposureSeries)
    (w : list string) :
  ExposureSeries_check s = Ok (s', w) →
  ∃ ws, Forall2 (λ e fw, ∃ d em, ImageFactory_open (filename e) = Some d ∧
                                 Exiv2_exposureMode d = Some em ∧
                                 fw = frame_warnings (filename e) d em)
                (exposures s) ws
        ∧ w = concat ws ∧ length w ≤ 2 * length (exposures s).
Proof.
  intros (exps & st & Hloop & _ & _ & _ & ->)%check_Ok.
  apply check_loop_warnings in Hloop as (ws & Hws & ->). simpl.
  exists ws. repeat split; [done|]. by apply warnings_length.
Qed.

(** Extra X8.  [check] completes without a warning exactly when every
    frame was taken in manual exposure mode and, where a Canon focus mode is
    recorded, with manual focus. *)
Theorem check_quiet_iff_manual `{Collaborators} (s s' : ExposureSeries) (w : list string) :
  ExposureSeries_check s = Ok (s', w) →
  w = [] ↔ Forall manual (exposures s).
Proof.
  intros (exps & st & Hloop & _ & _ & _ & ->)%check_Ok.
  apply check_loop_warnings in Hloop as (ws & Hws & ->). simpl.
  by apply warnings_quiet.
Qed.

(** Extra X9.  A series of one frame that carries the five fields passes
    [check], whatever their values: the frame gets its two exposure times,
    its attributes are merged into the metadata, and the warnings are its
    own. *)
Theorem check_single_frame `{Collaborators} (s : ExposureSeries) (e : Exposure)
    (d : ExifData) (sh et iso fn em : Exifdatum) :
  exposures s = [e] →
  ImageFactory_open (filename e) = Some d →
  complete d sh et iso fn em →
  ExposureSeries_check s =
    Ok (mkSeries [checked e sh et] (collect_metadata d (metadata s))
                 (width s) (height s) (saturation s),
        frame_warnings (filename e) d em).
Proof.
  intros Hs Hopen Hc. unfold ExposureSeries_check. rewrite Hs. simpl.
  rewrite (check_exposure_first e _ d sh et iso fn em Hopen Hc). reflexivity.
Qed.

Section NotANumber.
Context `{Collaborators}.

Lemma float_eq_nan a b : is_nan a = true → float_eq a b = false.
Proof. by destruct a. Qed.

Lemma adjacent_find_nan l :
  Forall (λ e, is_nan (exposure e) = true) l → std_adjacent_find exposure_eq l = None.
Proof.
  induction 1 as [|a l Ha _ IH]; [done|].
  destruct l as [|b l]; [done|]. simpl.
  unfold exposure_eq at 1. by rewrite float_eq_nan.
Qed.
End NotANumber.

(** Extra X10.  Frames whose shutter speed value is not a number are never
    duplicates: a series whose frames pass the loop and all get such an
    exposure time passes [check], with all its frames and the warnings of
    the loop. *)
Theorem check_accepts_nan_times `{Collaborators} (s : ExposureSeries)
    (exps : list Exposure) (st : CheckState) :
  check_loop 0 (exposures s) (check_init s) = Ok (exps, st) →
  Forall (λ e, ∀ t, derived_time e = Some t → is_nan t = true) (exposures s) →
  ∃ s', ExposureSeries_check s = Ok (s', cerr st) ∧ exposures s' ≡ₚ exps.
Proof.
  intros Hloop Hnan. rewrite (check_unfold s exps st Hloop).
  assert (Hall : Forall (λ e, is_nan (exposure e) = true) exps).
  { apply check_loop_derived in Hloop. clear -Hloop Hnan.
    induction Hloop as [|e e' l l' (_ & Ht & _) _ IH]; [constructor|].
    apply Forall_cons in Hnan as [He Hl]. constructor; [by apply He|by apply IH]. }
  rewrite adjacent_find_nan.
  - eexists. split; [done|]. simpl. apply exposure_sort_perm.
  - eapply Forall_forall. intros e He. rewrite Forall_forall in Hall. apply Hall.
    by rewrite <- (exposure_sort_perm exps).
Qed.

(** Three frames of a camera that records the focus mode: the first was
    focused automatically, the second exposed automatically, the third
    both; the four warnings come in the order of the frames, not of the
    exposure times. *)
Lemma check_warnings_in_frame_order_witness :
  ∃ s' w,
    ExposureSeries_check (H := Darkroom.libs)
      (Darkroom.series ["eos_0.cr2"; "eos_1.cr2"; "eos_2.cr2"]) = Ok (s', w) ∧
    w = [warn_focus_mode "eos_0.cr2"; warn_exposure_mode "eos_1.cr2";
         warn_exposure_mode "eos_2.cr2"; warn_focus_mode "eos_2.cr2"] ∧
    filename <$> exposures s' = ["eos_1.cr2"; "eos_0.cr2"; "eos_2.cr2"] ∧
    length w ≤ 2 * 3.
Proof.
  destruct (ExposureSeries_check (H := Darkroom.libs)
              (Darkroom.series ["eos_0.cr2"; "eos_1.cr2"; "eos_2.cr2"]))
    as [[s' w]| |] eqn:Hcheck; [|vm_compute in Hcheck; discriminate..].
  destruct (check_warnings_in_frame_order (H := Darkroom.libs) _ s' w Hcheck)
    as (ws & _ & _ & Hlen).
  exists s', w. split; [reflexivity|].
  vm_compute in Hcheck. injection Hcheck as <- <-.
  split; [reflexivity|]. split; [reflexivity|exact Hlen].
Defined.

(** The bracket of the studio was taken in manual mode throughout: no
    warning. *)
Lemma check_quiet_iff_manual_witness :
  ∃ s', ExposureSeries_check (H := Studio.libs) Studio.bracket = Ok (s', []) ∧
        Forall (manual (H := Studio.libs)) (exposures Studio.bracket).
Proof.
  destruct (ExposureSeries_check (H := Studio.libs) Studio.bracket)
    as [[s' w]| |] eqn:Hcheck; [|vm_compute in Hcheck; discriminate..].
  pose proof (check_quiet_iff_manual (H := Studio.libs) Studio.bracket s' w Hcheck)
    as [Hquiet _].
  assert (Hw : w = []) by (vm_compute in Hcheck; by injection Hcheck as _ <-).
  exists s'. split; [by rewrite Hw|]. exact (Hquiet Hw).
Defined.

(** One frame that was focused automatically passes, with the warning. *)
Lemma check_single_frame_witness :
  ExposureSeries_check (H := Darkroom.libs) (Darkroom.series ["eos_0.cr2"]) =
    Ok (mkSeries [mkExposure "eos_0.cr2" (Studio.exact_pow2 (f32_of_int (-5)))
                             (f32_div (f32_of_int 1) (f32_of_int 32)) None]
                 (collect_metadata (Darkroom.canon 5 "Manual" "One-shot AF") ∅)
                 0 0 (S754_zero false),
        [warn_focus_mode "eos_0.cr2"]).
Proof.
  apply (check_single_frame (H := Darkroom.libs) (Darkroom.series ["eos_0.cr2"])
           (Exposure_new "eos_0.cr2") (Darkroom.canon 5 "Manual" "One-shot AF")
           (Studio.shutter 5) (Studio.time 5) (Studio.speed 100) (Studio.fnumber 8)
           (Studio.mode "Manual")).
  - reflexivity.
  - reflexivity.
  - constructor; reflexivity.
Defined.

(** Two frames whose shutter speed value is not a number: they have no
    exposure time to compare, and both are kept. *)
Lemma check_accepts_nan_times_witness :
  ∃ s', ExposureSeries_check (H := Darkroom.libs)
          (Darkroom.series ["bulb_0.cr2"; "bulb_1.cr2"]) = Ok (s', []) ∧
        length (exposures s') = 2.
Proof.
  destruct (check_loop (H := Darkroom.libs) 0
              (exposures (Darkroom.series ["bulb_0.cr2"; "bulb_1.cr2"]))
              (check_init (Darkroom.series ["bulb_0.cr2"; "bulb_1.cr2"])))
    as [[exps st]| |] eqn:Hloop; [|vm_compute in Hloop; discriminate..].
  destruct (check_accepts_nan_times (H := Darkroom.libs)
              (Darkroom.series ["bulb_0.cr2"; "bulb_1.cr2"]) exps st Hloop)
    as (s' & Hcheck & Hperm).
  - repeat constructor; intros t Ht; vm_compute in Ht; injection Ht as <-; reflexivity.
  - exists s'. vm_compute in Hloop. injection Hloop as <- <-.
    split; [exact Hcheck|]. by rewrite Hperm.
Defined.

Section LoadErrors.
Context `{Collaborators}.






(** [load] completes only when every frame is decoded. *)
Lemma load_Ok_decoded s s' e :
  ExposureSeries_load s = Ok s' → e ∈ exposures s → ¬ undecodable (filename e).
Proof.
  intros (exps & _ & _ & Hloop & _)%load_Ok He Hun.
  apply load_loop_frames in Hloop. apply list_elem_of_lookup in He as [i Hi].
  destruct (Forall2_lookup_l _ _ _ _ _ Hloop Hi) as (_ & _ & raw & _ & Hraw & _).
  destruct Hun as [Hno|[what Hfail]]; congruence.
Qed.
End LoadErrors.


(** Extra X12.  A frame for whose file RawSpeed has no decoder makes the
    loop body throw the decode error that names the file; a frame whose
    decoder throws lets the exception of the decoder through, as it is; and
    [load] never completes for a series that contains either. *)
Theorem load_reports_decode_failure `{Collaborators} (s : ExposureSeries) :
  (∀ i e dims,
     RawSpeed_decode (filename e) = NoDecoder →
     load_exposure i e dims = Throw (DecodeError (filename e)))
  ∧ (∀ i e dims what,
       RawSpeed_decode (filename e) = DecoderFailed what →
       load_exposure i e dims = Throw (RawSpeedError what))
  ∧ (∀ e s',
       e ∈ exposures s →
       RawSpeed_decode (filename e) = NoDecoder
       ∨ (∃ what, RawSpeed_decode (filename e) = DecoderFailed what) →
       ExposureSeries_load s ≠ Ok s').
Proof.
  split; [|split].
  - intros i e dims Hno. unfold load_exposure. by rewrite Hno.
  - intros i e dims what Hfail. unfold load_exposure. by rewrite Hfail.
  - intros e s' He Hun Hload. by apply (load_Ok_decoded s s' e Hload He).
Qed.


(** A file without decoder and a file the decoder gives up on: the first
    error names the file, the second does not, and no series with either
    file is loaded. *)
Lemma load_reports_decode_failure_witness :
  load_exposure (H := Darkroom.libs) 1 (Exposure_new "gone.cr2") (2, 2)
    = Throw (DecodeError "gone.cr2") ∧
  load_exposure (H := Darkroom.libs) 1 (Exposure_new "eos_1.cr2") (2, 2)
    = Throw (RawSpeedError "Camera not supported (explicit). Sorry.") ∧
  ∀ s', ExposureSeries_load (H := Darkroom.libs) (Darkroom.series ["eos_0.cr2"; "eos_1.cr2"])
        ≠ Ok s'.
Proof.
  destruct (load_reports_decode_failure (H := Darkroom.libs)
              (Darkroom.series ["eos_0.cr2"; "eos_1.cr2"])) as (Hno & Hfail & Hnever).
  split; [|split].
  - apply (Hno 1 (Exposure_new "gone.cr2") (2, 2)). reflexivity.
  - apply (Hfail 1 (Exposure_new "eos_1.cr2") (2, 2)). reflexivity.
  - intros s'. apply (Hnever (Exposure_new "eos_1.cr2") s').
    + apply elem_of_cons. right. apply elem_of_cons. by left.
    + right. eexists. reflexivity.
Defined.

Section NormalizeFacts.

Lemma mapM_is_Some_seq {A} (f : nat → option A) (k n : nat) :
  is_Some (mapM f (seq k n)) ↔ ∀ i, k ≤ i < k + n → is_Some (f i).
Proof.
  rewrite mapM_is_Some, Forall_forall. split.
  - intros Hall i Hi. apply Hall, elem_of_seq. lia.
  - intros Hall i Hi%elem_of_seq. apply Hall. lia.
Qed.

Lemma normalize_row_is_Some raw offset factor y :
  is_Some (normalize_row raw offset factor y) ↔
  ∀ x, x < dim_x raw → y * (pitch raw / 2) + x < length (getData raw).
Proof.
  unfold normalize_row. rewrite mapM_is_Some_seq. split.
  - intros Hall x Hx. destruct (Hall x) as [v Hv]; [lia|].
    apply fmap_Some in Hv as (z & Hz & _). by apply lookup_lt_Some in Hz.
  - intros Hall x Hx. destruct (lookup_lt_is_Some_2 (getData raw) (y * (pitch raw / 2) + x))
      as [z Hz]; [apply Hall; lia|]. rewrite Hz. by eexists.
Qed.

Lemma normalize_is_Some raw : is_Some (normalize raw) ↔ in_bounds raw.
Proof.
  unfold normalize, in_bounds.
  set (offset := to_uint16 (blackLevel raw)).
  set (factor := f32_div _ _).
  split.
  - intros [img Himg] y x Hy Hx.
    destruct (mapM (normalize_row raw offset factor) (seq 0 (dim_y raw))) as [rows|] eqn:Hrows;
      [|done].
    assert (Hsome : is_Some (mapM (normalize_row raw offset factor) (seq 0 (dim_y raw))))
      by (by eexists).
    rewrite mapM_is_Some_seq in Hsome.
    by apply (proj1 (normalize_row_is_Some raw offset factor y)); [apply Hsome; lia|].
  - intros Hall.
    assert (Hsome : is_Some (mapM (normalize_row raw offset factor) (seq 0 (dim_y raw)))).
    { apply mapM_is_Some_seq. intros y Hy. apply normalize_row_is_Some.
      intros x Hx. apply Hall; [lia|done]. }
    destruct Hsome as [rows ->]. by eexists.
Qed.

Lemma in_bounds_closed raw :
  0 < dim_x raw → 0 < dim_y raw →
  in_bounds raw ↔ (dim_y raw - 1) * (pitch raw / 2) + dim_x raw ≤ length (getData raw).
Proof.
  intros Hx Hy. unfold in_bounds. split.
  - intros Hall. specialize (Hall (dim_y raw - 1) (dim_x raw - 1)). lia.
  - intros Hlen y x Hy' Hx'.
    assert (y * (pitch raw / 2) ≤ (dim_y raw - 1) * (pitch raw / 2))
      by (apply Nat.mul_le_mono_r; lia). lia.
Qed.
End NormalizeFacts.

(** Extra X13.  The normalization loops stay within the decoded data
    exactly when every sample position [y * (pitch / 2) + x] of the frame
    lies in it; for a frame with pixels that is when the last row, at its
    stride, ends within the data; a frame without pixels gives the empty
    image. *)
Theorem normalize_reads_within_data (raw : RawImage) :
  (is_Some (normalize raw) ↔
   ∀ y x, y < dim_y raw → x < dim_x raw →
          y * (pitch raw / 2) + x < length (getData raw))
  ∧ (0 < dim_x raw → 0 < dim_y raw →
     (is_Some (normalize raw) ↔
      (dim_y raw - 1) * (pitch raw / 2) + dim_x raw ≤ length (getData raw)))
  ∧ (dim_x raw = 0 ∨ dim_y raw = 0 → normalize raw = Some []).
Proof.
  split; [apply normalize_is_Some|]. split.
  - intros Hx Hy. rewrite normalize_is_Some. by apply in_bounds_closed.
  - intros Hzero.
    destruct (proj2 (normalize_is_Some raw)) as [img Himg].
    { intros y x Hy Hx. lia. }
    rewrite Himg. apply normalize_Some in Himg as [Hlen _].
    destruct img; [done|]. simpl in Hlen. destruct Hzero as [Hz|Hz]; rewrite Hz in Hlen; lia.
Qed.

Section LoadShape.
Context `{Collaborators}.

Lemma load_loop_loaded i exps dims exps' dims' :
  load_loop i exps dims = Ok (exps', dims') → Forall2 loaded exps exps'.
Proof. apply load_loop_frames. Qed.

Lemma Forall2_last {A B} (R : A → B → Prop) l k b :
  Forall2 R l k → last k = Some b → ∃ a, last l = Some a ∧ R a b.
Proof.
  intros HR Hlast. rewrite last_lookup in Hlast.
  destruct (Forall2_lookup_r _ _ _ _ _ HR Hlast) as (a & Ha & Hab).
  exists a. split; [|done]. rewrite last_lookup.
  by rewrite (Forall2_length _ _ _ HR).
Qed.

Lemma estimate_saturation_Ok npix img v :
  estimate_saturation npix img = Ok v →
  0 < npix ≤ length img ∧ percentile_index npix < npix ∧ v ∈ take npix img.
Proof.
  unfold estimate_saturation, std_nth_element. case_bool_decide as Hlen; [done|].
  destruct (std_sort float_lt (take npix img) !! percentile_index npix) as [u|] eqn:Hu;
    [|done].
  intros [= <-].
  pose proof (lookup_lt_Some _ _ _ Hu) as Hlt.
  rewrite (Permutation_length (std_sort_perm _ _)), length_take in Hlt.
  repeat split; try lia.
  rewrite <- (std_sort_perm float_lt). by eapply list_elem_of_lookup_2.
Qed.

End LoadShape.

(** Extra X14.  [load] keeps the series that [check] made: the metadata,
    and frame by frame the file name, the exposure time and the shown
    exposure time, in the same order; so any order of the exposure times
    that held before holds afterwards. *)
Theorem load_keeps_series `{Collaborators} (s s' : ExposureSeries) :
  ExposureSeries_load s = Ok s' →
  metadata s' = metadata s
  ∧ Forall2 (λ e e', filename e' = filename e ∧ exposure e' = exposure e ∧
                     shown_exposure e' = shown_exposure e)
            (exposures s) (exposures s')
  ∧ (∀ R : float → float → Prop,
       StronglySorted (λ a b, R (exposure a) (exposure b)) (exposures s) →
       StronglySorted (λ a b, R (exposure a) (exposure b)) (exposures s')).
Proof.
  intros (exps & e & img & Hloop & Hexps & Hmeta & _)%load_Ok. rewrite Hexps.
  apply load_loop_loaded in Hloop.
  assert (Hkeep : Forall2 (λ e e', filename e' = filename e ∧ exposure e' = exposure e ∧
                                   shown_exposure e' = shown_exposure e)
                          (exposures s) exps).
  { eapply Forall2_impl; [exact Hloop|]. intros a b (raw & im & _ & _ & _ & ->).
    by destruct a. }
  split; [done|]. split; [done|].
  intros R. clear Hloop Hexps Hmeta. induction Hkeep as [|a b l k (_ & Hab & _) Hlk IH]; [done|].
  intros [Hl Ha]%StronglySorted_inv. constructor; [by apply IH|].
  rewrite Forall_forall in Ha. apply Forall_forall. intros b' Hb'.
  apply list_elem_of_lookup in Hb' as [j Hj].
  destruct (Forall2_lookup_r _ _ _ _ _ Hlk Hj) as (a' & Ha' & _ & Hab' & _).
  rewrite Hab, Hab'. apply Ha. by eapply list_elem_of_lookup_2.
Qed.

(** Extra X15.  What a completed [load] implies, none of which the code
    checks: the series has a first and a last frame, both decoded; width and
    height are those of the first frame; there is at least one pixel, and
    the last frame has at least as many pixels as the first; and every
    frame is supported and decoded with all the samples its dimensions and
    stride ask for. *)
Theorem load_success_requires `{Collaborators} (s s' : ExposureSeries) :
  ExposureSeries_load s = Ok s' →
  ∃ first rest final raw0 rawn,
    exposures s = first :: rest ∧ last (exposures s) = Some final ∧
    RawSpeed_decode (filename first) = DecodedRaw raw0 ∧
    RawSpeed_decode (filename final) = DecodedRaw rawn ∧
    width s' = dim_x raw0 ∧ height s' = dim_y raw0 ∧
    0 < dim_x raw0 * dim_y raw0 ≤ dim_x rawn * dim_y rawn ∧
    Forall (λ e, ∃ raw, RawSpeed_decode (filename e) = DecodedRaw raw ∧ supported raw ∧
                        ∀ y x, y < dim_y raw → x < dim_x raw →
                               y * (pitch raw / 2) + x < length (getData raw))
           (exposures s).
Proof.
  intros (exps & e & img & Hloop & _ & _ & Hlast & Himg & Hsat)%load_Ok.
  pose proof (load_loop_loaded _ _ _ _ _ Hloop) as Hall.
  destruct (Forall2_last _ _ _ _ Hall Hlast)
    as (final & Hfinal & rawn & img' & Hrawn & _ & Hnorm & ->).
  simpl in Himg. injection Himg as ->.
  apply estimate_saturation_Ok in Hsat as (Hnpix & _ & _).
  apply normalize_Some in Hnorm as [Hlen _]. rewrite Hlen in Hnpix.
  destruct (exposures s) as [|first rest] eqn:Hs; [done|].
  destruct (load_loop_dims_first _ _ _ _ _ Hloop) as (raw0 & Hraw0 & [= Hw Hh]).
  exists first, rest, final, raw0, rawn. rewrite <- Hw, <- Hh.
  repeat split; try done; try lia.
  apply Forall_forall. intros a Ha. apply list_elem_of_lookup in Ha as [i Hi].
  destruct (Forall2_lookup_l _ _ _ _ _ Hall Hi) as (a' & _ & raw & im & Hraw & Hsup & Hn & _).
  exists raw. split; [done|]. split; [done|].
  apply normalize_is_Some. by eexists.
Qed.

(** The sensor data of the studio: two rows of two pixels in rows of four
    samples, eight samples in all. *)
Lemma normalize_reads_within_data_witness :
  is_Some (normalize (Studio.sensor [600; 100; 7; 7; 1100; 350; 7; 7]%Z)) ∧
  ¬ is_Some (normalize (Studio.sensor [600; 100; 7; 7; 1100]%Z)).
Proof.
  destruct (normalize_reads_within_data (Studio.sensor [600; 100; 7; 7; 1100; 350; 7; 7]%Z))
    as (_ & Hfull & _).
  destruct (normalize_reads_within_data (Studio.sensor [600; 100; 7; 7; 1100]%Z))
    as (_ & Hshort & _).
  split.
  - apply Hfull; simpl; lia.
  - intros Hsome.
    apply (proj1 (Hshort ltac:(simpl; lia) ltac:(simpl; lia))) in Hsome.
    simpl in Hsome. lia.
Defined.

(** Loading the validated bracket keeps the files, the exposure times and
    the order. *)
Lemma load_keeps_series_witness :
  ∃ s', ExposureSeries_load (H := Studio.libs) Studio.validated = Ok s' ∧
        metadata s' = metadata Studio.validated ∧
        Forall2 (λ e e', filename e' = filename e ∧ exposure e' = exposure e ∧
                         shown_exposure e' = shown_exposure e)
                (exposures Studio.validated) (exposures s').
Proof.
  destruct (ExposureSeries_load (H := Studio.libs) Studio.validated)
    as [s'| |] eqn:Hload; [|vm_compute in Hload; discriminate..].
  destruct (load_keeps_series (H := Studio.libs) Studio.validated s' Hload)
    as (Hmeta & Hframes & _).
  exists s'. split; [reflexivity|]. split; [exact Hmeta|exact Hframes].
Defined.

(** The validated bracket: the width and height are those of its first
    frame, and the last frame has as many pixels. *)
Lemma load_success_requires_witness :
  ∃ s' first final raw0 rawn,
    ExposureSeries_load (H := Studio.libs) Studio.validated = Ok s' ∧
    filename first = "img_1.cr2" ∧ filename final = "img_2.cr2" ∧
    RawSpeed_decode (Collaborators := Studio.libs) (filename first) = DecodedRaw raw0 ∧
    RawSpeed_decode (Collaborators := Studio.libs) (filename final) = DecodedRaw rawn ∧
    width s' = dim_x raw0 ∧ height s' = dim_y raw0 ∧
    0 < dim_x raw0 * dim_y raw0 ≤ dim_x rawn * dim_y rawn.
Proof.
  destruct (ExposureSeries_load (H := Studio.libs) Studio.validated)
    as [s'| |] eqn:Hload; [|vm_compute in Hload; discriminate..].
  destruct (load_success_requires (H := Studio.libs) Studio.validated s' Hload)
    as (first & rest & final & raw0 & rawn & Hs & Hlast & Hraw0 & Hrawn & Hw & Hh & Hn & _).
  exists s', first, final, raw0, rawn. split; [reflexivity|].
  split; [by injection Hs as <- _|]. split; [by injection Hlast as <-|].
  split; [exact Hraw0|]. split; [exact Hrawn|]. split; [exact Hw|]. split; [exact Hh|exact Hn].
Defined.

Section Saturation.

Lemma percentile_index_lt npix :
  0 < npix → (Z.of_nat npix < 2 ^ 31)%Z → percentile_index npix < npix.
Proof.
  intros Hpos Hlen. rewrite (percentile_index_floor _ Hlen).
  apply Nat.Div0.div_lt_upper_bound. lia.
Qed.

Lemma percentile_index_small npix :
  0 < npix ≤ 1000 → percentile_index npix = npix - 1.
Proof.
  intros Hn. rewrite percentile_index_floor by lia.
  symmetry. apply (Nat.div_unique _ _ _ (1000 - npix)); lia.
Qed.

Lemma estimate_saturation_defined npix img :
  0 < npix ≤ length img → (Z.of_nat npix < 2 ^ 31)%Z →
  ∃ v, estimate_saturation npix img = Ok v ∧
       std_sort float_lt (take npix img) !! percentile_index npix = Some v.
Proof.
  intros Hn Hlen. unfold estimate_saturation, std_nth_element.
  rewrite bool_decide_eq_false_2 by lia.
  destruct (lookup_lt_is_Some_2 (std_sort float_lt (take npix img)) (percentile_index npix))
    as [v Hv].
  { rewrite (Permutation_length (std_sort_perm _ _)), length_take.
    pose proof (percentile_index_lt npix). lia. }
  exists v. by rewrite Hv.
Qed.

Lemma float_lt_irrefl (a : float) : float_lt a a = false.
Proof.
  destruct (is_nan a) eqn:Hnan; [by destruct a|].
  destruct (float_lt a a) eqn:Hlt; [|done].
  by rewrite (float_lt_asym a a Hnan Hnan Hlt) in Hlt.
Qed.
End Saturation.

(** Extra X16.  On an image of at least [npix] pixels, with [npix]
    positive and below 2^31, the saturation estimate is defined and is one
    of the first [npix] pixels; the pixels after them do not matter; and up
    to a thousand pixels, none of them not a number, it is the largest of
    them: no pixel compares greater. *)
Theorem saturation_estimate_in_image (npix : nat) (img : list float) :
  0 < npix ≤ length img → (Z.of_nat npix < 2 ^ 31)%Z →
  ∃ v, estimate_saturation npix img = Ok v ∧ v ∈ take npix img
       ∧ (∀ img', take npix img' = take npix img → estimate_saturation npix img' = Ok v)
       ∧ (npix ≤ 1000 → Forall not_nan (take npix img) →
          ∀ x, x ∈ take npix img → float_lt v x = false).
Proof.
  intros Hn Hlen. destruct (estimate_saturation_defined npix img Hn Hlen) as (v & Hv & Hrank).
  exists v. split; [done|]. split; [|split].
  - rewrite <- (std_sort_perm float_lt). by eapply list_elem_of_lookup_2.
  - intros img' Htake.
    assert (Hlen' : npix ≤ length img').
    { apply (f_equal length) in Htake. rewrite !length_take in Htake. lia. }
    destruct (estimate_saturation_defined npix img') as (v' & Hv' & Hrank'); [lia|done|].
    rewrite Htake, Hrank in Hrank'. by injection Hrank' as <-.
  - intros Hsmall Hnan x Hx.
    rewrite percentile_index_small in Hrank by lia.
    pose proof (float_sort_sorted _ Hnan) as Hsorted.
    rewrite <- (std_sort_perm float_lt) in Hx.
    apply list_elem_of_lookup in Hx as [i Hi].
    pose proof (lookup_lt_Some _ _ _ Hi) as Hlt.
    assert (Hl : length (std_sort float_lt (take npix img)) = npix).
    { rewrite (Permutation_length (std_sort_perm _ _)), length_take. lia. }
    rewrite Hl in Hlt.
    destruct (decide (i = npix - 1)) as [->|Hne].
    + rewrite Hrank in Hi. injection Hi as <-. apply float_lt_irrefl.
    + eapply (strongly_sorted_last _ _ v x i Hsorted); [|done|lia].
      by rewrite last_lookup, Hl, <- Nat.sub_1_r.
Qed.

Section LoadCompletes.
Context `{Collaborators}.

Lemma load_exposure_pass i e dims raw :
  RawSpeed_decode (filename e) = DecodedRaw raw → supported raw → in_bounds raw →
  ∃ img, normalize raw = Some img ∧
         load_exposure i e dims =
           Ok (set_image img e, if bool_decide (i = 0) then (dim_x raw, dim_y raw) else dims).
Proof.
  intros Hraw (Hx & Hy & Htype & Hcfa) [img Himg]%normalize_is_Some.
  exists img. split; [done|]. unfold load_exposure. rewrite Hraw.
  rewrite bool_decide_eq_false_2 by (intros [?|?]; congruence).
  rewrite bool_decide_eq_false_2 by (intros ?; congruence).
  by rewrite Hcfa, Himg.
Qed.

Lemma load_loop_pass i exps dims :
  Forall (λ e, ∃ raw, RawSpeed_decode (filename e) = DecodedRaw raw ∧ supported raw ∧
                      in_bounds raw) exps →
  ∃ exps' dims', load_loop i exps dims = Ok (exps', dims').
Proof.
  intros Hall. revert i dims. induction Hall as [|e l (raw & Hraw & Hsup & Hin) _ IH];
    intros i dims; [by eexists _, _|].
  destruct (load_exposure_pass i e dims raw Hraw Hsup Hin) as (img & _ & He).
  simpl. rewrite He. simpl.
  destruct (IH (S i) (if bool_decide (i = 0) then (dim_x raw, dim_y raw) else dims))
    as (l' & dims' & ->). simpl. by eexists _, _.
Qed.
End LoadCompletes.

(** Extra X17.  [load] completes on a series whose frames are all decoded
    to supported images with all the samples their dimensions and stride ask
    for, when the first frame has at least one and fewer than 2^31 pixels
    and the last frame at least as many; the width and height are then those
    of the first frame. *)
Theorem load_completes `{Collaborators} (s : ExposureSeries) (first final : Exposure)
    (rest : list Exposure) (raw0 rawn : RawImage) :
  exposures s = first :: rest → last (exposures s) = Some final →
  RawSpeed_decode (filename first) = DecodedRaw raw0 →
  RawSpeed_decode (filename final) = DecodedRaw rawn →
  Forall (λ e, ∃ raw, RawSpeed_decode (filename e) = DecodedRaw raw ∧ supported raw ∧
                      ∀ y x, y < dim_y raw → x < dim_x raw →
                             y * (pitch raw / 2) + x < length (getData raw))
         (exposures s) →
  0 < dim_x raw0 * dim_y raw0 ≤ dim_x rawn * dim_y rawn →
  (Z.of_nat (dim_x raw0 * dim_y raw0) < 2 ^ 31)%Z →
  ∃ s', ExposureSeries_load s = Ok s' ∧ width s' = dim_x raw0 ∧ height s' = dim_y raw0.
Proof.
  intros Hs Hlast Hraw0 Hrawn Hall Hnpix Hsmall.
  destruct (load_loop_pass 0 (exposures s) (width s, height s) Hall) as (exps & [w h] & Hloop).
  pose proof Hloop as Hdims. rewrite Hs in Hdims.
  apply load_loop_dims_first in Hdims as (raw0' & Hraw0' & [= -> ->]).
  assert (raw0' = raw0) as -> by congruence.
  pose proof (load_loop_loaded _ _ _ _ _ Hloop) as Hloaded.
  rewrite last_lookup in Hlast.
  destruct (Forall2_lookup_l _ _ _ _ _ Hloaded Hlast)
    as (final' & Hfinal' & rawn' & img & Hrawn' & _ & Hnorm & ->).
  assert (rawn' = rawn) as -> by congruence.
  rewrite (Forall2_length _ _ _ Hloaded), <- last_lookup in Hfinal'.
  apply normalize_Some in Hnorm as [Hlen _].
  destruct (estimate_saturation_defined (dim_x raw0 * dim_y raw0) img) as (v & Hv & _);
    [lia|done|].
  unfold ExposureSeries_load. rewrite Hloop. simpl. rewrite Hfinal'. simpl.
  rewrite Hv. simpl. by eexists.
Qed.

(** Five pixels of which the first four are the image: the estimate is the
    largest of the four, whatever the fifth. *)
Lemma saturation_estimate_in_image_witness :
  ∃ v, estimate_saturation 4 (f32_of_int <$> [3; 1; 4; 1; 5]%Z) = Ok v ∧
       v = f32_of_int 4 ∧
       estimate_saturation 4 (f32_of_int <$> [3; 1; 4; 1; 9]%Z) = Ok v.
Proof.
  destruct (saturation_estimate_in_image 4 (f32_of_int <$> [3; 1; 4; 1; 5]%Z))
    as (v & Hv & _ & Hsame & _); [simpl; lia|lia|].
  exists v. split; [exact Hv|]. split.
  - vm_compute in Hv. by injection Hv as <-.
  - apply Hsame. reflexivity.
Defined.

(** The validated bracket can be loaded. *)
Lemma load_completes_witness :
  ∃ s', ExposureSeries_load (H := Studio.libs) Studio.validated = Ok s' ∧
        width s' = 2 ∧ height s' = 2.
Proof.
  destruct (load_completes (H := Studio.libs) Studio.validated
              (mkExposure "img_1.cr2" (Studio.exact_pow2 (f32_of_int (-7)))
                          (f32_div (f32_of_int 1) (f32_of_int 128)) None)
              (mkExposure "img_2.cr2" (Studio.exact_pow2 (f32_of_int (-3)))
                          (f32_div (f32_of_int 1) (f32_of_int 8)) None)
              [mkExposure "img_0.cr2" (Studio.exact_pow2 (f32_of_int (-5)))
                          (f32_div (f32_of_int 1) (f32_of_int 32)) None;
               mkExposure "img_2.cr2" (Studio.exact_pow2 (f32_of_int (-3)))
                          (f32_div (f32_of_int 1) (f32_of_int 8)) None]
              (Studio.sensor [225; 100; 7; 7; 350; 162; 7; 7]%Z)
              (Studio.sensor [2100; 100; 7; 7; 4100; 1100; 7; 7]%Z))
    as (s' & Hload & Hw & Hh).
  - reflexivity.
  - reflexivity.
  - reflexivity.
  - reflexivity.
  - repeat constructor; eexists; (split; [reflexivity|]);
      (split; [repeat split|]); simpl; intros; lia.
  - simpl. lia.
  - simpl. lia.
  - exists s'. split; [exact Hload|]. split; [exact Hw|exact Hh].
Defined.

Section Levels.

Lemma all_from_spec (P : Z → bool) (lo : Z) (n : nat) (z : Z) :
  all_from P lo n = true → (lo ≤ z < lo + Z.of_nat n)%Z → P z = true.
Proof.
  revert lo. induction n as [|n IH]; intros lo Hall Hz; [lia|].
  simpl in Hall. apply andb_prop in Hall as [Hlo Hrest].
  destruct (decide (z = lo)) as [->|Hne]; [done|].
  apply (IH (lo + 1)%Z Hrest). lia.
Qed.

Lemma levels_ok_all (d : Z) : (0 < d < 65536)%Z → levels_ok d = true.
Proof.
  intros Hd. apply (all_from_spec levels_ok 1 (Z.to_nat 65535)); [|lia].
  vm_compute. reflexivity.
Qed.

Lemma overflow_ok_all (d : Z) : (0 < d < 65536)%Z → overflow_ok d = true.
Proof.
  intros Hd. apply (all_from_spec overflow_ok 1 (Z.to_nat 65535)); [|lia].
  vm_compute. reflexivity.
Qed.
End Levels.


(** Extra X18.  No guard protects the division: when the white point is
    the black level, the scale factor is infinite, and a 16-bit sample at
    the black level is normalized to no number, a sample above it to plus
    infinity, a sample below it to minus infinity. *)
Theorem normalize_white_equal_black (raw : RawImage) (img : list float) :
  normalize raw = Some img →
  whitePoint raw = to_uint16 (blackLevel raw) →
  Forall (λ v, 0 ≤ v < 65536)%Z (getData raw) →
  ∀ y x, y < dim_y raw → x < dim_x raw →
    ∃ v, getData raw !! (y * (pitch raw / 2) + x) = Some v ∧
         img !! (y * dim_x raw + x) =
           Some (if bool_decide (v = to_uint16 (blackLevel raw)) then S754_nan
                 else S754_infinity (bool_decide (v < to_uint16 (blackLevel raw))%Z)).
Proof.
  intros Hnorm Hwhite Hdata y x Hy Hx.
  destruct (proj2 (normalize_Some raw img Hnorm) y x Hy Hx) as (v & Hv & Hpix).
  exists v. split; [done|]. rewrite Hpix. f_equal.
  unfold normalize_sample, scale_factor, black_offset. rewrite Hwhite, Z.sub_diag.
  rewrite Forall_forall in Hdata.
  assert (0 ≤ v < 65536)%Z as Hrange by (apply Hdata; by eapply list_elem_of_lookup_2).
  assert (0 ≤ to_uint16 (blackLevel raw) < 65536)%Z as Hoff
    by (unfold to_uint16; apply Z.mod_pos_bound; lia).
  case_bool_decide as Heq; [by rewrite Heq, Z.sub_diag|].
  case_bool_decide as Hlt.
  - pose proof (overflow_ok_all (to_uint16 (blackLevel raw) - v) ltac:(lia)) as Hok.
    apply andb_prop in Hok as [_ Hneg]. apply bool_decide_eq_true_1 in Hneg.
    by replace (- (to_uint16 (blackLevel raw) - v))%Z
      with (v - to_uint16 (blackLevel raw))%Z in Hneg by lia.
  - pose proof (overflow_ok_all (v - to_uint16 (blackLevel raw)) ltac:(lia)) as Hok.
    apply andb_prop in Hok as [Hpos _]. by apply bool_decide_eq_true_1 in Hpos.
Qed.

(** Extra X19.  When the white point lies above the black level by less
    than 2^16, a sample at the black level is normalized to zero, and a
    sample at the white point to one or to the largest float below one: the
    product with the rounded reciprocal can fall short of one, and never
    exceeds it. *)
Theorem normalize_black_and_white_levels (raw : RawImage) (img : list float) :
  normalize raw = Some img →
  (0 < whitePoint raw - to_uint16 (blackLevel raw) < 65536)%Z →
  ∀ y x v, y < dim_y raw → x < dim_x raw →
    getData raw !! (y * (pitch raw / 2) + x) = Some v →
    (v = to_uint16 (blackLevel raw) →
     img !! (y * dim_x raw + x) = Some (S754_zero false))
    ∧ (v = whitePoint raw →
       img !! (y * dim_x raw + x) = Some (f32_of_int 1) ∨
       img !! (y * dim_x raw + x) = Some below_one).
Proof.
  intros Hnorm Hd y x v Hy Hx Hv.
  destruct (proj2 (normalize_Some raw img Hnorm) y x Hy Hx) as (v' & Hv' & Hpix).
  assert (v' = v) as -> by congruence. rewrite Hpix.
  unfold normalize_sample, scale_factor, black_offset.
  pose proof (levels_ok_all _ Hd) as Hok. apply andb_prop in Hok as [Hblack Hwhite].
  split.
  - intros ->. rewrite Z.sub_diag. f_equal. by apply bool_decide_eq_true_1 in Hblack.
  - intros ->. apply orb_prop in Hwhite as [Hw|Hw]; apply bool_decide_eq_true_1 in Hw;
      [left|right]; by f_equal.
Qed.

(** Sensor data whose white point is the black level 100: the sample 100
    gives no number, the sample 200 plus infinity, the sample 50 minus
    infinity. *)
Lemma normalize_white_equal_black_witness :
  normalize Darkroom.flat = Some [S754_nan; S754_infinity false; S754_infinity true] ∧
  ∀ x, x < 3 →
    ∃ v, getData Darkroom.flat !! x = Some v ∧
         [S754_nan; S754_infinity false; S754_infinity true] !! x =
           Some (if bool_decide (v = 100%Z) then S754_nan
                 else S754_infinity (bool_decide (v < 100)%Z)).
Proof.
  split; [reflexivity|]. intros x Hx.
  assert (Hdata : Forall (λ v, 0 ≤ v < 65536)%Z (getData Darkroom.flat)).
  { simpl. repeat (apply Forall_cons_2; [lia|]). apply Forall_nil_2. }
  assert (Hrow : 0 < dim_y Darkroom.flat) by (simpl; lia).
  exact (normalize_white_equal_black Darkroom.flat
           [S754_nan; S754_infinity false; S754_infinity true] eq_refl eq_refl
           Hdata 0 x Hrow Hx).
Defined.

(** Sensor data with the black level 0 and the white point 41: the sample
    0 gives zero, the sample 41 the largest float below one. *)
Lemma normalize_black_and_white_levels_witness :
  normalize Darkroom.narrow = Some [S754_zero false; below_one] ∧
  ([S754_zero false; below_one] !! 1 = Some (f32_of_int 1) ∨
   [S754_zero false; below_one] !! 1 = Some below_one) ∧
  below_one ≠ f32_of_int 1.
Proof.
  split; [reflexivity|]. split; [|discriminate].
  assert (Hlevels : (0 < whitePoint Darkroom.narrow
                         - to_uint16 (blackLevel Darkroom.narrow) < 65536)%Z)
    by (vm_compute; split; reflexivity).
  assert (Hrow : 0 < dim_y Darkroom.narrow) by (simpl; lia).
  assert (Hcol : 1 < dim_x Darkroom.narrow) by (simpl; lia).
  destruct (normalize_black_and_white_levels Darkroom.narrow [S754_zero false; below_one]
              eq_refl Hlevels 0 1 41%Z Hrow Hcol eq_refl) as [_ Hwhite].
  exact (Hwhite eq_refl).
Defined.

Section AddRuns.
Context `{Collaborators}.

Lemma add_scan_from_1_any fuel fmt k exps r :
  add_scan_from_1 fuel fmt k exps = Some r →
  ∃ run, r = exps ++ run ∧
         ∀ exps', add_scan_from_1 fuel fmt k exps' = Some (exps' ++ run).
Proof.
  revert k exps r. induction fuel as [|fuel IH]; intros k exps r; simpl; [done|].
  destruct (access_F_OK (snprintf fmt k)); simpl.
  - intros (run & -> & Hany)%IH. exists (Exposure_new (snprintf fmt k) :: run).
    split; [by rewrite <- app_assoc|]. intros exps'.
    rewrite Hany. by rewrite <- app_assoc.
  - intros [= <-]. exists []. split; [by rewrite app_nil_r|].
    intros exps'. by rewrite app_nil_r.
Qed.

Lemma add_scan_from_0_any fuel fmt k exps success r b :
  add_scan_from_0 fuel fmt k exps success = Some (r, b) →
  ∃ run, r = exps ++ run ∧ (b = success ∨ (b = true ∧ run ≠ [])) ∧
         (run = [] → b = success) ∧
         ∀ exps', add_scan_from_0 fuel fmt k exps' success = Some (exps' ++ run, b).
Proof.
  revert k exps success r b. induction fuel as [|fuel IH]; intros k exps success r b;
    simpl; [done|].
  assert (Hstop : Some (exps, success) = Some (r, b) →
            ∃ run, r = exps ++ run ∧ (b = success ∨ (b = true ∧ run ≠ [])) ∧
                   (run = [] → b = success) ∧
                   ∀ exps', Some (exps', success) = Some (exps' ++ run, b)).
  { intros [= <- <-]. exists []. rewrite app_nil_r. repeat split; [by left|].
    intros exps'. by rewrite app_nil_r. }
  destruct (access_F_OK (snprintf fmt k)); simpl; [|done].
  destruct (bool_decide (k = 1) && negb (strchr fmt "%")); [done|].
  intros (run & -> & Hb & Hnil & Hany)%IH. exists (Exposure_new (snprintf fmt k) :: run).
  split; [by rewrite <- app_assoc|].
  assert (b = true) as ->.
  { destruct Hb as [->|[-> _]]; [|done]. done. }
  split; [by right|]. split; [done|].
  intros exps'. rewrite Hany. by rewrite <- app_assoc.
Qed.

Lemma add_any fuel fmt s s' :
  ExposureSeries_add fuel fmt s = Some s' →
  ∃ run, exposures s' = exposures s ++ run ∧
         ∀ t, ExposureSeries_add fuel fmt t = Some (set_exposures (exposures t ++ run) t).
Proof.
  unfold ExposureSeries_add. intros Hadd.
  destruct (add_scan_from_0 fuel fmt 0 (exposures s) false) as [[exps success]|] eqn:H0;
    [|done]. simpl in Hadd.
  apply add_scan_from_0_any in H0 as (run & -> & Hb & Hnil & Hany).
  destruct success; simpl in Hadd.
  - injection Hadd as <-. exists run. split; [done|]. intros t. by rewrite Hany.
  - destruct Hb as [_|[? _]]; [|done].
    destruct (add_scan_from_1 fuel fmt 1 (exposures s ++ run)) as [exps'|] eqn:H1; [|done].
    simpl in Hadd. injection Hadd as <-.
    apply add_scan_from_1_any in H1 as (run' & -> & Hany').
    exists (run ++ run'). split; [by rewrite app_assoc|].
    intros t. rewrite Hany. simpl. rewrite Hany'. simpl. by rewrite app_assoc.
Qed.
End AddRuns.

Section Distinct.
Context `{Collaborators}.

Lemma check_loop_timed idx exps st exps' st' :
  check_loop idx exps st = Ok (exps', st') →
  Forall numeric_time exps → Forall timed exps'.
Proof.
  intros Hd%check_loop_derived Hnum. induction Hd as [|e e' l l' (_ & Ht & _) _ IH];
    [constructor|].
  apply Forall_cons in Hnum as [He Hl]. constructor; [by apply He|by apply IH].
Qed.

Lemma check_Ok_sorted s s' w :
  ExposureSeries_check s = Ok (s', w) → Forall numeric_time (exposures s) →
  ∃ exps st, check_loop 0 (exposures s) (check_init s) = Ok (exps, st) ∧
             exposures s' = std_sort exposure_lt exps ∧ Forall timed exps ∧
             StronglySorted (is_lt exposure_lt) (exposures s') ∧
             ForallOrdPairs (differ exposure_eq) exps.
Proof.
  intros (exps & st & Hloop & Hfind & Hs' & _)%check_Ok Hnum.
  pose proof (check_loop_timed _ _ _ _ _ Hloop Hnum) as Htimed.
  assert (Hsorted : Forall timed (std_sort exposure_lt exps))
    by by rewrite exposure_sort_perm.
  pose proof (exposure_sort_sorted exps Htimed) as Hle.
  pose proof (exposure_strictly_sorted _ Hsorted Hle Hfind) as Hlt.
  exists exps, st. rewrite Hs'. repeat split; try done.
  pose proof (exposure_distinct _ Hsorted Hlt) as Hd.
  by apply (ForallOrdPairs_perm _ _ exps differ_sym) in Hd; [|apply exposure_sort_perm].
Qed.

Lemma float_eq_refl (a : float) : is_nan a = false → float_eq a a = true.
Proof. intros Ha. apply float_eq_key; [done..|]. by destruct (float_key a) as [[??]?]. Qed.
(** A series that lists a file twice never passes [check]. *)
Lemma check_repeated_frame (s : ExposureSeries) (i j : nat) (a b : Exposure) :
  i ≠ j → exposures s !! i = Some a → exposures s !! j = Some b →
  filename a = filename b →
  Forall numeric_time (exposures s) →
  ∃ err, ExposureSeries_check s = Throw err.
Proof.
  intros Hij Hi Hj Hname Hnum.
  destruct (ExposureSeries_check s) as [[s' w]|err|] eqn:Hcheck;
    [|by exists err|by apply check_defined in Hcheck].
  exfalso. apply check_Ok_sorted in Hcheck as (exps & st & Hloop & _ & Htimed & _ & Hd);
    [|done].
  pose proof (check_loop_derived _ _ _ _ _ Hloop) as H2.
  destruct (Forall2_lookup_l _ _ _ _ _ H2 Hi) as (a' & Hi' & _ & Ha' & _).
  destruct (Forall2_lookup_l _ _ _ _ _ H2 Hj) as (b' & Hj' & _ & Hb' & _).
  assert (Heq : exposure a' = exposure b').
  { unfold derived_time in Ha', Hb'. rewrite Hname in Ha'. congruence. }
  assert (Hab : exposure_eq a' b' = true).
  { unfold exposure_eq. rewrite Heq. apply float_eq_refl.
    rewrite Forall_forall in Htimed. apply Htimed. by eapply list_elem_of_lookup_2. }
  destruct (decide (i < j)) as [Hlt'|Hge].
  - pose proof (ForallOrdPairs_lookup _ _ _ _ _ _ Hd Hlt' Hi' Hj') as Hne.
    unfold differ in Hne. congruence.
  - assert (Hlt' : j < i) by lia.
    pose proof (ForallOrdPairs_lookup _ _ _ _ _ _ Hd Hlt' Hj' Hi') as Hne.
    unfold differ in Hne. rewrite exposure_eq_sym in Hne. congruence.
Qed.
End Distinct.

(** Extra X20.  What [add] appends depends on the template and the files
    only, not on the series: the same run is appended to any series, and
    adding the same template again appends it a second time. *)
Theorem add_independent_of_series `{Collaborators} (fuel : nat) (fmt : string)
    (s s' : ExposureSeries) :
  ExposureSeries_add fuel fmt s = Some s' →
  ∃ run, exposures s' = exposures s ++ run ∧
         (∀ t, ExposureSeries_add fuel fmt t = Some (set_exposures (exposures t ++ run) t)) ∧
         ∃ s'', ExposureSeries_add fuel fmt s' = Some s'' ∧
                exposures s'' = exposures s ++ run ++ run.
Proof.
  intros (run & Hs' & Hany)%add_any. exists run. split; [done|]. split; [done|].
  eexists. split; [apply Hany|]. simpl. by rewrite Hs', <- app_assoc.
Qed.

(** Extra X21.  Adding the same template twice, when it has files, gives
    a series that never passes [check], provided the exposure times of its
    frames are numbers. *)
Theorem add_twice_fails_check `{Collaborators} (fuel : nat) (fmt : string)
    (s s1 s2 : ExposureSeries) :
  ExposureSeries_add fuel fmt s = Some s1 → ExposureSeries_add fuel fmt s1 = Some s2 →
  exposures s1 ≠ exposures s →
  Forall (λ e, ∀ t, derived_time e = Some t → is_nan t = false) (exposures s2) →
  ∃ err, ExposureSeries_check s2 = Throw err.
Proof.
  intros (run & Hs1 & Hany)%add_any Hadd2 Hnew Hnum.
  rewrite Hany in Hadd2. injection Hadd2 as <-. simpl in Hnum |- *.
  destruct run as [|e run]; [by rewrite app_nil_r in Hs1|].
  apply (check_repeated_frame _ (length (exposures s)) (length (exposures s1)) e e);
    simpl; try done.
  - rewrite Hs1, length_app. simpl. lia.
  - rewrite Hs1, <- app_assoc. by apply list_lookup_middle.
  - by apply list_lookup_middle.
Qed.

(** The template of the bracket: the three frames are appended to any
    series, and a second time when it is added again. *)
Lemma add_independent_of_series_witness :
  ∃ s' s'',
    ExposureSeries_add (H := Studio.libs) 5 "img_%d.cr2" (Studio.series []) = Some s' ∧
    ExposureSeries_add (H := Studio.libs) 5 "img_%d.cr2" s' = Some s'' ∧
    Studio.names s'' = ["img_0.cr2"; "img_1.cr2"; "img_2.cr2";
                        "img_0.cr2"; "img_1.cr2"; "img_2.cr2"].
Proof.
  destruct (ExposureSeries_add (H := Studio.libs) 5 "img_%d.cr2" (Studio.series []))
    as [s'|] eqn:Hadd; [|vm_compute in Hadd; discriminate].
  destruct (add_independent_of_series (H := Studio.libs) 5 "img_%d.cr2"
              (Studio.series []) s' Hadd)
    as (run & Hs' & _ & s'' & Hadd' & Hs'').
  exists s', s''. split; [reflexivity|]. split; [exact Hadd'|].
  unfold Studio.names. rewrite Hs''.
  vm_compute in Hadd. injection Hadd as <-. simpl in Hs'. rewrite <- Hs'. reflexivity.
Defined.

(** The bracket of the studio, added twice, does not pass [check]. *)
Lemma add_twice_fails_check_witness :
  ∃ s1 s2 err,
    ExposureSeries_add (H := Studio.libs) 5 "img_%d.cr2" (Studio.series []) = Some s1 ∧
    ExposureSeries_add (H := Studio.libs) 5 "img_%d.cr2" s1 = Some s2 ∧
    ExposureSeries_check (H := Studio.libs) s2 = Throw err.
Proof.
  destruct (ExposureSeries_add (H := Studio.libs) 5 "img_%d.cr2" (Studio.series []))
    as [s1|] eqn:Hadd1; [|vm_compute in Hadd1; discriminate].
  destruct (ExposureSeries_add (H := Studio.libs) 5 "img_%d.cr2" s1)
    as [s2|] eqn:Hadd2;
    [|vm_compute in Hadd1; injection Hadd1 as <-; vm_compute in Hadd2; discriminate].
  destruct (add_twice_fails_check (H := Studio.libs) 5 "img_%d.cr2" (Studio.series [])
              s1 s2 Hadd1 Hadd2) as [err Herr].
  - vm_compute in Hadd1. injection Hadd1 as <-. discriminate.
  - vm_compute in Hadd1. injection Hadd1 as <-.
    vm_compute in Hadd2. injection Hadd2 as <-.
    repeat constructor; intros t Ht; vm_compute in Ht; injection Ht as <-; reflexivity.
  - exists s1, s2, err. split; [reflexivity|]. split; [exact Hadd2|exact Herr].
Defined.

Section Reordering.
Context `{Collaborators}.

Lemma float_eq_numbers a b : float_eq a b = true → is_nan a = false ∧ is_nan b = false.
Proof. by destruct a, b. Qed.

Lemma float_eq_trans_l a b c :
  float_eq a b = true → float_eq a c = true → float_eq b c = true.
Proof.
  intros Hab Hac.
  destruct (float_eq_numbers _ _ Hab) as [Ha Hb].
  destruct (float_eq_numbers _ _ Hac) as [_ Hc].
  float_keys.
Qed.

Lemma agrees_trans iso fn e f d sh et iso' fn' em :
  agrees iso fn e → agrees iso fn f →
  ImageFactory_open e = Some d → complete d sh et iso' fn' em →
  agrees (toFloat iso') (toFloat fn') f.
Proof.
  intros (d1 & sh1 & et1 & iso1 & fn1 & em1 & Hopen1 & Hc1 & Hiso1 & Hfn1)
         (d2 & sh2 & et2 & iso2 & fn2 & em2 & Hopen2 & Hc2 & Hiso2 & Hfn2) Hopen Hc.
  assert (d1 = d) as -> by congruence.
  assert (iso1 = iso') as -> by (destruct Hc, Hc1; congruence).
  assert (fn1 = fn') as -> by (destruct Hc, Hc1; congruence).
  exists d2, sh2, et2, iso2, fn2, em2. split; [done|]. split; [done|].
  split; by eapply float_eq_trans_l.
Qed.

Lemma check_loop_checked idx exps st exps' st' :
  check_loop idx exps st = Ok (exps', st') →
  exps' = omap frame_checked (frame_id <$> exps).
Proof.
  revert idx st exps' st'. induction exps as [|e rest IH]; intros idx st exps' st'.
  - simpl. by intros [= <- _].
  - intros (e' & st1 & rest' & He & Hrest & ->)%check_loop_cons.
    apply check_exposure_Ok in He as (d & sh & et & iso & fn & em & Hopen & Hc & _ & -> & _).
    rewrite fmap_cons. simpl. unfold frame_checked at 1. simpl. rewrite Hopen. simpl.
    destruct Hc as [-> -> _ _ _]. simpl. f_equal. by eapply IH.
Qed.

(** A series that passes the loop of [check]: the first frame is complete
    and the others agree with its ISO speed and f-number. *)
Lemma check_loop_from_first e rest st exps st' :
  check_loop 0 (e :: rest) st = Ok (exps, st') →
  ∃ d sh et iso fn em,
    ImageFactory_open (filename e) = Some d ∧ complete d sh et iso fn em ∧
    Forall (agrees (toFloat iso) (toFloat fn)) (filename <$> rest).
Proof.
  intros (e' & st1 & rest' & He & Hrest & ->)%check_loop_cons.
  apply check_exposure_Ok in He as (d & sh & et & iso & fn & em & Hopen & Hc & _ & _ & ->).
  exists d, sh, et, iso, fn, em. split; [done|]. split; [done|].
  apply check_loop_refs in Hrest as (_ & _ & Hall); [|done]. simpl in Hall.
  rewrite Forall_fmap. eapply Forall_impl; [exact Hall|].
  intros f (d2 & sh2 & et2 & iso2 & fn2 & em2 & ?).
  by exists d2, sh2, et2, iso2, fn2, em2.
Qed.

Lemma check_loop_first_pass e rest st d sh et iso fn em :
  ImageFactory_open (filename e) = Some d → complete d sh et iso fn em →
  Forall (agrees (toFloat iso) (toFloat fn)) (filename <$> rest) →
  ∃ exps st', check_loop 0 (e :: rest) st = Ok (exps, st').
Proof.
  intros Hopen Hc Hall. simpl.
  rewrite (check_exposure_first e st d sh et iso fn em Hopen Hc). simpl.
  destruct (check_loop_pass 1 rest
              (mkCheckState (toFloat iso) (toFloat fn) (collect_metadata d (collected st))
                            (cerr st ++ frame_warnings (filename e) d em)))
    as (exps & st' & ->); [done| |by eexists _, _].
  rewrite Forall_fmap in Hall. eapply Forall_impl; [exact Hall|].
  intros f (d2 & sh2 & et2 & iso2 & fn2 & em2 & ?).
  by exists d2, sh2, et2, iso2, fn2, em2.
Qed.

Lemma check_loop_perm l l' st exps st' :
  check_loop 0 l st = Ok (exps, st') → frame_id <$> l' ≡ₚ frame_id <$> l →
  ∀ st0, ∃ exps' st'', check_loop 0 l' st0 = Ok (exps', st'').
Proof.
  intros Hloop Hperm st0.
  assert (Hnames : filename <$> l' ≡ₚ filename <$> l).
  { apply (fmap_Permutation fst) in Hperm. by rewrite <- !list_fmap_compose in Hperm. }
  clear Hperm.
  destruct l as [|e rest].
  { apply Permutation_nil_r, fmap_nil_inv in Hnames as ->. by eexists _, _. }
  destruct l' as [|f rest'].
  { symmetry in Hnames. by apply Permutation_nil_r in Hnames. }
  destruct (check_loop_from_first _ _ _ _ _ Hloop)
    as (d & sh & et & iso & fn & em & Hopen & Hc & Hall).
  destruct rest as [|e2 rest].
  { destruct rest' as [|f2 rest'].
    - apply Permutation_singleton_r in Hnames as [= Hf].
      apply (check_loop_first_pass f [] st0 d sh et iso fn em); [by rewrite Hf|done..].
    - apply Permutation_length in Hnames. simpl in Hnames. lia. }
  (* with a second frame, the first agrees with itself *)
  assert (He : agrees (toFloat iso) (toFloat fn) (filename e)).
  { rewrite fmap_cons in Hall.
    apply Forall_cons in Hall as [(d2 & sh2 & et2 & iso2 & fn2 & em2 & _ & _ & Hi & Hf) _].
    apply float_eq_numbers in Hi as [Hi _]. apply float_eq_numbers in Hf as [Hf _].
    exists d, sh, et, iso, fn, em. split; [done|]. split; [done|].
    split; by apply float_eq_refl. }
  assert (Hevery : Forall (agrees (toFloat iso) (toFloat fn)) (filename <$> f :: rest')).
  { rewrite Hnames. rewrite fmap_cons. by constructor. }
  rewrite fmap_cons in Hevery. apply Forall_cons in Hevery as [Hf Hrest'].
  pose proof Hf as (df & shf & etf & isof & fnf & emf & Hopenf & Hcf & _).
  apply (check_loop_first_pass f rest' st0 df shf etf isof fnf emf Hopenf Hcf).
  eapply Forall_impl; [exact Hrest'|]. intros g Hg.
  by apply (agrees_trans _ _ (filename f) g df shf etf isof fnf emf Hf Hg).
Qed.

Lemma exposure_lt_antisym (x1 x2 : Exposure) :
  is_lt exposure_lt x1 x2 → is_lt exposure_lt x2 x1 → x1 = x2.
Proof.
  unfold is_lt, exposure_lt. intros H12 H21. exfalso.
  destruct (is_nan (exposure x1)) eqn:H1; [by destruct (exposure x1)|].
  destruct (is_nan (exposure x2)) eqn:H2; [by destruct (exposure x1), (exposure x2)|].
  by rewrite (float_lt_asym _ _ H1 H2 H12) in H21.
Qed.

Lemma check_loop_ids idx exps st exps' st' :
  check_loop idx exps st = Ok (exps', st') → frame_id <$> exps' = frame_id <$> exps.
Proof.
  intros Hd%check_loop_derived. induction Hd as [|e e' l l' (Hf & _ & Hi) _ IH]; [done|].
  rewrite !fmap_cons. f_equal; [|done]. unfold frame_id. by rewrite Hf, Hi.
Qed.
End Reordering.

(** Extra X22.  The exposures [check] leaves do not depend on the order of
    discovery: when a series whose exposure times are numbers passes, every
    series with the same files and images in another order passes as well
    and is left with the same exposures in the same order; in particular the
    result passes again, unchanged in its exposures. *)
Theorem check_order_independent `{Collaborators} (s s' : ExposureSeries)
    (w : list string) :
  ExposureSeries_check s = Ok (s', w) →
  Forall (λ e, ∀ x, derived_time e = Some x → is_nan x = false) (exposures s) →
  (∀ t, (λ e, (filename e, image e)) <$> exposures t
          ≡ₚ (λ e, (filename e, image e)) <$> exposures s →
        ∃ t' w', ExposureSeries_check t = Ok (t', w') ∧ exposures t' = exposures s')
  ∧ ∃ s'' w'', ExposureSeries_check s' = Ok (s'', w'') ∧ exposures s'' = exposures s'.
Proof.
  intros Hcheck Hnum.
  apply check_Ok_sorted in Hcheck as (exps & st & Hloop & Hs' & Htimed & Hsorted & Hd);
    [|done].
  assert (Hany : ∀ t, frame_id <$> exposures t ≡ₚ frame_id <$> exposures s →
            ∃ t' w', ExposureSeries_check t = Ok (t', w') ∧ exposures t' = exposures s').
  { intros t Hperm.
    destruct (check_loop_perm _ _ _ _ _ Hloop Hperm (check_init t))
      as (exps' & st' & Hloop').
    assert (Hexps : exps' ≡ₚ exps).
    { rewrite (check_loop_checked _ _ _ _ _ Hloop), (check_loop_checked _ _ _ _ _ Hloop').
      by rewrite Hperm. }
    assert (Htimed' : Forall timed exps') by by rewrite Hexps.
    assert (Hsort' : Forall timed (std_sort exposure_lt exps'))
      by by rewrite exposure_sort_perm.
    pose proof (exposure_sort_sorted exps' Htimed') as Hle'.
    assert (Hfind : std_adjacent_find exposure_eq (std_sort exposure_lt exps') = None).
    { apply distinct_adjacent_find.
      apply (ForallOrdPairs_perm _ exps); [apply differ_sym| |done].
      by rewrite exposure_sort_perm, Hexps. }
    rewrite (check_unfold t exps' st' Hloop'), Hfind. eexists _, _. split; [done|].
    simpl. rewrite Hs'.
    apply (StronglySorted_unique_strong (is_lt exposure_lt)).
    - intros x1 x2 _ _. apply exposure_lt_antisym.
    - by apply exposure_strictly_sorted.
    - by rewrite <- Hs'.
    - by rewrite !exposure_sort_perm. }
  split; [exact Hany|]. apply Hany.
  rewrite Hs', exposure_sort_perm. by rewrite (check_loop_ids _ _ _ _ _ Hloop).
Qed.

(** The bracket of the studio in another order of discovery gives the same
    exposures, and so does the validated bracket when it is checked again. *)
Lemma check_order_independent_witness :
  ∃ s' w t' w' s'' w'',
    ExposureSeries_check (H := Studio.libs) Studio.bracket = Ok (s', w) ∧
    ExposureSeries_check (H := Studio.libs)
      (Studio.series ["img_2.cr2"; "img_0.cr2"; "img_1.cr2"]) = Ok (t', w') ∧
    exposures t' = exposures s' ∧
    ExposureSeries_check (H := Studio.libs) s' = Ok (s'', w'') ∧
    exposures s'' = exposures s'.
Proof.
  destruct (ExposureSeries_check (H := Studio.libs) Studio.bracket)
    as [[s' w]| |] eqn:Hcheck; [|vm_compute in Hcheck; discriminate..].
  destruct (check_order_independent (H := Studio.libs) Studio.bracket s' w Hcheck)
    as (Hany & s'' & w'' & Hagain & Hsame).
  - repeat constructor; intros t Ht; vm_compute in Ht; injection Ht as <-; reflexivity.
  - destruct (Hany (Studio.series ["img_2.cr2"; "img_0.cr2"; "img_1.cr2"]))
      as (t' & w' & Ht' & Heq).
    + simpl. rewrite (Permutation_swap _ _ [_]). apply Permutation_skip, Permutation_swap.
    + exists s', w, t', w', s'', w''. split; [reflexivity|]. split; [exact Ht'|].
      split; [exact Heq|]. split; [exact Hagain|exact Hsame].
Defined.

Section Reload.
Context `{Collaborators}.

Lemma load_exposure_again i e dims e' dims' :
  load_exposure i e dims = Ok (e', dims') →
  ∀ dims0, load_exposure i e' dims0
           = Ok (e', if bool_decide (i = 0) then dims' else dims0).
Proof.
  intros (raw & img & Hraw & Hsup & Hnorm & -> & ->)%load_exposure_Ok dims0.
  destruct Hsup as (Hx & Hy & Htype & Hcfa).
  unfold load_exposure. simpl. rewrite Hraw.
  rewrite bool_decide_eq_false_2 by (intros [?|?]; congruence).
  rewrite bool_decide_eq_false_2 by (intros ?; congruence).
  rewrite Hcfa, Hnorm. simpl. by case_bool_decide.
Qed.

Lemma load_loop_again i exps dims exps' dims' :
  load_loop i exps dims = Ok (exps', dims') →
  ∀ dims0, load_loop i exps' dims0
           = Ok (exps', if bool_decide (i = 0 ∧ exps ≠ []) then dims' else dims0).
Proof.
  revert i dims exps' dims'. induction exps as [|e rest IH]; intros i dims exps' dims'.
  - simpl. intros [= <- <-] dims0. simpl.
    by rewrite bool_decide_eq_false_2 by (by intros [_ ?]).
  - intros (e' & dims1 & rest' & He & Hrest & ->)%load_loop_cons dims0. simpl.
    rewrite (load_exposure_again _ _ _ _ _ He dims0). simpl.
    rewrite (IH _ _ _ _ Hrest). simpl.
    apply load_loop_dims_later in Hrest as ->; [|lia].
    destruct (decide (i = 0)) as [->|Hi].
    + by rewrite !bool_decide_eq_true_2 by done.
    + rewrite bool_decide_eq_false_2 by done.
      by rewrite bool_decide_eq_false_2 by (by intros [? _]).
Qed.
End Reload.

(** Extra X23.  [load] is idempotent: loading the series it returned
    returns that series again. *)
Theorem load_idempotent `{Collaborators} (s s' : ExposureSeries) :
  ExposureSeries_load s = Ok s' → ExposureSeries_load s' = Ok s'.
Proof.
  intros Hload.
  pose proof Hload as (exps & e & img & Hloop & Hexps & Hmeta & Hlast & Himg & Hsat)%load_Ok.
  unfold ExposureSeries_load.
  rewrite Hexps, (load_loop_again _ _ _ _ _ Hloop). 
  assert (Hne : exposures s ≠ []).
  { intros Hnil. rewrite Hnil in Hloop. simpl in Hloop. injection Hloop as <- _ _.
    done. }
  rewrite bool_decide_eq_true_2 by done. simpl.
  rewrite Hlast, Himg. simpl. rewrite Hsat. simpl.
  destruct s'. simpl in *. by subst.
Qed.

(** Loading the validated bracket a second time changes nothing. *)
Lemma load_idempotent_witness :
  ∃ s', ExposureSeries_load (H := Studio.libs) Studio.validated = Ok s' ∧
        ExposureSeries_load (H := Studio.libs) s' = Ok s'.
Proof.
  destruct (ExposureSeries_load (H := Studio.libs) Studio.validated)
    as [s'| |] eqn:Hload; [|vm_compute in Hload; discriminate..].
  exists s'. split; [reflexivity|].
  exact (load_idempotent (H := Studio.libs) Studio.validated s' Hload).
Defined.

Section AddReturns.
Context `{Collaborators}.

(** The first missing file from [k] on, when the file [k + d] is missing. *)
Lemma first_missing fmt k d :
  access_F_OK (snprintf fmt (k + d)) = false →
  ∃ n, n ≤ d ∧ access_F_OK (snprintf fmt (k + n)) = false ∧
       ∀ i, k ≤ i < k + n → access_F_OK (snprintf fmt i) = true.
Proof.
  revert k. induction d as [|d IH]; intros k Hmiss.
  - exists 0. split; [done|]. split; [done|]. intros; lia.
  - destruct (access_F_OK (snprintf fmt k)) eqn:Hk.
    + destruct (IH (S k)) as (n & Hn & Hmiss' & Hex).
      { by replace (S k + d) with (k + S d) by lia. }
      exists (S n). split; [lia|]. split.
      * by replace (k + S n) with (S k + n) by lia.
      * intros i Hi. destruct (decide (i = k)) as [->|]; [done|]. apply Hex. lia.
    + exists 0. rewrite Nat.add_0_r. split; [lia|]. split; [done|]. intros; lia.
Qed.

Lemma add_scan_from_0_single fmt fuel exps success :
  strchr fmt "%" = false → access_F_OK (snprintf fmt 0) = true → 2 ≤ fuel →
  add_scan_from_0 fuel fmt 0 exps success
    = Some (exps ++ [Exposure_new (snprintf fmt 0)], true).
Proof.
  intros Hfmt H0 Hfuel. destruct fuel as [|[|fuel]]; [lia..|].
  simpl. rewrite H0, Hfmt. simpl.
  by destruct (access_F_OK (snprintf fmt 1)).
Qed.

Lemma add_scan_from_0_missing fmt fuel k exps success :
  access_F_OK (snprintf fmt k) = false → 1 ≤ fuel →
  add_scan_from_0 fuel fmt k exps success = Some (exps, success).
Proof.
  intros Hk Hfuel. destruct fuel as [|fuel]; [lia|]. simpl. by rewrite Hk.
Qed.
End AddReturns.

(** Extra X24.  [add] returns whenever some numbered file from 1 on is
    missing: there is one series that it returns for every bound on the
    iterations above the index of that file plus one. *)
Theorem add_returns `{Collaborators} (fmt : string) (s : ExposureSeries) (m : nat) :
  1 ≤ m → access_F_OK (snprintf fmt m) = false →
  ∃ s', ∀ fuel, m + 1 < fuel → ExposureSeries_add fuel fmt s = Some s'.
Proof.
  intros Hm Hmiss. unfold ExposureSeries_add.
  destruct (access_F_OK (snprintf fmt 0)) eqn:H0.
  - destruct (strchr fmt "%") eqn:Hfmt.
    + destruct (first_missing fmt 0 m Hmiss) as (n & Hn & Hmiss' & Hex).
      exists (set_exposures (exposures s ++ numbered fmt 0 n) s). intros fuel Hfuel.
      rewrite (add_scan_from_0_run fmt n 0 fuel (exposures s) false);
        [|by left|done|done|lia].
      assert (0 < n).
      { destruct n; [simpl in Hmiss'; congruence|lia]. }
      by rewrite bool_decide_eq_true_2 by done.
    + exists (set_exposures (exposures s ++ [Exposure_new (snprintf fmt 0)]) s).
      intros fuel Hfuel.
      by rewrite (add_scan_from_0_single fmt fuel (exposures s) false Hfmt H0) by lia.
  - destruct (first_missing fmt 1 (m - 1)) as (n & Hn & Hmiss' & Hex).
    { by replace (1 + (m - 1)) with m by lia. }
    exists (set_exposures (exposures s ++ numbered fmt 1 n) s). intros fuel Hfuel.
    rewrite (add_scan_from_0_missing fmt fuel 0 (exposures s) false H0) by lia. simpl.
    by rewrite (add_scan_from_1_run fmt n 1 fuel (exposures s)) by (done || lia).
Qed.

(** The template of the bracket: the file for 3 is missing, and any bound
    above 4 gives the three frames. *)
Lemma add_returns_witness :
  ∃ s', Studio.names s' = ["img_0.cr2"; "img_1.cr2"; "img_2.cr2"] ∧
        ∀ fuel, 4 < fuel →
          ExposureSeries_add (H := Studio.libs) fuel "img_%d.cr2" (Studio.series []) = Some s'.
Proof.
  destruct (add_returns (H := Studio.libs) "img_%d.cr2" (Studio.series []) 3)
    as [s' Hs']; [lia|reflexivity|].
  exists s'. split; [|exact Hs'].
  specialize (Hs' 5 ltac:(lia)). vm_compute in Hs'. injection Hs' as <-. reflexivity.
Defined.

Section Percentile999.

Lemma filter_none {A} (P : A → Prop) `{∀ x, Decision (P x)} (l : list A) :
  Forall (λ x, ¬ P x) l → filter P l = [].
Proof.
  induction 1 as [|x l Hx _ IH]; [done|]. by rewrite filter_cons_False.
Qed.

(** Around the element of rank [r] of an ascending list: none of the [r]
    elements before it compares greater, none of those after it less. *)
Lemma sorted_around (sorted : list float) (r : nat) (v : float) :
  StronglySorted (not_gt float_lt) sorted → sorted !! r = Some v →
  length (filter (λ x, float_lt v x = true) sorted) ≤ length sorted - 1 - r ∧
  length (filter (λ x, float_lt x v = true) sorted) ≤ r.
Proof.
  intros Hsorted Hr.
  pose proof (lookup_lt_Some _ _ _ Hr) as Hlt.
  rewrite <- (take_drop_middle sorted r v Hr) in Hsorted |- *.
  apply StronglySorted_app in Hsorted as (Hbefore & Hl1 & Hvl2).
  apply StronglySorted_inv in Hvl2 as [_ Hafter].
  rewrite !filter_app, !length_app, !filter_cons, float_lt_irrefl. simpl.
  destruct (decide (false = true)) as [?|_]; [done|].
  assert (Hlen : length (take r sorted) = r) by (rewrite length_take; lia).
  assert (Hrest : length (drop (S r) sorted) = length sorted - 1 - r)
    by (rewrite length_drop; lia).
  split.
  - rewrite (filter_none (λ x, float_lt v x = true) (take r sorted)).
    + simpl. rewrite Hlen.
      pose proof (length_filter (λ x, float_lt v x = true) (drop (S r) sorted)). lia.
    + apply Forall_forall. intros x Hx. unfold not_gt in Hbefore.
      rewrite (Hbefore x v Hx); [done|]. by left.
  - rewrite (filter_none (λ x, float_lt x v = true) (drop (S r) sorted)).
    + simpl. pose proof (length_filter (λ x, float_lt x v = true) (take r sorted)). lia.
    + rewrite Forall_forall in Hafter. apply Forall_forall. intros x Hx.
      unfold not_gt in Hafter. by rewrite (Hafter x Hx).
Qed.
End Percentile999.

(** Extra X25.  The saturation estimate is the 99.9th percentile of the
    first [npix] pixels: when none of them is not a number, fewer than one
    in a thousand of them compare greater than the estimate, and at most
    [floor (npix * 999 / 1000)] compare less. *)
Theorem saturation_estimate_percentile (npix : nat) (img : list float) (v : float) :
  estimate_saturation npix img = Ok v →
  (Z.of_nat npix < 2 ^ 31)%Z → Forall not_nan (take npix img) →
  length (filter (λ x, float_lt v x = true) (take npix img)) * 1000 < npix
  ∧ length (filter (λ x, float_lt x v = true) (take npix img)) ≤ npix * 999 / 1000.
Proof.
  intros Hsat Hsmall Hnan.
  pose proof (estimate_saturation_Ok _ _ _ Hsat) as (Hnpix & _ & _).
  destruct (estimate_saturation_defined npix img Hnpix Hsmall) as (v' & Hv' & Hrank).
  assert (v' = v) as -> by congruence.
  rewrite (percentile_index_floor _ Hsmall) in Hrank.
  pose proof (float_sort_sorted _ Hnan) as Hsorted.
  destruct (sorted_around _ _ _ Hsorted Hrank) as [Hgreater Hless].
  rewrite (std_sort_perm float_lt (take npix img)) in Hgreater, Hless.
  rewrite length_take in Hgreater.
  split; [|exact Hless].
  assert (Hfloor : npix * 999 < 1000 * (npix * 999 / 1000 + 1)).
  { pose proof (Nat.Div0.div_mod (npix * 999) 1000).
    pose proof (Nat.mod_upper_bound (npix * 999) 1000). lia. }
  lia.
Qed.

(** Four pixels: none exceeds the estimate, and at most three are below. *)
Lemma saturation_estimate_percentile_witness :
  estimate_saturation 4 (f32_of_int <$> [3; 1; 4; 1]%Z) = Ok (f32_of_int 4) ∧
  length (filter (λ x, float_lt (f32_of_int 4) x = true)
                 (take 4 (f32_of_int <$> [3; 1; 4; 1]%Z))) * 1000 < 4.
Proof.
  split; [reflexivity|].
  apply (saturation_estimate_percentile 4 (f32_of_int <$> [3; 1; 4; 1]%Z) (f32_of_int 4)).
  - reflexivity.
  - lia.
  - repeat constructor.
Defined.
